(** * smallchat-extended: ring buffer, client registry and message framing

    A shallow embedding of [circular_buffer.c] and of the chat core of
    [smallchat-server.c], followed by the properties of the design
    specification that concern them.

    Conventions.
    - A C [char] is an [ascii]; a C [int] is a [Z].  Every [int] the program
      computes stays far below 2^31 (indices are below the buffer size,
      descriptors below [MAX_CLIENTS]), so no wrap-around is written out.
    - A C array is a [list]; reading is stdpp's lookup [!!], writing is
      [<[i:=x]>].
    - C's [%] on [int] is [Z.rem] (truncated remainder).
    - What the program gets from outside is an argument: the block [malloc]
      returns, the bytes pending on a socket, what the scratch buffer
      [readbuf] was left holding.  What it sends out is a result: the list
      of its [write] calls.  The [select] call itself, [acceptClient] and
      the lines printed on the console are left out.
    - An index outside an array is no defined behaviour in C: a run that
      comes to one ends as [Fault]. *)

From Stdlib Require Import ZArith List Ascii String Bool Lia DecimalString.
From stdpp Require Import base tactics option list sorting.

Local Open Scope Z_scope.

(* ===================================================================== *)
(** * Part I. Definitions *)
(* ===================================================================== *)

(** ** Characters *)

Definition char : Type := ascii.

Definition NUL : char := "000"%char.
Definition LF : char := "010"%char.
Definition CR : char := "013"%char.
Definition SP : char := " "%char.
Definition SLASH : char := "/"%char.

(** [char] comparison as a boolean, as [==] on two [char]s. *)
Definition ceq (a b : char) : bool := Ascii.eqb a b.

(** A string literal as the list of its bytes (without the terminator). *)
Definition str (s : string) : list char := list_ascii_of_string s.

(** ** circular_buffer.h: [struct Circbuf] *)

Record Circbuf : Type := mkCircbuf {
  buf : list char;      (* char *buf *)
  write_idx : Z;        (* int write_idx *)
  read_idx : Z;         (* int read_idx *)
  size : Z              (* int size; if size is N, actual capacity is N-1 *)
}.

(** ** circular_buffer.c *)

(** [circbuf_alloc]: [mem] is the block [malloc] returns for the buffer; its
    content is whatever the allocator left there. *)
Definition circbuf_alloc (mem : list char) (sz : Z) : Circbuf :=
  {| buf := mem; write_idx := 0; read_idx := 0; size := sz |}.

(** [circbuf_push]: returns the buffer and the C return value (0 or 1). *)
Definition circbuf_push (cb : Circbuf) (data : char) : Circbuf * Z :=
  if Z.rem (write_idx cb + 1) (size cb) =? read_idx cb then (cb, 0)
  else
    ({| buf := <[Z.to_nat (write_idx cb) := data]> (buf cb);
        write_idx := Z.rem (write_idx cb + 1) (size cb);
        read_idx := read_idx cb;
        size := size cb |}, 1).

(** [circbuf_pop]: [data] is the byte currently stored at the destination
    [*data]; the result carries the byte stored there afterwards, so a failed
    pop visibly leaves it as it was. *)
Definition circbuf_pop (cb : Circbuf) (data : char) : Circbuf * char * Z :=
  if read_idx cb =? write_idx cb then (cb, data, 0)
  else
    ({| buf := buf cb;
        write_idx := write_idx cb;
        read_idx := Z.rem (read_idx cb + 1) (size cb);
        size := size cb |},
     default NUL (buf cb !! Z.to_nat (read_idx cb)), 1).

(** The loop of [circbuf_push_from_linear], entered at index [i] with
    [todo = n - i] iterations of the guard [i < n] still open. *)
Fixpoint push_from_linear_loop (todo : nat) (cb : Circbuf) (src : list char)
    (i : Z) : Circbuf * Z :=
  match todo with
  | O => (cb, i)
  | S todo' =>
      if i <? size cb - 1 then
        let '(cb', ok) := circbuf_push cb (default NUL (src !! Z.to_nat i)) in
        if ok =? 0 then (cb', i)
        else push_from_linear_loop todo' cb' src (i + 1)
      else (cb, i)
  end.

Definition circbuf_push_from_linear (cb : Circbuf) (src : list char) (n : Z)
    : Circbuf * Z :=
  push_from_linear_loop (Z.to_nat n) cb src 0.

(** The loop of [circbuf_pop_to_linear], entered at index [i] with
    [todo = n - i] iterations still open. *)
Fixpoint pop_to_linear_loop (todo : nat) (dest : list char) (cb : Circbuf)
    (i : Z) : list char * Circbuf * Z :=
  match todo with
  | O => (dest, cb, i)
  | S todo' =>
      let '(cb', d, ok) :=
        circbuf_pop cb (default NUL (dest !! Z.to_nat i)) in
      if ok =? 0 then (dest, cb', i)
      else pop_to_linear_loop todo' (<[Z.to_nat i := d]> dest) cb' (i + 1)
  end.

Definition circbuf_pop_to_linear (dest : list char) (cb : Circbuf) (n : Z)
    : list char * Circbuf * Z :=
  pop_to_linear_loop (Z.to_nat n) dest cb 0.

Definition circbuf_empty (cb : Circbuf) : Circbuf :=
  {| buf := buf cb; write_idx := write_idx cb;
     read_idx := write_idx cb; size := size cb |}.

Definition circbuf_len (cb : Circbuf) : Z :=
  if write_idx cb =? read_idx cb then 0
  else if write_idx cb >? read_idx cb then write_idx cb - read_idx cb
  else write_idx cb - read_idx cb + size cb.

Definition circbuf_size (cb : Circbuf) : Z := size cb.

Definition circbuf_space_left (cb : Circbuf) : Z :=
  size cb - 1 - circbuf_len cb.

(** ** smallchat-server.c: constants and data structures *)

Definition MAX_CLIENTS : Z := 1000.
Definition READBUF_SIZE : Z := 128.
Definition MSG_SEP : char := LF.

Record client : Type := mkClient {
  fd : Z;               (* int fd: client socket *)
  nick : list char;     (* char *nick, as the C string it holds *)
  read_cb : Circbuf     (* struct Circbuf *read_cb *)
}.

(** [struct chatState].  [clients] is the array of [MAX_CLIENTS] client
    pointers; [None] is the [NULL] pointer. *)
Record chatState : Type := mkChat {
  serversock : Z;
  numclients : Z;
  maxclient : Z;
  clients : list (option client)
}.

(** [Chat->clients[j]], with [NULL] for an index outside the array. *)
Definition client_at (Chat : chatState) (j : Z) : option client :=
  if j <? 0 then None else mjoin (clients Chat !! Z.to_nat j).

(** A [write(fd, s, len)] call: the descriptor and the [len] bytes. *)
Definition write_call : Type := Z * list char.

(** What [snprintf] prints for ["%d"]. *)
Definition decimal (z : Z) : list char :=
  str (NilZero.string_of_int (Z.to_int z)).

(** ** Runs that leave an array *)

(** A run either goes on with a value or leaves the arrays of the C
    program (an index outside [clients], [readbuf] or [tmpbuf]), after
    which the C program has no defined behaviour. *)
Inductive outcome (A : Type) : Type :=
  | Ok (a : A)
  | Fault.
Arguments Ok {A} a.
Arguments Fault {A}.

#[global] Instance outcome_bind : MBind outcome :=
  fun A B (k : A -> outcome B) (m : outcome A) =>
    match m with Ok a => k a | Fault => Fault end.

(** The C string that starts at the head of [l]: the bytes before the first
    terminator. *)
Fixpoint cstr (l : list char) : list char :=
  match l with
  | [] => []
  | x :: l' => if ceq x NUL then [] else x :: cstr l'
  end.

(** ** smallchat-server.c: the registry and the broadcast *)

(** [createClient].  The descriptor is not checked: [Chat->clients[c->fd]]
    is read by the [assert] and then written whatever [fd] is, so with a
    descriptor outside the array the run is [Fault].  [Ok None] is the
    [assert] failing on a slot that is taken, which aborts the program.

    [nickmem] is what the memory holds from the address on that
    [chatMalloc(nicklen+1)] returned.  [memcpy] writes there the [nicklen]
    bytes that [snprintf] printed and no terminator: byte [nicklen] stays
    as the allocator left it.  [nick] is the C string read at [c->nick]
    afterwards.  [mem] is the block the client's buffer is allocated
    in.  The allocations are taken to succeed. *)
Definition createClient (fd0 : Z) (nickmem mem : list char)
    (Chat : chatState) : outcome (option (client * chatState)) :=
  let printed := str "user:" ++ decimal fd0 in
  let nicklen := length printed in
  let c := {| fd := fd0;
              nick := cstr (printed ++ drop nicklen nickmem);
              read_cb := circbuf_alloc mem READBUF_SIZE |} in
  if (0 <=? fd c) && (fd c <? MAX_CLIENTS) then
    match client_at Chat (fd c) with
    | Some _ => Ok None
    | None =>
        Ok (Some (c,
              {| serversock := serversock Chat;
                 numclients := numclients Chat + 1;
                 maxclient :=
                   if fd c >? maxclient Chat then fd c else maxclient Chat;
                 clients := <[Z.to_nat (fd c) := Some c]> (clients Chat) |}))
    end
  else Fault.

(** The downward scan [for (j = ...; j >= 0; j--)] entered at [j], with
    [todo = j + 1] iterations still open; the result is [j] when the loop is
    left, by [break] or by its guard. *)
Fixpoint free_scan (todo : nat) (cl : list (option client)) (j : Z) : Z :=
  match todo with
  | O => j
  | S todo' =>
      if j >=? 0 then
        match mjoin (cl !! Z.to_nat j) with
        | Some _ => j
        | None => free_scan todo' cl (j - 1)
        end
      else j
  end.

Definition freeClient (c : client) (Chat : chatState) : chatState :=
  let cl := <[Z.to_nat (fd c) := None]> (clients Chat) in
  let n := numclients Chat - 1 in
  if maxclient Chat =? fd c then
    let j := free_scan (Z.to_nat (maxclient Chat)) cl (maxclient Chat - 1) in
    {| serversock := serversock Chat;
       numclients := n;
       maxclient := if j >=? 0 then j
                    else if j =? -1 then -1 else maxclient Chat;
       clients := cl |}
  else
    {| serversock := serversock Chat; numclients := n;
       maxclient := maxclient Chat; clients := cl |}.

(** [initChat], once the listening socket [sock] is created: the array is
    zeroed by [memset]. *)
Definition initChat (sock : Z) : chatState :=
  {| serversock := sock; numclients := 0; maxclient := -1;
     clients := replicate (Z.to_nat MAX_CLIENTS) None |}.

(** [sendMsgToAllClientsBut]: the [write] calls it makes, in the order it
    makes them; [s] is the [len] bytes written. *)
Definition sendMsgToAllClientsBut (excluded : Z) (s : list char)
    (Chat : chatState) : list write_call :=
  flat_map
    (fun j : nat =>
       match client_at Chat (Z.of_nat j) with
       | None => []
       | Some c => if fd c =? excluded then [] else [(fd c, s)]
       end)
    (seq 0 (Z.to_nat (maxclient Chat + 1))).

(** ** smallchat-server.c: [main], the body run for one readable client *)

(** C strings held in an array: [strchr], the index of the first [ch] at or
    after [i], searched up to the terminator. *)
Fixpoint strchr_from (l : list char) (i : nat) (ch : char) : option nat :=
  match l with
  | [] => None
  | x :: l' =>
      if ceq x ch then Some i
      else if ceq x NUL then None
      else strchr_from l' (S i) ch
  end.

Definition strchr (s : list char) (ch : char) : option nat :=
  strchr_from s 0 ch.

(** [p = strchr(s, ch); if (p) *p = 0;] *)
Definition cut_at (s : list char) (ch : char) : list char :=
  match strchr s ch with
  | Some p => <[p := NUL]> s
  | None => s
  end.

(** [strcmp(a, b) == 0] on the C strings [a] and [b]. *)
Fixpoint streq (a b : list char) : bool :=
  match a, b with
  | [], [] => true
  | x :: a', y :: b' => ceq x y && streq a' b'
  | _, _ => false
  end.

Definition errmsg : list char := str "Unsupported command" ++ [LF].

(** Lines 303-344: what is done with the message held in [readbuf].  The
    result is the client (its nickname may change), the scratch buffer
    (command parsing cuts it in place) and the [write] calls made. *)
Definition process_message (j : Z) (c : client) (Chat : chatState)
    (readbuf : list char) : client * list char * list write_call :=
  if ceq (default NUL (readbuf !! 0%nat)) SLASH then
    let rb1 := cut_at readbuf CR in
    let rb2 := cut_at rb1 LF in
    match strchr rb2 SP with
    | Some p =>
        let rb3 := <[p := NUL]> rb2 in
        if streq (cstr rb3) (str "/nick") then
          ({| fd := fd c; nick := cstr (drop (S p) rb3);
              read_cb := read_cb c |}, rb3, [])
        else (c, rb3, [(fd c, errmsg)])
    | None => (c, rb2, [(fd c, errmsg)])
    end
  else
    let msg := take 255 (nick c ++ str "> " ++ cstr readbuf) in
    (c, readbuf, sendMsgToAllClientsBut j msg Chat).

(** The do-while loop of lines 294-296, entered with index [idx].  [room]
    is the number of cells of [readbuf] from [idx] on; with none left the
    access [readbuf[idx]] is outside the array.  The source drops what
    [circbuf_pop] returns; [pops] keeps it, one entry per iteration, for
    the record only: nothing the loop computes depends on it. *)
Fixpoint pop_until_sep (room : nat) (cb : Circbuf) (readbuf : list char)
    (idx : Z) (pops : list Z) : outcome (Circbuf * list char * Z * list Z) :=
  match room with
  | O => Fault
  | S room' =>
      match readbuf !! Z.to_nat idx with
      | None => Fault
      | Some old =>
          let '(cb', d, ok) := circbuf_pop cb old in
          let readbuf' := <[Z.to_nat idx := d]> readbuf in
          if ceq d MSG_SEP then Ok (cb', readbuf', idx + 1, pops ++ [ok])
          else pop_until_sep room' cb' readbuf' (idx + 1) (pops ++ [ok])
      end
  end.

(** [c] stored back in slot [j]: the client is reached through the pointer
    [Chat->clients[j]], so what is changed in it is changed there. *)
Definition store_client (j : Z) (c : client) (Chat : chatState)
    : chatState :=
  {| serversock := serversock Chat; numclients := numclients Chat;
     maxclient := maxclient Chat;
     clients := <[Z.to_nat j := Some c]> (clients Chat) |}.

(** What one run of the handler leaves behind: the chat state, the scratch
    buffer, the messages taken out of the inbox (the content of [readbuf]
    at line 297, up to the terminator written there) and the [write]
    calls. *)
Record served : Type := mkServed {
  sv_chat : chatState;
  sv_readbuf : list char;
  sv_messages : list (list char);
  sv_writes : list write_call
}.

(** One round of the [for (; sep_occur > 0; sep_occur--)] loop, lines
    293-344. *)
Definition extract_round (j : Z) (c : client) (Chat : chatState)
    (readbuf : list char)
    : outcome (client * chatState * list char * list char * list write_call) :=
  '(cb', rb, idx, _) ←
    pop_until_sep (length readbuf) (read_cb c) readbuf 0 [];
  if idx <? Z.of_nat (length rb) then
    let rb' := <[Z.to_nat idx := NUL]> rb in
    let c1 := {| fd := fd c; nick := nick c; read_cb := cb' |} in
    let '(c2, rb'', ws) := process_message j c1 (store_client j c1 Chat) rb' in
    Ok (c2, store_client j c2 Chat, rb'', take (Z.to_nat idx) rb', ws)
  else Fault.

Fixpoint extract_rounds (sep_occur : nat) (j : Z) (c : client)
    (Chat : chatState) (readbuf : list char)
    : outcome (chatState * list char * list (list char) * list write_call) :=
  match sep_occur with
  | O => Ok (Chat, readbuf, [], [])
  | S k =>
      '(c', Chat', rb, m, ws) ← extract_round j c Chat readbuf;
      '(Chat'', rb', ms, ws') ← extract_rounds k j c' Chat' rb;
      Ok (Chat'', rb', m :: ms, ws ++ ws')
  end.

(** What [read(j, tmpbuf, count)] finds on the socket.  [read] takes as
    many of the pending bytes as [count] allows; a read that returns fewer
    bytes is one with fewer bytes pending. *)
Inductive sock_input : Type :=
  | Bytes (pending : list char)   (* bytes sent and not yet read; none: end of stream *)
  | ReadError.                    (* read returns -1 *)

(** The bytes [read] stores in [tmpbuf]; [count] is converted to [size_t],
    so a negative [count] bounds nothing. *)
Definition read_bytes (inp : sock_input) (count : Z) : list char :=
  match inp with
  | Bytes pending =>
      if count <? 0 then pending else take (Z.to_nat count) pending
  | ReadError => []
  end.

Definition read_result (inp : sock_input) (count : Z) : Z :=
  match inp with
  | Bytes _ => Z.of_nat (length (read_bytes inp count))
  | ReadError => -1
  end.

(** The count of line 264-267. *)
Definition count_sep (l : list char) : Z :=
  Z.of_nat (length (filter (fun x => ceq x MSG_SEP = true) l)).

(** Lines 233-349 for client slot [j], readable with [inp] on its socket. *)
Definition serve_client (j : Z) (inp : sock_input) (Chat : chatState)
    (readbuf : list char) : outcome served :=
  match client_at Chat j with
  | None => Ok (mkServed Chat readbuf [] [])
  | Some c =>
      let count := circbuf_space_left (read_cb c) - 1 in
      let tmpbuf := read_bytes inp count in
      let nread := read_result inp count in
      let cb := fst (circbuf_push_from_linear (read_cb c) tmpbuf nread) in
      let c := {| fd := fd c; nick := nick c; read_cb := cb |} in
      let Chat := store_client j c Chat in
      if (0 <=? nread) && (nread <? READBUF_SIZE) then
        if nread <=? 0 then
          Ok (mkServed (freeClient c Chat) readbuf [] [])
        else
          let sep_occur := count_sep tmpbuf in
          if (sep_occur >? 0) || (circbuf_space_left (read_cb c) <=? 1) then
            let sep_occur := if sep_occur =? 0 then 1 else sep_occur in
            '(Chat', rb, ms, ws) ←
              extract_rounds (Z.to_nat sep_occur) j c Chat readbuf;
            Ok (mkServed Chat' rb ms ws)
          else Ok (mkServed Chat readbuf [] [])
      else Fault
  end.

(** ** Vocabulary of the properties: the ring buffer *)

(** The index part of a well-formed state; it is all the index arithmetic
    of the operations relies on. *)
Definition idx_wf (cb : Circbuf) : Prop :=
  0 < size cb /\ 0 <= write_idx cb < size cb /\ 0 <= read_idx cb < size cb.

(** The states of a buffer allocated with a positive size. *)
Definition circbuf_wf (cb : Circbuf) : Prop :=
  0 < size cb /\
  0 <= write_idx cb < size cb /\
  0 <= read_idx cb < size cb /\
  Z.of_nat (length (buf cb)) = size cb.

(** The stored bytes, oldest first: the cells from [read_idx] up to
    [write_idx], wrapping at the end of the array. *)
Definition contents (cb : Circbuf) : list char :=
  let r := Z.to_nat (read_idx cb) in
  let w := Z.to_nat (write_idx cb) in
  if read_idx cb <=? write_idx cb then take (w - r)%nat (drop r (buf cb))
  else drop r (buf cb) ++ take w (buf cb).

(** The states a buffer allocated with size [N] in the block [mem] can be
    brought to by the operations of [circular_buffer.c], whatever their
    arguments. *)
Inductive circbuf_reach (N : Z) (mem : list char) : Circbuf -> Prop :=
  | reach_alloc :
      circbuf_reach N mem (circbuf_alloc mem N)
  | reach_push cb data :
      circbuf_reach N mem cb ->
      circbuf_reach N mem (circbuf_push cb data).1
  | reach_pop cb data :
      circbuf_reach N mem cb ->
      circbuf_reach N mem (circbuf_pop cb data).1.1
  | reach_push_from_linear cb src n :
      circbuf_reach N mem cb ->
      circbuf_reach N mem (circbuf_push_from_linear cb src n).1
  | reach_pop_to_linear cb dest n :
      circbuf_reach N mem cb ->
      circbuf_reach N mem (circbuf_pop_to_linear dest cb n).1.2
  | reach_empty cb :
      circbuf_reach N mem cb ->
      circbuf_reach N mem (circbuf_empty cb).

(** ** Vocabulary of the properties: the registry and the messages *)

(** The number of occupied slots of the [clients] array. *)
Fixpoint count_occupied (cl : list (option client)) : Z :=
  match cl with
  | [] => 0
  | Some _ :: cl' => 1 + count_occupied cl'
  | None :: cl' => count_occupied cl'
  end.

(** The occupied client ids, in ascending order. *)
Definition occupied_ids (Chat : chatState) : list Z :=
  filter (fun j : Z => is_Some (client_at Chat j))
         (seqZ 0 (Z.of_nat (length (clients Chat)))).

(** The states of the chat: [initChat], then clients created and freed;
    between the two a client is changed in place through its slot (its
    nickname and its buffer, never its descriptor).  A creation counts
    when [createClient] comes to its end: the slot is inside the array
    and the [assert] holds. *)
Inductive chat_reach : chatState -> Prop :=
  | chat_init sock :
      chat_reach (initChat sock)
  | chat_create Chat fd0 nickmem mem c Chat' :
      chat_reach Chat ->
      createClient fd0 nickmem mem Chat = Ok (Some (c, Chat')) ->
      chat_reach Chat'
  | chat_free Chat j c :
      chat_reach Chat ->
      client_at Chat j = Some c ->
      chat_reach (freeClient c Chat)
  | chat_update Chat j c nick' cb' :
      chat_reach Chat ->
      client_at Chat j = Some c ->
      chat_reach
        (store_client j {| fd := fd c; nick := nick'; read_cb := cb' |} Chat).

(** What the code keeps true of the registry. *)
Record chat_inv (Chat : chatState) : Prop := mkChatInv {
  inv_length : Z.of_nat (length (clients Chat)) = MAX_CLIENTS;
  inv_fd : forall j c, client_at Chat j = Some c -> fd c = j;
  inv_below : forall j, is_Some (client_at Chat j) -> j <= maxclient Chat;
  inv_max : maxclient Chat = -1 \/ is_Some (client_at Chat (maxclient Chat));
  inv_count : numclients Chat = count_occupied (clients Chat)
}.

(** A message that ends at a separator: bytes that are no separator, then
    one separator. *)
Definition ends_with_sep (m : list char) : Prop :=
  exists body, m = body ++ [MSG_SEP] /\ count_sep body = 0.

(** The state of a client's inbox between two reads: allocated with
    [READBUF_SIZE], no separator left in it, and room for a byte. *)
Definition inbox_ok (c : client) : Prop :=
  circbuf_wf (read_cb c) /\
  size (read_cb c) = READBUF_SIZE /\
  count_sep (contents (read_cb c)) = 0 /\
  1 <= circbuf_space_left (read_cb c).

(** ** Sample states and inputs *)

(** A buffer of size 4 that holds the one byte [x]. *)
Definition cb_holding_x : Circbuf :=
  {| buf := ["x"%char; NUL; NUL; NUL];
     write_idx := 1; read_idx := 0; size := 4 |}.

(** A full buffer of size 4, its write index just behind its read index. *)
Definition cb_full4 : Circbuf :=
  {| buf := ["c"%char; NUL; "a"%char; "b"%char];
     write_idx := 1; read_idx := 2; size := 4 |}.

(** An empty buffer of size 4, both indices in the middle of the array. *)
Definition cb_empty4 : Circbuf :=
  {| buf := ["c"%char; NUL; "a"%char; "b"%char];
     write_idx := 2; read_idx := 2; size := 4 |}.

(** A zeroed block of [READBUF_SIZE] bytes. *)
Definition fresh_block : list char := replicate (Z.to_nat READBUF_SIZE) NUL.

(** Zeroed memory for a nickname, longer than any that [createClient]
    prints. *)
Definition fresh_nick : list char := replicate 32 NUL.

(** The chat after the descriptors [fds] connected in turn, each given
    zeroed memory for its nickname and its buffer; the listening socket
    is descriptor 3. *)
Definition connect (Chat : chatState) (fd0 : Z) : chatState :=
  match createClient fd0 fresh_nick fresh_block Chat with
  | Ok (Some (_, Chat')) => Chat'
  | _ => Chat
  end.

Definition chat_with (fds : list Z) : chatState :=
  foldl connect (initChat 3) fds.

(** The client that descriptor 4 gets when it connects. *)
Definition client_4 : client :=
  {| fd := 4; nick := str "user:4";
     read_cb := circbuf_alloc fresh_block READBUF_SIZE |}.

(** A scratch buffer left full of ["x"]. *)
Definition scratch_x : list char := replicate (Z.to_nat READBUF_SIZE) "x"%char.

(** A scratch buffer whose cell 126 was left holding a separator. *)
Definition scratch_sep_126 : list char :=
  replicate 126 "x"%char ++ [MSG_SEP; "x"%char].

(** The input of the comment at lines 278-286, with the newline as
    separator: three messages and the unfinished ["you"]. *)
Definition nice_to_meet_you : list char :=
  str "nice" ++ [LF] ++ str "to" ++ [LF] ++ str "meet" ++ [LF] ++ str "you".

(** An inbox of [client_4] after ["hi"], a separator and ["yo"] were
    pushed. *)
Definition inbox_hi_yo : Circbuf :=
  (circbuf_push_from_linear (circbuf_alloc fresh_block READBUF_SIZE)
     (str "hi" ++ [MSG_SEP] ++ str "yo") 5).1.

(** 127 bytes, none a separator. *)
Definition bytes_127 : list char := replicate 127 "a"%char.

(** ** circular_buffer.c: [circbuf_print_data] *)

Definition TAB : char := "009"%char.

(** What the [switch] of the printing loop prints for one byte: newline,
    carriage return and tab as a backslash and a letter, any other byte as
    it is, each followed by a space. *)
Definition show_byte (x : char) : list char :=
  if ceq x LF then str "\n "
  else if ceq x CR then str "\r "
  else if ceq x TAB then str "\t "
  else [x; SP].

(** The [for] loop of [circbuf_print_data], with [todo = cb_len - i]
    iterations still open and the local [read_idx] at [r]. *)
Fixpoint print_data_loop (todo : nat) (cb : Circbuf) (r : Z) : list char :=
  match todo with
  | O => []
  | S todo' =>
      show_byte (default NUL (buf cb !! Z.to_nat r))
        ++ print_data_loop todo' cb (Z.rem (r + 1) (size cb))
  end.

(** [circbuf_print_data]: the bytes it prints on the standard output. *)
Definition circbuf_print_data (cb : Circbuf) : list char :=
  let cb_len := circbuf_len cb in
  str "write_idx: " ++ decimal (write_idx cb) ++ [LF]
  ++ str "read_idx: " ++ decimal (read_idx cb) ++ [LF]
  ++ str "length: " ++ decimal cb_len ++ [LF]
  ++ str "size: " ++ decimal (size cb) ++ [LF]
  ++ str "Data: "
  ++ (if cb_len =? 0 then str "(empty)"
      else print_data_loop (Z.to_nat cb_len) cb (read_idx cb))
  ++ [LF].

(** ** smallchat-server.c: [main], a new connection and the [select] set *)

Definition welcome_msg : list char :=
  str "Welcome to Simple Chat! Use /nick <nick> to set your nick." ++ [LF].

(** Lines 216-227, for the descriptor [fd0] that [acceptClient] returned:
    the client is created and greeted.  The descriptor goes to
    [createClient] as it is, also the -1 of a failed [accept]. *)
Definition accept_client (fd0 : Z) (nickmem mem : list char)
    (Chat : chatState) : outcome (option (chatState * list write_call)) :=
  match createClient fd0 nickmem mem Chat with
  | Ok (Some (c, Chat')) => Ok (Some (Chat', [(fd c, welcome_msg)]))
  | Ok None => Ok None
  | Fault => Fault
  end.

(** Lines 187-195: the descriptors put in [readfds], in the order of the
    [FD_SET] calls. *)
Definition read_set (Chat : chatState) : list Z :=
  serversock Chat
    :: flat_map
         (fun j : nat =>
            match client_at Chat (Z.of_nat j) with
            | Some _ => [Z.of_nat j]
            | None => []
            end)
         (seq 0 (Z.to_nat (maxclient Chat + 1))).

(** Lines 205-206: [maxfd], whose successor is the first argument of
    [select]. *)
Definition maxfd (Chat : chatState) : Z :=
  if maxclient Chat <? serversock Chat then serversock Chat
  else maxclient Chat.

(** ** smallchat-server.c: [main], the loop over the clients *)

(** Lines 231-351: [for (int j = 0; j <= Chat->maxclient; j++)], entered
    at slot [j].  [ready j] is [None] when [FD_ISSET(j, &readfds)] is
    false, and otherwise what the [read] on descriptor [j] finds.  The
    bound [Chat->maxclient] is read again at every iteration, in the state
    the handler left.  [todo] bounds the iterations.  The result is the
    state and the scratch buffer the loop leaves, and the [write] calls
    made, in order. *)
Fixpoint serve_pass (todo : nat) (ready : Z -> option sock_input) (j : Z)
    (Chat : chatState) (readbuf : list char)
    : outcome (chatState * list char * list write_call) :=
  match todo with
  | O => Ok (Chat, readbuf, [])
  | S todo' =>
      if j <=? maxclient Chat then
        match client_at Chat j with
        | None => serve_pass todo' ready (j + 1) Chat readbuf
        | Some _ =>
            match ready j with
            | None => serve_pass todo' ready (j + 1) Chat readbuf
            | Some inp =>
                sv ← serve_client j inp Chat readbuf;
                '(Chat', rb, ws) ←
                  serve_pass todo' ready (j + 1) (sv_chat sv) (sv_readbuf sv);
                Ok (Chat', rb, sv_writes sv ++ ws)
            end
        end
      else Ok (Chat, readbuf, [])
  end.

(** The whole loop: [j] starts at 0, and [maxclient + 1] iterations are
    as many as the guard allows, since the handler never raises
    [maxclient] (Part XI). *)
Definition serve_clients (ready : Z -> option sock_input) (Chat : chatState)
    (readbuf : list char)
    : outcome (chatState * list char * list write_call) :=
  serve_pass (Z.to_nat (maxclient Chat + 1)) ready 0 Chat readbuf.

(** Every registered client has an inbox as [inbox_ok] says. *)
Definition inboxes_ok (Chat : chatState) : Prop :=
  forall i c, client_at Chat i = Some c -> inbox_ok c.

(** Descriptor 4 has sent four words, descriptor 6 closes, nothing else
    is readable. *)
Definition ready_4_6 (j : Z) : option sock_input :=
  if j =? 4 then Some (Bytes nice_to_meet_you)
  else if j =? 6 then Some (Bytes [])
  else None.

(* ===================================================================== *)
(** * Part II. The ring buffer *)
(* ===================================================================== *)

Implicit Types (cb : Circbuf) (d : char) (l src dest : list char).

Lemma circbuf_wf_idx cb : circbuf_wf cb -> idx_wf cb.
Proof. unfold circbuf_wf, idx_wf. tauto. Qed.

(** C's remainder on an incremented index: wrap to 0 at the end. *)
Lemma rem_succ (i N : Z) :
  0 <= i < N -> Z.rem (i + 1) N = if i + 1 =? N then 0 else i + 1.
Proof.
  intros Hi. destruct (Z.eqb_spec (i + 1) N) as [->|Hne].
  - apply Z.rem_same. lia.
  - apply Z.rem_small. lia.
Qed.

Lemma circbuf_len_range cb :
  idx_wf cb -> 0 <= circbuf_len cb <= size cb - 1.
Proof.
  unfold idx_wf, circbuf_len. intros (HN & Hw & Hr).
  destruct (Z.eqb_spec (write_idx cb) (read_idx cb)); [lia|].
  destruct (Z.gtb_spec (write_idx cb) (read_idx cb)); lia.
Qed.

Lemma circbuf_len_zero cb :
  idx_wf cb -> circbuf_len cb = 0 <-> write_idx cb = read_idx cb.
Proof.
  unfold idx_wf, circbuf_len. intros (HN & Hw & Hr).
  destruct (Z.eqb_spec (write_idx cb) (read_idx cb)); [tauto|].
  destruct (Z.gtb_spec (write_idx cb) (read_idx cb)); lia.
Qed.

(** The full test of [circbuf_push] is the test "length = size - 1". *)
Lemma full_iff_len cb :
  idx_wf cb ->
  Z.rem (write_idx cb + 1) (size cb) = read_idx cb <->
  circbuf_len cb = size cb - 1.
Proof.
  unfold idx_wf, circbuf_len. intros (HN & Hw & Hr).
  rewrite rem_succ by lia.
  destruct (Z.eqb_spec (write_idx cb + 1) (size cb));
    destruct (Z.eqb_spec (write_idx cb) (read_idx cb));
    destruct (Z.gtb_spec (write_idx cb) (read_idx cb)); lia.
Qed.

Lemma contents_length cb :
  circbuf_wf cb -> Z.of_nat (length (contents cb)) = circbuf_len cb.
Proof.
  unfold circbuf_wf, contents, circbuf_len. intros (HN & Hw & Hr & Hl).
  destruct (Z.leb_spec (read_idx cb) (write_idx cb)).
  - rewrite length_take, length_drop.
    destruct (Z.eqb_spec (write_idx cb) (read_idx cb));
      destruct (Z.gtb_spec (write_idx cb) (read_idx cb)); lia.
  - rewrite length_app, length_take, length_drop.
    destruct (Z.eqb_spec (write_idx cb) (read_idx cb));
      destruct (Z.gtb_spec (write_idx cb) (read_idx cb)); lia.
Qed.

Lemma contents_nil_iff cb :
  circbuf_wf cb -> contents cb = [] <-> read_idx cb = write_idx cb.
Proof.
  intros Hwf. pose proof (contents_length cb Hwf) as Hlen.
  pose proof (circbuf_len_zero cb (circbuf_wf_idx _ Hwf)) as Hz.
  split.
  - intros E. rewrite E in Hlen. simpl in Hlen. symmetry. apply Hz. lia.
  - intros E. apply length_zero_iff_nil.
    assert (circbuf_len cb = 0) by (apply Hz; congruence). lia.
Qed.

(** *** [circbuf_push] *)

Lemma circbuf_push_full cb d :
  Z.rem (write_idx cb + 1) (size cb) = read_idx cb ->
  circbuf_push cb d = (cb, 0).
Proof. intros E. unfold circbuf_push. rewrite E, Z.eqb_refl. done. Qed.

Lemma circbuf_push_size cb d : size (circbuf_push cb d).1 = size cb.
Proof. unfold circbuf_push. by destruct (_ =? _). Qed.

Lemma circbuf_push_idx_wf cb d : idx_wf cb -> idx_wf (circbuf_push cb d).1.
Proof.
  unfold circbuf_push, idx_wf. intros (HN & Hw & Hr).
  destruct (_ =? _); simpl; [done|].
  rewrite rem_succ by lia. destruct (Z.eqb_spec (write_idx cb + 1) (size cb)); lia.
Qed.

Lemma circbuf_push_buf_length cb d :
  length (buf (circbuf_push cb d).1) = length (buf cb).
Proof.
  unfold circbuf_push. destruct (_ =? _); simpl; [done|].
  by rewrite length_insert.
Qed.

Lemma circbuf_push_wf cb d : circbuf_wf cb -> circbuf_wf (circbuf_push cb d).1.
Proof.
  intros Hwf. pose proof (circbuf_push_idx_wf cb d (circbuf_wf_idx _ Hwf)) as (?&?&?).
  unfold circbuf_wf. rewrite circbuf_push_buf_length.
  rewrite circbuf_push_size in *. destruct Hwf as (?&?&?&?). done.
Qed.

(** A push on a buffer that is not full appends the byte. *)
Lemma circbuf_push_ok cb d :
  circbuf_wf cb -> circbuf_len cb < size cb - 1 ->
  (circbuf_push cb d).2 = 1 /\
  contents (circbuf_push cb d).1 = contents cb ++ [d].
Proof.
  intros Hwf Hlen. pose proof (full_iff_len cb (circbuf_wf_idx _ Hwf)) as Hfull.
  destruct Hwf as (HN & Hw & Hr & Hl).
  unfold circbuf_push.
  destruct (Z.eqb_spec (Z.rem (write_idx cb + 1) (size cb)) (read_idx cb)) as [E|E].
  { apply Hfull in E. lia. }
  simpl. split; [done|].
  unfold circbuf_len in Hlen. unfold contents; simpl.
  rewrite rem_succ in * by lia.
  set (w := Z.to_nat (write_idx cb)). set (r := Z.to_nat (read_idx cb)).
  assert (Hwl : (w < length (buf cb))%nat) by lia.
  destruct (Z.eqb_spec (write_idx cb + 1) (size cb)) as [Ew|Ew].
  - (* the write index wraps to 0 *)
    destruct (Z.leb_spec (read_idx cb) 0); [lia|].
    destruct (Z.leb_spec (read_idx cb) (write_idx cb)); [|lia].
    change (Z.to_nat 0) with 0%nat. rewrite take_0, app_nil_r.
    rewrite drop_insert_ge by lia.
    assert (Hdl : length (drop r (buf cb)) = S (w - r)) by (rewrite length_drop; lia).
    rewrite <- (take_ge (<[(w - r)%nat:=d]> (drop r (buf cb))) (S (w - r)))
      by (rewrite length_insert; lia).
    destruct (lookup_lt_is_Some_2 (drop r (buf cb)) (w - r)%nat) as [x Hx]; [lia|].
    rewrite (take_S_r _ _ d) by (apply list_lookup_insert_eq; lia).
    by rewrite take_insert_ge by lia.
  - replace (Z.to_nat (write_idx cb + 1)) with (S w) by lia.
    destruct (Z.leb_spec (read_idx cb) (write_idx cb)).
    + destruct (Z.leb_spec (read_idx cb) (write_idx cb + 1)); [|lia].
      rewrite drop_insert_ge by lia.
      replace (S w - r)%nat with (S (w - r)) by lia.
      rewrite (take_S_r _ _ d) by (apply list_lookup_insert_eq; rewrite length_drop; lia).
      by rewrite take_insert_ge by lia.
    + destruct (Z.eqb_spec (write_idx cb) (read_idx cb)); [lia|].
      destruct (Z.gtb_spec (write_idx cb) (read_idx cb)); [lia|].
      destruct (Z.leb_spec (read_idx cb) (write_idx cb + 1)); [lia|].
      rewrite drop_insert_lt by lia.
      rewrite (take_S_r _ _ d) by (apply list_lookup_insert_eq; lia).
      rewrite take_insert_ge by lia. by rewrite app_assoc.
Qed.

(** *** [circbuf_pop] *)

Lemma circbuf_pop_empty cb d :
  read_idx cb = write_idx cb -> circbuf_pop cb d = (cb, d, 0).
Proof. intros E. unfold circbuf_pop. rewrite E, Z.eqb_refl. done. Qed.

Lemma circbuf_pop_size cb d : size (circbuf_pop cb d).1.1 = size cb.
Proof. unfold circbuf_pop. by destruct (_ =? _). Qed.

Lemma circbuf_pop_idx_wf cb d : idx_wf cb -> idx_wf (circbuf_pop cb d).1.1.
Proof.
  unfold circbuf_pop, idx_wf. intros (HN & Hw & Hr).
  destruct (_ =? _); simpl; [done|].
  rewrite rem_succ by lia. destruct (Z.eqb_spec (read_idx cb + 1) (size cb)); lia.
Qed.

Lemma circbuf_pop_buf cb d : buf (circbuf_pop cb d).1.1 = buf cb.
Proof. unfold circbuf_pop. by destruct (_ =? _). Qed.

Lemma circbuf_pop_wf cb d : circbuf_wf cb -> circbuf_wf (circbuf_pop cb d).1.1.
Proof.
  intros Hwf. pose proof (circbuf_pop_idx_wf cb d (circbuf_wf_idx _ Hwf)) as (?&?&?).
  unfold circbuf_wf. rewrite circbuf_pop_buf.
  rewrite circbuf_pop_size in *. destruct Hwf as (?&?&?&?). done.
Qed.

(** A pop on a buffer that is not empty takes the oldest byte. *)
Lemma circbuf_pop_ok cb d :
  circbuf_wf cb -> read_idx cb <> write_idx cb ->
  (circbuf_pop cb d).2 = 1 /\
  contents cb = (circbuf_pop cb d).1.2 :: contents (circbuf_pop cb d).1.1.
Proof.
  intros (HN & Hw & Hr & Hl) Hne. unfold circbuf_pop.
  destruct (Z.eqb_spec (read_idx cb) (write_idx cb)); [done|].
  simpl. split; [done|].
  unfold contents; simpl. rewrite rem_succ by lia.
  set (w := Z.to_nat (write_idx cb)). set (r := Z.to_nat (read_idx cb)).
  destruct (lookup_lt_is_Some_2 (buf cb) r) as [x Hx]; [lia|].
  rewrite Hx. simpl. rewrite (drop_S _ x r Hx).
  destruct (Z.eqb_spec (read_idx cb + 1) (size cb)) as [Er|Er].
  - (* the read index wraps to 0 *)
    destruct (Z.leb_spec (read_idx cb) (write_idx cb)); [lia|].
    destruct (Z.leb_spec 0 (write_idx cb)); [|lia].
    change (Z.to_nat 0) with 0%nat. rewrite drop_0, Nat.sub_0_r.
    rewrite (drop_ge _ (S r)) by lia. done.
  - replace (Z.to_nat (read_idx cb + 1)) with (S r) by lia.
    destruct (Z.leb_spec (read_idx cb) (write_idx cb)).
    + destruct (Z.leb_spec (read_idx cb + 1) (write_idx cb)); [|lia].
      replace (w - r)%nat with (S (w - S r)) by lia. done.
    + destruct (Z.leb_spec (read_idx cb + 1) (write_idx cb)); [lia|]. done.
Qed.

(** [circbuf_pop] in terms of the bytes held. *)
Lemma circbuf_pop_nil cb d :
  circbuf_wf cb -> contents cb = [] -> circbuf_pop cb d = (cb, d, 0).
Proof.
  intros Hwf E. apply circbuf_pop_empty. by apply contents_nil_iff.
Qed.

Lemma circbuf_pop_cons cb d x l :
  circbuf_wf cb -> contents cb = x :: l ->
  exists cb', circbuf_pop cb d = (cb', x, 1) /\ circbuf_wf cb' /\
              contents cb' = l /\ size cb' = size cb.
Proof.
  intros Hwf E.
  assert (Hne : read_idx cb <> write_idx cb).
  { intros Heq. apply contents_nil_iff in Heq; [|done]. congruence. }
  destruct (circbuf_pop_ok cb d Hwf Hne) as [Hok Hc].
  pose proof (circbuf_pop_wf cb d Hwf) as Hwf'.
  pose proof (circbuf_pop_size cb d) as Hsz.
  destruct (circbuf_pop cb d) as [[cb' y] ok]. simpl in *.
  rewrite E in Hc. injection Hc as -> ->. subst ok. eauto.
Qed.

(** [circbuf_push] in terms of the bytes held. *)
Lemma circbuf_push_snoc cb d :
  circbuf_wf cb -> circbuf_len cb < size cb - 1 ->
  exists cb', circbuf_push cb d = (cb', 1) /\ circbuf_wf cb' /\
              contents cb' = contents cb ++ [d] /\ size cb' = size cb.
Proof.
  intros Hwf Hlen. destruct (circbuf_push_ok cb d Hwf Hlen) as [Hok Hc].
  pose proof (circbuf_push_wf cb d Hwf) as Hwf'.
  pose proof (circbuf_push_size cb d) as Hsz.
  destruct (circbuf_push cb d) as [cb' ok]. simpl in *. subst ok. eauto.
Qed.

Lemma circbuf_len_contents cb :
  circbuf_wf cb -> circbuf_len cb = Z.of_nat (length (contents cb)).
Proof. intros. by rewrite contents_length. Qed.

(** *** The bulk operations *)

Lemma push_from_linear_loop_all todo : forall cb src i,
  circbuf_wf cb -> 0 <= i ->
  (Z.to_nat i + todo <= length src)%nat ->
  i + Z.of_nat todo <= size cb - 1 ->
  Z.of_nat todo <= circbuf_space_left cb ->
  exists cb', push_from_linear_loop todo cb src i = (cb', i + Z.of_nat todo) /\
              circbuf_wf cb' /\ size cb' = size cb /\
              contents cb' = contents cb ++ take todo (drop (Z.to_nat i) src).
Proof.
  induction todo as [|todo IH]; intros cb src i Hwf Hi Hsrc Hsz Hsp.
  - exists cb. simpl. rewrite Z.add_0_r, app_nil_r. done.
  - simpl. destruct (Z.ltb_spec i (size cb - 1)); [|lia].
    destruct (lookup_lt_is_Some_2 src (Z.to_nat i)) as [x Hx]; [lia|].
    rewrite Hx. simpl. unfold circbuf_space_left in Hsp.
    destruct (circbuf_push_snoc cb x Hwf) as (cb1 & -> & Hwf1 & Hc1 & Hs1); [lia|].
    simpl.
    destruct (IH cb1 src (i + 1)) as (cb' & -> & Hwf' & Hs' & Hc'); try done; try lia.
    { unfold circbuf_space_left. rewrite Hs1.
      rewrite (circbuf_len_contents cb1), Hc1, length_app by done.
      rewrite (circbuf_len_contents cb) in Hsp by done. simpl. lia. }
    exists cb'. split; [f_equal; lia|]. split; [done|]. split; [congruence|].
    rewrite Hc', Hc1, <- app_assoc. f_equal.
    rewrite (drop_S _ x _ Hx). simpl. do 3 f_equal. lia.
Qed.

(** Pushing [n] bytes into a buffer with room for them appends them all. *)
Lemma circbuf_push_from_linear_all cb src n :
  circbuf_wf cb -> n = Z.of_nat (length src) -> n <= circbuf_space_left cb ->
  exists cb', circbuf_push_from_linear cb src n = (cb', n) /\
              circbuf_wf cb' /\ size cb' = size cb /\
              contents cb' = contents cb ++ src.
Proof.
  intros Hwf -> Hsp. unfold circbuf_push_from_linear. rewrite Nat2Z.id.
  pose proof (circbuf_len_range cb (circbuf_wf_idx _ Hwf)) as Hr.
  destruct (push_from_linear_loop_all (length src) cb src 0) as (cb' & E & ? & ? & Hc);
    try done; try lia.
  { unfold circbuf_space_left in Hsp. lia. }
  exists cb'. rewrite E, Hc. simpl. rewrite drop_0, take_ge by lia. done.
Qed.

Lemma pop_to_linear_loop_all todo : forall dest cb i,
  circbuf_wf cb -> 0 <= i ->
  (Z.to_nat i + todo <= length dest)%nat ->
  (todo <= length (contents cb))%nat ->
  exists cb', pop_to_linear_loop todo dest cb i =
                (take (Z.to_nat i) dest ++ take todo (contents cb) ++
                   drop (Z.to_nat i + todo) dest,
                 cb', i + Z.of_nat todo) /\
              circbuf_wf cb' /\ size cb' = size cb /\
              contents cb' = drop todo (contents cb).
Proof.
  induction todo as [|todo IH]; intros dest cb i Hwf Hi Hdest Hlen.
  - exists cb. simpl. rewrite Z.add_0_r, Nat.add_0_r, take_drop. done.
  - simpl. destruct (contents cb) as [|x l] eqn:Ec; [simpl in Hlen; lia|].
    destruct (circbuf_pop_cons cb (default NUL (dest !! Z.to_nat i)) x l Hwf Ec)
      as (cb1 & -> & Hwf1 & Hc1 & Hs1).
    simpl. simpl in Hlen.
    destruct (IH (<[Z.to_nat i:=x]> dest) cb1 (i + 1)) as (cb' & -> & Hwf' & Hs' & Hc');
      try done; try lia.
    { rewrite length_insert. lia. }
    { rewrite Hc1. lia. }
    exists cb'. split; [|split; [done|split; [congruence|by rewrite Hc', Hc1] ] ].
    f_equal; [|lia]. f_equal. rewrite Hc1.
    replace (Z.to_nat (i + 1)) with (S (Z.to_nat i)) by lia.
    rewrite (take_S_r _ _ x) by (apply list_lookup_insert_eq; lia).
    rewrite take_insert_ge by lia. rewrite drop_insert_lt by lia.
    rewrite <- app_assoc. simpl.
    by replace (Z.to_nat i + S todo)%nat with (S (Z.to_nat i) + todo)%nat by lia.
Qed.

(** Popping [n] bytes out of a buffer that holds as many stores the [n]
    oldest ones at the head of [dest]. *)
Lemma circbuf_pop_to_linear_all dest cb n :
  circbuf_wf cb -> 0 <= n -> n <= Z.of_nat (length dest) ->
  n <= Z.of_nat (length (contents cb)) ->
  exists cb', circbuf_pop_to_linear dest cb n =
                (take (Z.to_nat n) (contents cb) ++ drop (Z.to_nat n) dest,
                 cb', n) /\
              circbuf_wf cb' /\ size cb' = size cb /\
              contents cb' = drop (Z.to_nat n) (contents cb).
Proof.
  intros Hwf Hn Hdest Hlen. unfold circbuf_pop_to_linear.
  destruct (pop_to_linear_loop_all (Z.to_nat n) dest cb 0) as (cb' & E & ? & ? & Hc);
    try done; try lia.
  exists cb'. rewrite E. simpl. rewrite Z2Nat.id by lia. done.
Qed.

Lemma push_from_linear_loop_idx_wf todo : forall cb src i,
  idx_wf cb ->
  idx_wf (push_from_linear_loop todo cb src i).1 /\
  size (push_from_linear_loop todo cb src i).1 = size cb.
Proof.
  induction todo as [|todo IH]; intros cb src i Hwf; simpl; [done|].
  destruct (i <? size cb - 1); [|done].
  pose proof (circbuf_push_idx_wf cb (default NUL (src !! Z.to_nat i)) Hwf) as H1.
  pose proof (circbuf_push_size cb (default NUL (src !! Z.to_nat i))) as H2.
  destruct (circbuf_push cb _) as [cb1 ok]. simpl in *.
  destruct (ok =? 0); simpl; [done|].
  destruct (IH cb1 src (i + 1) H1) as [? ?]. split; [done|congruence].
Qed.

Lemma pop_to_linear_loop_idx_wf todo : forall dest cb i,
  idx_wf cb ->
  idx_wf (pop_to_linear_loop todo dest cb i).1.2 /\
  size (pop_to_linear_loop todo dest cb i).1.2 = size cb.
Proof.
  induction todo as [|todo IH]; intros dest cb i Hwf; simpl; [done|].
  pose proof (circbuf_pop_idx_wf cb (default NUL (dest !! Z.to_nat i)) Hwf) as H1.
  pose proof (circbuf_pop_size cb (default NUL (dest !! Z.to_nat i))) as H2.
  destruct (circbuf_pop cb _) as [[cb1 x] ok]. simpl in *.
  destruct (ok =? 0); simpl; [done|].
  destruct (IH (<[Z.to_nat i:=x]> dest) cb1 (i + 1) H1) as [? ?].
  split; [done|congruence].
Qed.

Lemma circbuf_reach_idx_wf N mem cb :
  0 < N -> circbuf_reach N mem cb -> size cb = N /\ idx_wf cb.
Proof.
  intros HN. induction 1 as [|cb d _ [Hs Hwf]|cb d _ [Hs Hwf]
    |cb src n _ [Hs Hwf]|cb dest n _ [Hs Hwf]|cb _ [Hs Hwf] ].
  - unfold idx_wf. simpl. lia.
  - rewrite circbuf_push_size. split; [done|by apply circbuf_push_idx_wf].
  - rewrite circbuf_pop_size. split; [done|by apply circbuf_pop_idx_wf].
  - destruct (push_from_linear_loop_idx_wf (Z.to_nat n) cb src 0 Hwf) as [? ?].
    unfold circbuf_push_from_linear. split; [congruence|done].
  - destruct (pop_to_linear_loop_idx_wf (Z.to_nat n) dest cb 0 Hwf) as [? ?].
    unfold circbuf_pop_to_linear. split; [congruence|done].
  - split; [done|]. unfold idx_wf in *. simpl. tauto.
Qed.

(** ** Properties of the specification: the ring buffer *)

(** C7. A push on a full buffer, one where
    [(write_idx + 1) % size == read_idx], returns 0 and leaves the buffer
    as it is: same array, same indices.  A pop on an empty buffer, one
    where [read_idx == write_idx], returns 0 and leaves the buffer, and
    the byte at its destination, as they are. *)
Theorem push_full_pop_empty_fail (cb : Circbuf) (data : char) :
  (Z.rem (write_idx cb + 1) (size cb) = read_idx cb ->
   circbuf_push cb data = (cb, 0)) /\
  (read_idx cb = write_idx cb ->
   circbuf_pop cb data = (cb, data, 0)).
Proof.
  split; [apply circbuf_push_full | apply circbuf_pop_empty].
Qed.

Lemma push_full_pop_empty_fail_witness :
  (Z.rem (write_idx cb_full4 + 1) (size cb_full4) = read_idx cb_full4 /\
   circbuf_push cb_full4 "z"%char = (cb_full4, 0)) /\
  (read_idx cb_empty4 = write_idx cb_empty4 /\
   circbuf_pop cb_empty4 "z"%char = (cb_empty4, "z"%char, 0)).
Proof.
  split; (split; [reflexivity|]).
  - apply (proj1 (push_full_pop_empty_fail cb_full4 "z"%char)). reflexivity.
  - apply (proj2 (push_full_pop_empty_fail cb_empty4 "z"%char)). reflexivity.
Defined.

(** C8, as stated, fails on a buffer that already holds bytes: with ["x"]
    buffered and room for two more, pushing ["a"; "b"] and popping two
    bytes yields ["x"; "a"]. *)
Lemma roundtrip_fails_on_nonempty :
  circbuf_wf cb_holding_x /\
  2 <= circbuf_space_left cb_holding_x /\
  (circbuf_push_from_linear cb_holding_x ["a"; "b"]%char 2).2 = 2 /\
  (circbuf_pop_to_linear [NUL; NUL]
     (circbuf_push_from_linear cb_holding_x ["a"; "b"]%char 2).1 2).2 = 2 /\
  (circbuf_pop_to_linear [NUL; NUL]
     (circbuf_push_from_linear cb_holding_x ["a"; "b"]%char 2).1 2).1.1
    = ["x"; "a"]%char /\
  (circbuf_pop_to_linear [NUL; NUL]
     (circbuf_push_from_linear cb_holding_x ["a"; "b"]%char 2).1 2).1.1
    <> ["a"; "b"]%char.
Proof.
  repeat split; try (vm_compute; congruence); vm_compute; lia.
Qed.

(** C8, amended.  In a buffer with room for [n] more bytes, pushing the [n]
    bytes of [src] stores them all, and popping [n] bytes right after takes
    [n] bytes out: the first [n] of the bytes held before followed by
    [src].  On a buffer that held nothing they are [src] itself, in
    order. *)
Theorem push_pop_linear_fifo (cb : Circbuf) (src dest : list char) (n : Z) :
  circbuf_wf cb ->
  n = Z.of_nat (length src) ->
  n <= circbuf_space_left cb ->
  n <= Z.of_nat (length dest) ->
  let pushed := circbuf_push_from_linear cb src n in
  let popped := circbuf_pop_to_linear dest pushed.1 n in
  pushed.2 = n /\ popped.2 = n /\
  take (Z.to_nat n) popped.1.1 = take (Z.to_nat n) (contents cb ++ src) /\
  drop (Z.to_nat n) popped.1.1 = drop (Z.to_nat n) dest /\
  (contents cb = [] -> take (Z.to_nat n) popped.1.1 = src).
Proof.
  intros Hwf Hn Hsp Hdest pushed popped. subst pushed popped.
  destruct (circbuf_push_from_linear_all cb src n Hwf Hn Hsp)
    as (cb1 & -> & Hwf1 & Hs1 & Hc1). simpl.
  destruct (circbuf_pop_to_linear_all dest cb1 n Hwf1) as (cb2 & -> & _ & _ & _);
    [lia|done|rewrite Hc1, length_app; lia|].
  simpl. rewrite Hc1.
  assert (Hl : length (take (Z.to_nat n) (contents cb ++ src)) = Z.to_nat n).
  { rewrite length_take, length_app. lia. }
  repeat split; try done.
  - rewrite take_app_length'; done.
  - rewrite drop_app_length'; done.
  - intros E. rewrite take_app_length' by done. rewrite E. simpl.
    apply take_ge. lia.
Qed.

Lemma push_pop_linear_fifo_witness :
  take 2 (circbuf_pop_to_linear [NUL; NUL; NUL]
            (circbuf_push_from_linear cb_empty4 ["a"; "b"]%char 2).1 2).1.1
    = ["a"; "b"]%char.
Proof.
  refine (proj2 (proj2 (proj2 (proj2
    (push_pop_linear_fifo cb_empty4 ["a"; "b"]%char [NUL; NUL; NUL] 2 _ _ _ _)))) _).
  - unfold circbuf_wf. simpl. lia.
  - reflexivity.
  - vm_compute. congruence.
  - simpl. lia.
  - reflexivity.
Defined.

(** C9. In every state a buffer allocated with a size [N >= 1] can be
    brought to by pushes, pops, bulk pushes, bulk pops and [circbuf_empty]:
    the length is in [0, N-1], both indices are in [0, N), the length is 0
    exactly when the indices are equal, and the space left is
    [N - 1 - length]. *)
Theorem circbuf_reach_invariant (N : Z) (mem : list char) (cb : Circbuf) :
  0 < N ->
  circbuf_reach N mem cb ->
  0 <= circbuf_len cb <= N - 1 /\
  0 <= write_idx cb < N /\
  0 <= read_idx cb < N /\
  (circbuf_len cb = 0 <-> write_idx cb = read_idx cb) /\
  circbuf_space_left cb = N - 1 - circbuf_len cb.
Proof.
  intros HN Hr. destruct (circbuf_reach_idx_wf N mem cb HN Hr) as [Hs Hwf].
  pose proof (circbuf_len_range cb Hwf) as Hlen.
  pose proof (circbuf_len_zero cb Hwf) as Hz.
  unfold circbuf_space_left. destruct Hwf as (_ & Hw & Hrd).
  rewrite Hs in *. tauto.
Qed.

Lemma circbuf_reach_invariant_witness :
  circbuf_len (circbuf_push (circbuf_alloc [NUL; NUL; NUL] 3) "a"%char).1 = 1 /\
  circbuf_space_left (circbuf_push (circbuf_alloc [NUL; NUL; NUL] 3) "a"%char).1
    = 3 - 1 - circbuf_len (circbuf_push (circbuf_alloc [NUL; NUL; NUL] 3) "a"%char).1.
Proof.
  split; [reflexivity|].
  apply (circbuf_reach_invariant 3 [NUL; NUL; NUL]); [lia|].
  apply reach_push, reach_alloc.
Defined.

(* ===================================================================== *)
(** * Part III. The client registry *)
(* ===================================================================== *)

Implicit Types (Chat : chatState) (c : client) (cl : list (option client)).

(** ** Slots *)

Lemma client_at_Some Chat j c :
  client_at Chat j = Some c <->
  0 <= j /\ clients Chat !! Z.to_nat j = Some (Some c).
Proof.
  unfold client_at. destruct (Z.ltb_spec j 0).
  - split; [done|lia].
  - destruct (clients Chat !! Z.to_nat j) as [ [c'|]|]; simpl.
    + split; [intros [= ->]; done|]. intros [_ [= ->] ]. done.
    + split; [done|]. intros [_ ?]. done.
    + split; [done|]. intros [_ ?]. done.
Qed.

Lemma client_at_range Chat j :
  is_Some (client_at Chat j) -> 0 <= j < Z.of_nat (length (clients Chat)).
Proof.
  intros [c Hc]. apply client_at_Some in Hc as [Hj Hl].
  apply lookup_lt_Some in Hl. lia.
Qed.

(** Reading the slots after slot [k] is written. *)
Lemma client_at_insert Chat Chat' k x :
  clients Chat' = <[Z.to_nat k := x]> (clients Chat) ->
  0 <= k < Z.of_nat (length (clients Chat)) ->
  forall j, client_at Chat' j = if j =? k then x else client_at Chat j.
Proof.
  intros E Hk j. unfold client_at. rewrite E.
  destruct (Z.eqb_spec j k) as [->|Hne].
  - destruct (Z.ltb_spec k 0); [lia|].
    rewrite list_lookup_insert_eq by lia. done.
  - destruct (Z.ltb_spec j 0); [done|].
    rewrite list_lookup_insert_ne by lia. done.
Qed.

(** ** Counting occupied slots *)

Lemma count_occupied_nonneg cl : 0 <= count_occupied cl.
Proof. induction cl as [| [?|] cl IH]; simpl; lia. Qed.

Lemma count_occupied_insert cl : forall i x y,
  cl !! i = Some x ->
  count_occupied (<[i := y]> cl) =
  count_occupied cl - count_occupied [x] + count_occupied [y].
Proof.
  induction cl as [|o cl IH]; intros i x y Hi; [done|].
  destruct i as [|i]; simpl in *.
  - injection Hi as ->. destruct x, y; lia.
  - rewrite (IH i x y Hi). destruct o, x, y; simpl; lia.
Qed.

Lemma count_occupied_pos cl i c :
  cl !! i = Some (Some c) -> 0 < count_occupied cl.
Proof.
  revert i. induction cl as [|o cl IH]; intros i Hi; [done|].
  pose proof (count_occupied_nonneg cl).
  destruct i as [|i]; simpl in *.
  - injection Hi as ->. lia.
  - specialize (IH i Hi). destruct o; lia.
Qed.

Lemma count_occupied_zero cl :
  (forall i c, cl !! i <> Some (Some c)) -> count_occupied cl = 0.
Proof.
  induction cl as [|o cl IH]; intros H; [done|].
  destruct o as [c|].
  - destruct (H 0%nat c). done.
  - simpl. apply IH. intros i c. apply (H (S i) c).
Qed.

Lemma count_occupied_replicate n : count_occupied (replicate n None) = 0.
Proof. induction n; simpl; done. Qed.

(** ** The downward scan of [freeClient] *)

Lemma free_scan_spec todo : forall cl j,
  j = Z.of_nat todo - 1 ->
  -1 <= free_scan todo cl j <= j /\
  (0 <= free_scan todo cl j ->
   is_Some (mjoin (cl !! Z.to_nat (free_scan todo cl j)))) /\
  (forall k, free_scan todo cl j < k <= j -> mjoin (cl !! Z.to_nat k) = None).
Proof.
  induction todo as [|todo IH]; intros cl j Hj; simpl.
  - split; [lia|]. split; [lia|]. intros k Hk. lia.
  - destruct (Z.geb_spec j 0); [|lia].
    destruct (mjoin (cl !! Z.to_nat j)) as [c|] eqn:E.
    + rewrite E. split; [lia|]. split; [eauto|]. intros k Hk. lia.
    + destruct (IH cl (j - 1)) as (Hr & Hocc & Hfree); [lia|].
      split; [lia|]. split; [done|]. intros k Hk.
      destruct (Z.eq_dec k j) as [->|]; [done|]. apply Hfree. lia.
Qed.

(** The scan ends on the greatest occupied slot below its start, or on -1
    when there is none: the slot [m] here. *)
Lemma free_scan_finds cl (j m : Z) :
  -1 <= m <= j ->
  (m = -1 \/ is_Some (mjoin (cl !! Z.to_nat m))) ->
  (forall k, m < k <= j -> mjoin (cl !! Z.to_nat k) = None) ->
  free_scan (Z.to_nat (j + 1)) cl j = m.
Proof.
  intros Hm Hocc Hfree.
  destruct (free_scan_spec (Z.to_nat (j + 1)) cl j) as (Hr & Hrocc & Hrfree); [lia|].
  set (r := free_scan _ cl j) in *.
  destruct (Z.lt_trichotomy r m) as [Hlt|[Heq|Hgt] ]; [|done|].
  - destruct Hocc as [->|[c Hc] ]; [lia|].
    rewrite (Hrfree m) in Hc by lia. done.
  - destruct Hrocc as [c Hc]; [lia|].
    rewrite (Hfree r) in Hc by lia. done.
Qed.

(** ** The invariant *)

Lemma initChat_clients sock :
  clients (initChat sock) = replicate (Z.to_nat MAX_CLIENTS) None.
Proof. reflexivity. Qed.

Lemma initChat_inv sock : chat_inv (initChat sock).
Proof.
  assert (Hnone : forall j, client_at (initChat sock) j = None).
  { intros j. unfold client_at. rewrite initChat_clients.
    destruct (j <? 0); [done|].
    destruct (replicate (Z.to_nat MAX_CLIENTS) (@None client) !! Z.to_nat j)
      as [o|] eqn:E; [|done].
    apply lookup_replicate_1 in E as [-> _]. done. }
  split.
  - rewrite initChat_clients, length_replicate. done.
  - intros j c. by rewrite Hnone.
  - intros j [c Hc]. by rewrite Hnone in Hc.
  - by left.
  - rewrite initChat_clients, count_occupied_replicate. done.
Qed.

Lemma createClient_Some fd0 nickmem mem Chat c Chat' :
  createClient fd0 nickmem mem Chat = Ok (Some (c, Chat')) ->
  0 <= fd0 < MAX_CLIENTS /\ client_at Chat fd0 = None /\ fd c = fd0 /\
  clients Chat' = <[Z.to_nat fd0 := Some c]> (clients Chat) /\
  numclients Chat' = numclients Chat + 1 /\
  maxclient Chat' = Z.max fd0 (maxclient Chat) /\
  serversock Chat' = serversock Chat.
Proof.
  unfold createClient. simpl.
  destruct (Z.leb_spec 0 fd0); [|done].
  destruct (Z.ltb_spec fd0 MAX_CLIENTS); [|done]. simpl.
  destruct (client_at Chat fd0); [done|].
  intros [= <- <-]. simpl.
  destruct (Z.gtb_spec fd0 (maxclient Chat)); repeat split; try done; lia.
Qed.

Lemma createClient_inv fd0 nickmem mem Chat c Chat' :
  chat_inv Chat -> createClient fd0 nickmem mem Chat = Ok (Some (c, Chat')) ->
  chat_inv Chat'.
Proof.
  intros [Hlen Hfd Hbelow Hmax Hcount] Hc.
  apply createClient_Some in Hc as (Hr & Hfree & Hfdc & Hcl & Hn & Hm & _).
  pose proof (client_at_insert Chat Chat' fd0 (Some c) Hcl ltac:(lia)) as Hat.
  split.
  - rewrite Hcl, length_insert. done.
  - intros j c'. rewrite Hat. destruct (Z.eqb_spec j fd0) as [->|].
    + intros [= <-]. done.
    + apply Hfd.
  - intros j. rewrite Hat, Hm. destruct (Z.eqb_spec j fd0) as [->|]; [lia|].
    intros H. apply Hbelow in H. lia.
  - right. rewrite Hat, Hm.
    destruct (Z.eqb_spec (Z.max fd0 (maxclient Chat)) fd0) as [|Hne]; [eauto|].
    destruct Hmax as [Hmax|Hmax]; [lia|].
    replace (Z.max fd0 (maxclient Chat)) with (maxclient Chat) by lia. done.
  - rewrite Hn, Hcl, Hcount.
    assert (clients Chat !! Z.to_nat fd0 = Some None) as Hl.
    { unfold client_at in Hfree. destruct (Z.ltb_spec fd0 0); [lia|].
      destruct (lookup_lt_is_Some_2 (clients Chat) (Z.to_nat fd0)) as [o Ho]; [lia|].
      rewrite Ho in Hfree |- *. simpl in Hfree. by subst o. }
    rewrite (count_occupied_insert _ _ _ _ Hl). simpl. lia.
Qed.

(** [freeClient] on a registered client, field by field. *)
Lemma freeClient_fields Chat j c :
  chat_inv Chat -> client_at Chat j = Some c ->
  clients (freeClient c Chat) = <[Z.to_nat j := None]> (clients Chat) /\
  numclients (freeClient c Chat) = numclients Chat - 1 /\
  serversock (freeClient c Chat) = serversock Chat /\
  (j <> maxclient Chat -> maxclient (freeClient c Chat) = maxclient Chat) /\
  (j = maxclient Chat ->
   maxclient (freeClient c Chat) =
   free_scan (Z.to_nat j) (<[Z.to_nat j := None]> (clients Chat)) (j - 1)).
Proof.
  intros Hinv Hc. pose proof (inv_fd _ Hinv j c Hc) as Hfd.
  assert (0 <= j) by (apply client_at_Some in Hc; lia).
  unfold freeClient. rewrite Hfd.
  destruct (Z.eqb_spec (maxclient Chat) j) as [E|E]; simpl.
  - repeat split; try done; try lia. intros _. rewrite E.
    destruct (free_scan_spec (Z.to_nat j) (<[Z.to_nat j:=None]> (clients Chat)) (j - 1))
      as (Hr & _); [lia|].
    destruct (Z.geb_spec (free_scan (Z.to_nat j)
      (<[Z.to_nat j:=None]> (clients Chat)) (j - 1)) 0); [done|].
    destruct (Z.eqb_spec (free_scan (Z.to_nat j)
      (<[Z.to_nat j:=None]> (clients Chat)) (j - 1)) (-1)); lia.
  - repeat split; done.
Qed.

Lemma freeClient_inv Chat j c :
  chat_inv Chat -> client_at Chat j = Some c -> chat_inv (freeClient c Chat).
Proof.
  intros Hinv Hc.
  destruct (freeClient_fields Chat j c Hinv Hc) as (Hcl & Hn & _ & Hother & Hscan).
  destruct Hinv as [Hlen Hfd Hbelow Hmax Hcount].
  pose proof (client_at_range Chat j ltac:(eauto)) as Hj.
  pose proof (client_at_insert Chat (freeClient c Chat) j None Hcl Hj) as Hat.
  assert (Hslot : forall k, 0 <= k ->
    mjoin (<[Z.to_nat j:=None]> (clients Chat) !! Z.to_nat k)
    = client_at (freeClient c Chat) k).
  { intros k Hk. unfold client_at. rewrite Hcl.
    destruct (Z.ltb_spec k 0); [lia|done]. }
  destruct (free_scan_spec (Z.to_nat j) (<[Z.to_nat j:=None]> (clients Chat)) (j - 1))
    as (Hr & Hrocc & Hrfree); [lia|].
  split.
  - rewrite Hcl, length_insert. done.
  - intros k c'. rewrite Hat. destruct (Z.eqb_spec k j); [done|apply Hfd].
  - intros k. rewrite Hat. destruct (Z.eqb_spec k j) as [->|Hne].
    { intros [? ?]. done. }
    intros Hk. pose proof (Hbelow k Hk) as Hle.
    destruct (Z.eq_dec j (maxclient Chat)) as [Ej|Ej].
    + rewrite (Hscan Ej).
      destruct (Z.le_gt_cases k (free_scan (Z.to_nat j)
        (<[Z.to_nat j:=None]> (clients Chat)) (j - 1))) as [|Hgt]; [done|].
      assert (0 <= k) by (apply client_at_range in Hk; lia).
      pose proof (Hslot k H) as Hs. rewrite (Hrfree k), Hat in Hs by lia.
      destruct (Z.eqb_spec k j); [lia|].
      rewrite <- Hs in Hk. destruct Hk. done.
    + rewrite (Hother Ej). done.
  - destruct (Z.eq_dec j (maxclient Chat)) as [Ej|Ej].
    + rewrite (Hscan Ej).
      destruct (Z.eq_dec (free_scan (Z.to_nat j)
        (<[Z.to_nat j:=None]> (clients Chat)) (j - 1)) (-1)) as [|Hne]; [by left|].
      right. rewrite <- Hslot by lia. apply Hrocc. lia.
    + rewrite (Hother Ej). destruct Hmax as [|Hmax]; [by left|right].
      rewrite Hat. destruct (Z.eqb_spec (maxclient Chat) j); [lia|done].
  - rewrite Hn, Hcl, Hcount.
    apply client_at_Some in Hc as [_ Hc].
    rewrite (count_occupied_insert _ _ _ _ Hc). simpl. lia.
Qed.

Lemma store_client_inv Chat j c nick' cb' :
  chat_inv Chat -> client_at Chat j = Some c ->
  chat_inv (store_client j {| fd := fd c; nick := nick'; read_cb := cb' |} Chat).
Proof.
  intros [Hlen Hfd Hbelow Hmax Hcount] Hc.
  pose proof (client_at_range Chat j ltac:(eauto)) as Hj.
  set (c' := {| fd := fd c; nick := nick'; read_cb := cb' |}).
  pose proof (client_at_insert Chat (store_client j c' Chat) j (Some c') eq_refl Hj) as Hat.
  split; simpl.
  - rewrite length_insert. done.
  - intros k c''. rewrite Hat. destruct (Z.eqb_spec k j) as [->|]; [|apply Hfd].
    intros [= <-]. simpl. by apply Hfd.
  - intros k. rewrite Hat. destruct (Z.eqb_spec k j) as [->|]; [|apply Hbelow].
    intros _. apply Hbelow. eauto.
  - destruct Hmax as [|Hmax]; [by left|right]. rewrite Hat.
    destruct (Z.eqb_spec (maxclient Chat) j); [eauto|done].
  - rewrite Hcount. apply client_at_Some in Hc as [_ Hc].
    rewrite (count_occupied_insert _ _ _ _ Hc). simpl. lia.
Qed.

Lemma chat_reach_inv Chat : chat_reach Chat -> chat_inv Chat.
Proof.
  induction 1 as [sock|Chat fd0 nickmem mem c Chat' _ IH Hc|Chat j c _ IH Hc
                 |Chat j c nick' cb' _ IH Hc].
  - apply initChat_inv.
  - by eapply createClient_inv.
  - by eapply freeClient_inv.
  - by apply store_client_inv.
Qed.

Lemma chat_with_reach_from fds : forall Chat,
  chat_reach Chat -> chat_reach (foldl connect Chat fds).
Proof.
  induction fds as [|fd0 fds IH]; intros Chat Hr; simpl; [done|].
  apply IH. unfold connect.
  destruct (createClient fd0 fresh_nick fresh_block Chat)
    as [ [ [c Chat']|]|] eqn:E; try done.
  by eapply chat_create.
Qed.

Lemma chat_with_reach fds : chat_reach (chat_with fds).
Proof. apply chat_with_reach_from, chat_init. Qed.

(** ** Properties of the specification: the registry *)

(** C5. In every state reached from [initChat] by creating and freeing
    clients (and changing them in place in between): [maxclient] is -1 exactly when [numclients] is 0; every
    occupied slot is at most [maxclient]; [maxclient] is the greatest
    occupied slot, or -1 when no slot is occupied; and no two registered
    clients share a descriptor (the client in slot [j] has descriptor
    [j]).  [numclients] is the number of occupied slots. *)
Theorem registry_invariant (Chat : chatState) :
  chat_reach Chat ->
  (maxclient Chat = -1 <-> numclients Chat = 0) /\
  (forall j, is_Some (client_at Chat j) -> 0 <= j <= maxclient Chat) /\
  ((maxclient Chat = -1 /\ forall j, client_at Chat j = None) \/
   (is_Some (client_at Chat (maxclient Chat)) /\
    forall j, is_Some (client_at Chat j) -> j <= maxclient Chat)) /\
  (forall i j ci cj,
     client_at Chat i = Some ci -> client_at Chat j = Some cj ->
     i <> j -> fd ci <> fd cj) /\
  (forall j c, client_at Chat j = Some c -> fd c = j) /\
  numclients Chat = count_occupied (clients Chat).
Proof.
  intros Hr. destruct (chat_reach_inv Chat Hr) as [Hlen Hfd Hbelow Hmax Hcount].
  assert (Hempty : maxclient Chat = -1 -> forall j, client_at Chat j = None).
  { intros E j. destruct (client_at Chat j) as [c|] eqn:Hc; [|done].
    pose proof (Hbelow j ltac:(eauto)).
    pose proof (client_at_range Chat j ltac:(eauto)). lia. }
  repeat split.
  - intros E. rewrite Hcount. apply count_occupied_zero. intros i c Hi.
    assert (client_at Chat (Z.of_nat i) = Some c) as Hc.
    { apply client_at_Some. rewrite Nat2Z.id. split; [lia|done]. }
    rewrite (Hempty E) in Hc. done.
  - intros E. destruct Hmax as [|[c Hc] ]; [done|].
    apply client_at_Some in Hc as [_ Hc].
    apply count_occupied_pos in Hc. lia.
  - apply client_at_range in H. lia.
  - by apply Hbelow.
  - destruct Hmax as [E|Hocc]; [left|right]; auto.
  - intros i j ci cj Hi Hj Hne. rewrite (Hfd i ci Hi), (Hfd j cj Hj). done.
  - done.
  - done.
Qed.

Lemma registry_invariant_witness :
  numclients (chat_with [4; 6]) = 2 /\
  forall j, is_Some (client_at (chat_with [4; 6]) j) -> 0 <= j <= 6.
Proof.
  split; [reflexivity|].
  exact (proj1 (proj2 (registry_invariant (chat_with [4; 6])
                         (chat_with_reach [4; 6])))).
Defined.

(** C6. In every state of the registry, for every descriptor within the
    array whose slot is free: [createClient] registers it, whatever the
    memory it is given holds, and [freeClient] on the client just created
    gives back the state before the registration, the same in every
    field; so [numclients] and [maxclient] are as before, and so is every
    slot. *)
Theorem register_unregister (Chat : chatState) (id : Z)
    (nickmem mem : list char) :
  chat_reach Chat ->
  0 <= id < MAX_CLIENTS ->
  client_at Chat id = None ->
  exists c Chat1,
    createClient id nickmem mem Chat = Ok (Some (c, Chat1)) /\
    client_at Chat1 id = Some c /\
    freeClient c Chat1 = Chat /\
    numclients (freeClient c Chat1) = numclients Chat /\
    maxclient (freeClient c Chat1) = maxclient Chat /\
    (forall j, client_at (freeClient c Chat1) j = client_at Chat j).
Proof.
  intros Hr Hid Hfree. pose proof (chat_reach_inv Chat Hr) as Hinv.
  destruct (createClient id nickmem mem Chat) as [ [ [c Chat1]|]|] eqn:Hc.
  2, 3: (unfold createClient in Hc; cbn [fd] in Hc;
         destruct (Z.leb_spec 0 id); [|lia];
         destruct (Z.ltb_spec id MAX_CLIENTS); [|lia];
         cbn [andb] in Hc; rewrite Hfree in Hc; done).
  pose proof (createClient_inv _ _ _ _ _ _ Hinv Hc) as Hinv1.
  apply createClient_Some in Hc as (_ & _ & Hfdc & Hcl & Hn & Hm & Hs).
  destruct Hinv as [Hlen Hfd Hbelow Hmax Hcount].
  pose proof (client_at_insert Chat Chat1 id (Some c) Hcl ltac:(lia)) as Hat.
  assert (Hc1 : client_at Chat1 id = Some c) by (by rewrite Hat, Z.eqb_refl).
  destruct (freeClient_fields Chat1 id c Hinv1 Hc1) as (Fcl & Fn & Fs & Fother & Fscan).
  assert (Hl : clients Chat !! Z.to_nat id = Some None).
  { unfold client_at in Hfree. destruct (Z.ltb_spec id 0); [lia|].
    destruct (lookup_lt_is_Some_2 (clients Chat) (Z.to_nat id)) as [o Ho]; [lia|].
    rewrite Ho in Hfree |- *. simpl in Hfree. by subst o. }
  assert (Ecl : clients (freeClient c Chat1) = clients Chat).
  { rewrite Fcl, Hcl, list_insert_insert_eq. by apply list_insert_id. }
  assert (Emax : maxclient (freeClient c Chat1) = maxclient Chat).
  { assert (id <> maxclient Chat) as Hne.
    { intros ->. destruct Hmax as [|[? Hx] ]; [lia|]. rewrite Hfree in Hx. done. }
    destruct (Z.eq_dec id (maxclient Chat1)) as [E|E].
    - rewrite (Fscan E), Hcl, list_insert_insert_eq, (list_insert_id _ _ _ Hl).
      replace (Z.to_nat id) with (Z.to_nat (id - 1 + 1)) by lia.
      apply free_scan_finds.
      + destruct Hmax as [|Hx]; [lia|]. apply client_at_range in Hx. lia.
      + destruct Hmax as [|[x Hx] ]; [by left|right].
        apply client_at_Some in Hx as [_ ->]. eauto.
      + intros k Hk. destruct (mjoin (clients Chat !! Z.to_nat k)) as [x|] eqn:Ek; [|done].
        assert (is_Some (client_at Chat k)) as Hx.
        { unfold client_at. destruct (Z.ltb_spec k 0); [|rewrite Ek; eauto].
          destruct Hmax as [|Hx]; [lia|]. apply client_at_range in Hx. lia. }
        apply Hbelow in Hx. lia.
    - rewrite (Fother E). lia. }
  exists c, Chat1. repeat split; try done.
  - destruct Chat, (freeClient c Chat1). simpl in *. f_equal; lia || done.
  - lia.
  - intros j. unfold client_at. by rewrite Ecl.
Qed.

Lemma register_unregister_witness :
  exists c Chat1,
    createClient 9 fresh_nick fresh_block (chat_with [4; 6])
    = Ok (Some (c, Chat1)) /\
    freeClient c Chat1 = chat_with [4; 6].
Proof.
  destruct (register_unregister (chat_with [4; 6]) 9 fresh_nick fresh_block)
    as (c & Chat1 & H1 & _ & H2 & _).
  - apply chat_with_reach.
  - unfold MAX_CLIENTS. lia.
  - reflexivity.
  - exists c, Chat1. split; assumption.
Defined.

(* ===================================================================== *)
(** * Part IV. Broadcast *)
(* ===================================================================== *)

Lemma seqZ_of_nat (n : nat) : seqZ 0 (Z.of_nat n) = Z.of_nat <$> seq 0 n.
Proof.
  unfold seqZ. rewrite Nat2Z.id. apply list_fmap_ext. intros _ i _. lia.
Qed.

Lemma filter_none {A} (P : A -> Prop) `{!forall x, Decision (P x)} (l : list A) :
  (forall x, x ∈ l -> ~ P x) -> filter P l = [].
Proof.
  induction l as [|x l IH]; intros Hn; [done|].
  rewrite filter_cons_False by (apply Hn; left).
  apply IH. intros y Hy. apply Hn. by right.
Qed.

Lemma filter_all {A} (P : A -> Prop) `{!forall x, Decision (P x)} (l : list A) :
  (forall x, x ∈ l -> P x) -> filter P l = l.
Proof.
  induction l as [|x l IH]; intros Hn; [done|].
  rewrite filter_cons_True by (apply Hn; left).
  f_equal. apply IH. intros y Hy. apply Hn. by right.
Qed.

Lemma StronglySorted_filter {A} (R : A -> A -> Prop) (P : A -> Prop)
    `{!forall x, Decision (P x)} (l : list A) :
  StronglySorted R l -> StronglySorted R (filter P l).
Proof.
  induction 1 as [|x l _ IH Hx]; [constructor|].
  rewrite filter_cons. destruct (decide (P x)); [|done].
  constructor; [done|].
  rewrite Forall_forall in Hx |- *. intros y [_ Hy]%list_elem_of_filter. auto.
Qed.

Lemma StronglySorted_seqZ (n : nat) : StronglySorted Z.lt (seqZ 0 (Z.of_nat n)).
Proof.
  induction n as [|n IH]; [constructor|].
  rewrite seqZ_S. apply StronglySorted_app. split; [|split; [done|] ].
  - intros x y Hx%elem_of_seqZ Hy%list_elem_of_singleton. lia.
  - repeat constructor.
Qed.

(** The loop body of [sendMsgToAllClientsBut] over any run of slots, when
    the client in each slot carries the slot's number as its descriptor. *)
Lemma broadcast_over Chat (excluded : Z) (s : list char) (l : list nat) :
  (forall j c, client_at Chat j = Some c -> fd c = j) ->
  flat_map
    (fun j : nat =>
       match client_at Chat (Z.of_nat j) with
       | None => []
       | Some c => if fd c =? excluded then [] else [(fd c, s)]
       end) l
  = (fun j : Z => (j, s)) <$>
      filter (fun j => j <> excluded)
        (filter (fun j => is_Some (client_at Chat j)) (Z.of_nat <$> l)).
Proof.
  intros Hfd. induction l as [|j l IH]; [done|].
  cbn [flat_map]. rewrite IH, fmap_cons, filter_cons.
  destruct (client_at Chat (Z.of_nat j)) as [c|] eqn:Hc.
  - rewrite decide_True by eauto. rewrite filter_cons, (Hfd _ _ Hc).
    destruct (Z.eqb_spec (Z.of_nat j) excluded).
    + rewrite decide_False by tauto. done.
    + rewrite decide_True by done. done.
  - rewrite decide_False by (intros [? ?]; done). done.
Qed.

Lemma occupied_ids_upto Chat :
  chat_inv Chat ->
  filter (fun j => is_Some (client_at Chat j))
    (Z.of_nat <$> seq 0 (Z.to_nat (maxclient Chat + 1)))
  = occupied_ids Chat.
Proof.
  intros [Hlen Hfd Hbelow Hmax Hcount]. unfold occupied_ids.
  assert (-1 <= maxclient Chat < Z.of_nat (length (clients Chat))) as Hm.
  { destruct Hmax as [|Hx]; [lia|]. apply client_at_range in Hx. lia. }
  replace (Z.of_nat (length (clients Chat)))
    with ((maxclient Chat + 1)
          + (Z.of_nat (length (clients Chat)) - (maxclient Chat + 1))) by lia.
  rewrite seqZ_app, filter_app by lia.
  rewrite (filter_none _ (seqZ (0 + _) _)).
  - rewrite app_nil_r, <- seqZ_of_nat, Z2Nat.id by lia. done.
  - intros j Hj%elem_of_seqZ Hocc. apply Hbelow in Hocc. lia.
Qed.

Lemma elem_of_occupied_ids Chat j :
  j ∈ occupied_ids Chat <-> is_Some (client_at Chat j).
Proof.
  unfold occupied_ids. rewrite list_elem_of_filter, elem_of_seqZ.
  split; [tauto|]. intros H. split; [done|]. apply client_at_range in H. lia.
Qed.

Lemma occupied_ids_sorted Chat : StronglySorted Z.lt (occupied_ids Chat).
Proof. apply StronglySorted_filter, StronglySorted_seqZ. Qed.

(** C3. In every state of the registry, [sendMsgToAllClientsBut] makes one
    [write] of the text per occupied client id other than [excluded], in
    ascending order of the ids, and no other; with [excluded] outside the
    range of the ids, -1 for one, every occupied client is written to.
    [occupied_ids] lists exactly the occupied ids, each once, in ascending
    order. *)
Theorem broadcast_all_but (Chat : chatState) (excluded : Z) (s : list char) :
  chat_reach Chat ->
  sendMsgToAllClientsBut excluded s Chat
    = (fun j : Z => (j, s)) <$>
        filter (fun j => j <> excluded) (occupied_ids Chat) /\
  (~ 0 <= excluded < MAX_CLIENTS ->
   sendMsgToAllClientsBut excluded s Chat
     = (fun j : Z => (j, s)) <$> occupied_ids Chat) /\
  StronglySorted Z.lt (occupied_ids Chat) /\
  (forall j, j ∈ occupied_ids Chat <-> is_Some (client_at Chat j)).
Proof.
  intros Hr. pose proof (chat_reach_inv Chat Hr) as Hinv.
  assert (E : sendMsgToAllClientsBut excluded s Chat
    = (fun j : Z => (j, s)) <$>
        filter (fun j => j <> excluded) (occupied_ids Chat)).
  { unfold sendMsgToAllClientsBut.
    rewrite (broadcast_over Chat excluded s _ (inv_fd _ Hinv)).
    by rewrite occupied_ids_upto. }
  split; [done|]. split; [|split].
  - intros Hout. rewrite E. f_equal. apply filter_all.
    intros j Hj%elem_of_occupied_ids%client_at_range ->.
    rewrite (inv_length _ Hinv) in Hj. done.
  - apply occupied_ids_sorted.
  - apply elem_of_occupied_ids.
Qed.

Lemma broadcast_all_but_witness :
  sendMsgToAllClientsBut (-1) (str "hi") (chat_with [4; 6])
    = (fun j : Z => (j, str "hi")) <$> occupied_ids (chat_with [4; 6]).
Proof.
  apply (proj1 (proj2 (broadcast_all_but (chat_with [4; 6]) (-1) (str "hi")
                         (chat_with_reach [4; 6])))).
  unfold MAX_CLIENTS. lia.
Defined.

(** With clients 4, 6 and 9 connected, a text sent for client 6 is written
    to 4 and then to 9; sent with -1 it is written to all three. *)
Example broadcast_sample :
  sendMsgToAllClientsBut 6 (str "hi") (chat_with [9; 4; 6])
    = [(4, str "hi"); (9, str "hi")] /\
  sendMsgToAllClientsBut (-1) (str "hi") (chat_with [9; 4; 6])
    = [(4, str "hi"); (6, str "hi"); (9, str "hi")].
Proof. split; vm_compute; reflexivity. Qed.

(* ===================================================================== *)
(** * Part V. Message framing *)
(* ===================================================================== *)

Implicit Types (readbuf pre post : list char) (pops : list Z).

(** ** Separators *)

Lemma ceq_true (a b : char) : ceq a b = true <-> a = b.
Proof. apply Ascii.eqb_eq. Qed.

Lemma ceq_false (a b : char) : ceq a b = false <-> a <> b.
Proof. apply Ascii.eqb_neq. Qed.

Lemma count_sep_nil : count_sep [] = 0.
Proof. done. Qed.

Lemma count_sep_cons x l :
  count_sep (x :: l) = (if ceq x MSG_SEP then 1 else 0) + count_sep l.
Proof.
  unfold count_sep. rewrite filter_cons.
  destruct (ceq x MSG_SEP) eqn:E.
  - rewrite decide_True by done. simpl. lia.
  - rewrite decide_False by congruence. lia.
Qed.

Lemma count_sep_nonneg l : 0 <= count_sep l.
Proof. unfold count_sep. lia. Qed.

Lemma count_sep_app l1 l2 : count_sep (l1 ++ l2) = count_sep l1 + count_sep l2.
Proof. unfold count_sep. rewrite filter_app, length_app. lia. Qed.

Lemma count_sep_zero l :
  count_sep l = 0 <-> Forall (fun x => ceq x MSG_SEP = false) l.
Proof.
  induction l as [|x l IH]; [split; [constructor|done] |].
  rewrite count_sep_cons, Forall_cons. pose proof (count_sep_nonneg l).
  destruct (ceq x MSG_SEP); split.
  - lia.
  - intros [? _]. done.
  - intros. split; [done|]. apply IH. lia.
  - intros [_ ?%IH]. lia.
Qed.

Lemma count_sep_not_elem l : count_sep l = 0 <-> MSG_SEP ∉ l.
Proof.
  rewrite count_sep_zero, Forall_forall. split.
  - intros H Hin. apply H in Hin. by rewrite (proj2 (ceq_true _ _)) in Hin.
  - intros H x Hx. apply ceq_false. intros ->. done.
Qed.

(** A list with separators starts with a first message. *)
Lemma count_sep_split l :
  0 < count_sep l ->
  exists pre post, l = pre ++ MSG_SEP :: post /\ count_sep pre = 0 /\
                   count_sep post = count_sep l - 1.
Proof.
  induction l as [|x l IH]; [done|].
  rewrite count_sep_cons. destruct (ceq x MSG_SEP) eqn:E.
  - apply ceq_true in E as ->. intros _.
    exists [], l. repeat split. lia.
  - intros Hl. destruct IH as (pre & post & -> & Hpre & Hpost); [lia|].
    exists (x :: pre), post. rewrite count_sep_cons, E. repeat split; lia.
Qed.

(** ** The do-while loop *)

(** While the inbox holds bytes that are no separator, each iteration pops
    one into the scratch buffer. *)
Lemma pop_until_sep_prefix pre : forall cb readbuf idx pops room rest,
  circbuf_wf cb ->
  contents cb = pre ++ rest ->
  count_sep pre = 0 ->
  0 <= idx ->
  (Z.to_nat idx + length pre <= length readbuf)%nat ->
  exists cb',
    circbuf_wf cb' /\ size cb' = size cb /\ contents cb' = rest /\
    pop_until_sep (length pre + room) cb readbuf idx pops
    = pop_until_sep room cb'
        (take (Z.to_nat idx) readbuf ++ pre
           ++ drop (Z.to_nat idx + length pre) readbuf)
        (idx + Z.of_nat (length pre))
        (pops ++ replicate (length pre) 1).
Proof.
  induction pre as [|x pre IH]; intros cb readbuf idx pops room rest
    Hwf Hc Hsep Hidx Hlen.
  - exists cb. simpl. rewrite Nat.add_0_r, take_drop, Z.add_0_r, app_nil_r. done.
  - rewrite count_sep_cons in Hsep. pose proof (count_sep_nonneg pre).
    destruct (ceq x MSG_SEP) eqn:Ex; [lia|].
    simpl in Hlen. simpl.
    destruct (lookup_lt_is_Some_2 readbuf (Z.to_nat idx)) as [old Hold]; [lia|].
    rewrite Hold.
    destruct (circbuf_pop_cons cb old x (pre ++ rest) Hwf Hc)
      as (cb1 & -> & Hwf1 & Hc1 & Hs1).
    rewrite Ex.
    destruct (IH cb1 (<[Z.to_nat idx:=x]> readbuf) (idx + 1) (pops ++ [1]) room rest)
      as (cb' & Hwf' & Hs' & Hc' & ->); try done; try lia.
    { rewrite length_insert. lia. }
    exists cb'. split; [done|]. split; [congruence|]. split; [done|].
    f_equal.
    + replace (Z.to_nat (idx + 1)) with (S (Z.to_nat idx)) by lia.
      rewrite (take_S_r _ _ x) by (apply list_lookup_insert_eq; lia).
      rewrite take_insert_ge, drop_insert_lt by lia.
      rewrite <- app_assoc. simpl.
      by replace (Z.to_nat idx + S (length pre))%nat
        with (S (Z.to_nat idx) + length pre)%nat by lia.
    + lia.
    + by rewrite <- app_assoc.
Qed.

(** The iteration that pops a separator is the last one. *)
Lemma pop_until_sep_hit cb readbuf idx pops room post :
  circbuf_wf cb ->
  contents cb = MSG_SEP :: post ->
  0 <= idx -> (Z.to_nat idx < length readbuf)%nat ->
  exists cb',
    circbuf_wf cb' /\ size cb' = size cb /\ contents cb' = post /\
    pop_until_sep (S room) cb readbuf idx pops
    = Ok (cb', <[Z.to_nat idx := MSG_SEP]> readbuf, idx + 1, pops ++ [1]).
Proof.
  intros Hwf Hc Hidx Hlen. simpl.
  destruct (lookup_lt_is_Some_2 readbuf (Z.to_nat idx)) as [old Hold]; [lia|].
  rewrite Hold.
  destruct (circbuf_pop_cons cb old MSG_SEP post Hwf Hc)
    as (cb1 & -> & Hwf1 & Hc1 & Hs1).
  exists cb1. rewrite (proj2 (ceq_true _ _)) by done. done.
Qed.

(** With the inbox empty every pop fails and stores nothing: the loop
    walks over what the scratch buffer already holds.  It ends on the
    first separator found there ... *)
Lemma pop_until_sep_stale_hit sp : forall cb readbuf idx pops room rest,
  contents cb = [] -> circbuf_wf cb ->
  0 <= idx ->
  drop (Z.to_nat idx) readbuf = sp ++ MSG_SEP :: rest ->
  count_sep sp = 0 ->
  pop_until_sep (length sp + S room) cb readbuf idx pops
  = Ok (cb, readbuf, idx + Z.of_nat (length sp) + 1,
        pops ++ replicate (S (length sp)) 0).
Proof.
  induction sp as [|x sp IH]; intros cb readbuf idx pops room rest
    Hc Hwf Hidx Hdrop Hsep.
  - simpl in *.
    assert (readbuf !! Z.to_nat idx = Some MSG_SEP) as Hl.
    { rewrite <- (Nat.add_0_r (Z.to_nat idx)), <- lookup_drop, Hdrop. done. }
    rewrite Hl, (circbuf_pop_nil _ _ Hwf Hc), (proj2 (ceq_true _ _)) by done.
    rewrite list_insert_id by done. do 3 f_equal. lia.
  - rewrite count_sep_cons in Hsep. pose proof (count_sep_nonneg sp).
    destruct (ceq x MSG_SEP) eqn:Ex; [lia|].
    assert (readbuf !! Z.to_nat idx = Some x) as Hl.
    { rewrite <- (Nat.add_0_r (Z.to_nat idx)), <- lookup_drop, Hdrop. done. }
    cbn [length Nat.add pop_until_sep].
    rewrite Hl, (circbuf_pop_nil _ _ Hwf Hc), Ex.
    rewrite list_insert_id by done.
    rewrite (IH cb readbuf (idx + 1) (pops ++ [0]) room rest); try done; try lia.
    + f_equal. f_equal; [f_equal; lia|]. by rewrite <- app_assoc.
    + replace (Z.to_nat (idx + 1)) with (S (Z.to_nat idx)) by lia.
      rewrite (drop_S _ _ _ Hl) in Hdrop. by injection Hdrop.
Qed.

(** ... and leaves the array when there is none. *)
Lemma pop_until_sep_stale_miss room : forall cb readbuf idx pops,
  contents cb = [] -> circbuf_wf cb ->
  0 <= idx ->
  count_sep (drop (Z.to_nat idx) readbuf) = 0 ->
  pop_until_sep room cb readbuf idx pops = Fault.
Proof.
  induction room as [|room IH]; intros cb readbuf idx pops Hc Hwf Hidx Hsep;
    [done|].
  simpl. destruct (readbuf !! Z.to_nat idx) as [old|] eqn:Hl; [|done].
  rewrite (circbuf_pop_nil _ _ Hwf Hc).
  rewrite (drop_S _ _ _ Hl), count_sep_cons in Hsep.
  pose proof (count_sep_nonneg (drop (S (Z.to_nat idx)) readbuf)).
  destruct (ceq old MSG_SEP); [lia|].
  rewrite list_insert_id by done. apply IH; try done; try lia.
  by replace (Z.to_nat (idx + 1)) with (S (Z.to_nat idx)) by lia.
Qed.

(** ** One extraction round *)

Lemma cut_at_length l ch : length (cut_at l ch) = length l.
Proof. unfold cut_at. destruct (strchr l ch); [apply length_insert|done]. Qed.

(** Processing a message leaves the client's descriptor and inbox alone,
    and the scratch buffer at its size. *)
Lemma process_message_keeps j c Chat readbuf :
  fd (process_message j c Chat readbuf).1.1 = fd c /\
  read_cb (process_message j c Chat readbuf).1.1 = read_cb c /\
  length (process_message j c Chat readbuf).1.2 = length readbuf.
Proof.
  unfold process_message.
  destruct (ceq _ SLASH); [|done].
  destruct (strchr _ SP) as [p|].
  - destruct (streq _ _); simpl;
      rewrite length_insert, !cut_at_length; done.
  - simpl. rewrite !cut_at_length. done.
Qed.

Lemma extract_round_sep j c Chat readbuf pre post :
  circbuf_wf (read_cb c) ->
  size (read_cb c) = Z.of_nat (length readbuf) ->
  contents (read_cb c) = pre ++ MSG_SEP :: post ->
  count_sep pre = 0 ->
  exists c2 rb2 ws,
    extract_round j c Chat readbuf
      = Ok (c2, store_client j c2 Chat, rb2, pre ++ [MSG_SEP], ws) /\
    fd c2 = fd c /\ circbuf_wf (read_cb c2) /\
    size (read_cb c2) = size (read_cb c) /\
    contents (read_cb c2) = post /\
    length rb2 = length readbuf.
Proof.
  intros Hwf Hsz Hc Hsep.
  pose proof (contents_length _ Hwf) as Hlen.
  pose proof (circbuf_len_range _ (circbuf_wf_idx _ Hwf)) as Hrange.
  rewrite Hc, length_app in Hlen. simpl in Hlen.
  unfold extract_round.
  destruct (pop_until_sep_prefix pre (read_cb c) readbuf 0 []
              (S (length readbuf - length pre - 1)) (MSG_SEP :: post))
    as (cb1 & Hwf1 & Hs1 & Hc1 & E1); try done; try lia.
  replace (length pre + S (length readbuf - length pre - 1))%nat
    with (length readbuf) in E1 by lia.
  change (Z.to_nat 0) with 0%nat in E1.
  rewrite take_0, !app_nil_l, Nat.add_0_l, Z.add_0_l in E1.
  destruct (pop_until_sep_hit cb1 (pre ++ drop (length pre) readbuf)
              (Z.of_nat (length pre)) (replicate (length pre) 1)
              (length readbuf - length pre - 1) post)
    as (cb2 & Hwf2 & Hs2 & Hc2 & E2); try done; try lia.
  { rewrite length_app, length_drop. lia. }
  rewrite E1, E2. clear E1 E2.
  cbn [mbind outcome_bind].
  rewrite Nat2Z.id.
  destruct (lookup_lt_is_Some_2 readbuf (length pre)) as [y Hy]; [lia|].
  rewrite (drop_S _ _ _ Hy).
  replace (<[length pre:=MSG_SEP]> (pre ++ y :: drop (S (length pre)) readbuf))
    with ((pre ++ [MSG_SEP]) ++ drop (S (length pre)) readbuf).
  2:{ rewrite <- (Nat.add_0_r (length pre)) at 2. rewrite insert_app_r.
      by rewrite <- app_assoc. }
  set (scratch := (pre ++ [MSG_SEP]) ++ drop (S (length pre)) readbuf).
  assert (length scratch = length readbuf) as Hscr.
  { unfold scratch. rewrite !length_app, length_drop. simpl. lia. }
  rewrite Hscr. destruct (Z.ltb_spec (Z.of_nat (length pre) + 1)
                            (Z.of_nat (length readbuf))); [|lia].
  pose proof (process_message_keeps j
    {| fd := fd c; nick := nick c; read_cb := cb2 |}
    (store_client j {| fd := fd c; nick := nick c; read_cb := cb2 |} Chat)
    (<[Z.to_nat (Z.of_nat (length pre) + 1):=NUL]> scratch)) as (Kfd & Kcb & Klen).
  destruct (process_message _ _ _ _) as [ [c2 rb2] ws].
  simpl in Kfd, Kcb, Klen |- *.
  exists c2, rb2, ws. rewrite Kcb.
  split.
  { do 3 f_equal. rewrite take_insert_ge by lia.
    unfold scratch. apply take_app_length'. rewrite length_app. simpl. lia. }
  split; [done|]. split; [done|]. split; [congruence|]. split; [done|].
  rewrite Klen, length_insert. done.
Qed.

(** ** The rounds of one read *)

Lemma client_at_store Chat j c0 c :
  client_at Chat j = Some c0 -> client_at (store_client j c Chat) j = Some c.
Proof.
  intros H0. pose proof (client_at_range Chat j ltac:(eauto)) as Hj.
  rewrite (client_at_insert Chat (store_client j c Chat) j (Some c) eq_refl Hj).
  by rewrite Z.eqb_refl.
Qed.

Lemma store_client_twice Chat j c1 c2 :
  store_client j c2 (store_client j c1 Chat) = store_client j c2 Chat.
Proof. unfold store_client. simpl. by rewrite list_insert_insert_eq. Qed.

(** As many rounds as the inbox holds separators take out as many
    messages, each up to its separator, in the order of the bytes. *)
Lemma extract_rounds_spec j k : forall c Chat readbuf,
  client_at Chat j = Some c ->
  circbuf_wf (read_cb c) ->
  size (read_cb c) = Z.of_nat (length readbuf) ->
  count_sep (contents (read_cb c)) = Z.of_nat k ->
  exists Chat' rb' ms ws c',
    extract_rounds k j c Chat readbuf = Ok (Chat', rb', ms, ws) /\
    length ms = k /\ Forall ends_with_sep ms /\
    client_at Chat' j = Some c' /\
    concat ms ++ contents (read_cb c') = contents (read_cb c) /\
    count_sep (contents (read_cb c')) = 0 /\
    circbuf_wf (read_cb c') /\ size (read_cb c') = size (read_cb c) /\
    fd c' = fd c /\ length rb' = length readbuf.
Proof.
  induction k as [|k IH]; intros c Chat readbuf Hat Hwf Hsz Hk.
  - exists Chat, readbuf, [], [], c. simpl. repeat split; try done.
    all: apply Hwf.
  - destruct (count_sep_split (contents (read_cb c))) as (pre & post & Hc & Hpre & Hpost);
      [lia|].
    destruct (extract_round_sep j c Chat readbuf pre post Hwf Hsz Hc Hpre)
      as (c2 & rb2 & ws & E & Hfd2 & Hwf2 & Hs2 & Hc2 & Hl2).
    destruct (IH c2 (store_client j c2 Chat) rb2)
      as (Chat' & rb' & ms & ws' & c' & E' & Hlen & Hall & Hat' & Hcat & Hz & Hwf'
          & Hs' & Hfd' & Hl'); try done.
    { by eapply client_at_store. }
    { congruence. }
    { rewrite Hc2. lia. }
    exists Chat', rb', ((pre ++ [MSG_SEP]) :: ms), (ws ++ ws'), c'.
    cbn [extract_rounds]. rewrite E. cbn [mbind outcome_bind]. rewrite E'.
    cbn [mbind outcome_bind].
    split; [done|]. split; [simpl; lia|].
    split; [constructor; [by exists pre|done] |].
    split; [done|].
    split; [simpl; rewrite <- !app_assoc, Hcat, Hc2, Hc; done|].
    split; [done|]. split; [done|].
    split; [congruence|]. split; congruence.
Qed.

(** ** One read *)

(** What a read does to the inbox before any message is taken out: the
    bytes read are all appended, when there is room for them. *)
Lemma serve_client_push cb raw :
  circbuf_wf cb ->
  Z.of_nat (length raw) <= circbuf_space_left cb ->
  exists cb1,
    circbuf_push_from_linear cb raw (Z.of_nat (length raw))
      = (cb1, Z.of_nat (length raw)) /\
    circbuf_wf cb1 /\ size cb1 = size cb /\
    contents cb1 = contents cb ++ raw.
Proof. intros Hwf Hsp. by apply circbuf_push_from_linear_all. Qed.

(** C1. A read delivers [raw], with [k >= 1] separators, to a client whose
    inbox held no separator and has room for all of [raw].  Then the
    handler takes exactly [k] messages out of the inbox; each is a run of
    bytes without separator followed by one separator; and the messages
    followed by what the inbox holds afterwards are the bytes buffered
    before followed by [raw].  What remains in the inbox has no separator:
    it is the bytes after the last separator, neither dropped nor part of a
    message. *)
Theorem framing_extracts_k (Chat : chatState) (j : Z) (c : client)
    (pending readbuf : list char) (k : Z) :
  client_at Chat j = Some c ->
  circbuf_wf (read_cb c) ->
  size (read_cb c) = READBUF_SIZE ->
  Z.of_nat (length readbuf) = READBUF_SIZE ->
  count_sep (contents (read_cb c)) = 0 ->
  let raw := read_bytes (Bytes pending) (circbuf_space_left (read_cb c) - 1) in
  Z.of_nat (length raw) <= circbuf_space_left (read_cb c) ->
  count_sep raw = k ->
  1 <= k ->
  exists sv c',
    serve_client j (Bytes pending) Chat readbuf = Ok sv /\
    Z.of_nat (length (sv_messages sv)) = k /\
    Forall ends_with_sep (sv_messages sv) /\
    client_at (sv_chat sv) j = Some c' /\
    concat (sv_messages sv) ++ contents (read_cb c')
      = contents (read_cb c) ++ raw /\
    count_sep (contents (read_cb c')) = 0.
Proof.
  intros Hat Hwf Hsz Hrb Hold raw Hroom Hk Hk1.
  destruct (serve_client_push (read_cb c) raw Hwf Hroom)
    as (cb1 & Epush & Hwf1 & Hs1 & Hc1).
  pose proof (circbuf_len_range _ (circbuf_wf_idx _ Hwf)) as Hlen.
  assert (Hraw : raw <> []).
  { intros E. rewrite E in Hk. rewrite count_sep_nil in Hk. lia. }
  assert (0 < Z.of_nat (length raw)) as Hpos.
  { destruct raw; [done|simpl; lia]. }
  set (c1 := {| fd := fd c; nick := nick c; read_cb := cb1 |}).
  destruct (extract_rounds_spec j (Z.to_nat k) c1 (store_client j c1 Chat) readbuf)
    as (Chat' & rb' & ms & ws & c' & E & Hms & Hall & Hat' & Hcat & Hz & _);
    try done.
  { by eapply client_at_store. }
  { simpl. lia. }
  { simpl. rewrite Hc1, count_sep_app, Hold. lia. }
  exists (mkServed Chat' rb' ms ws), c'.
  split; [|simpl; rewrite <- Hc1; repeat split; try done; lia].
  unfold serve_client. rewrite Hat.
  change (read_result (Bytes pending) (circbuf_space_left (read_cb c) - 1))
    with (Z.of_nat (length raw)).
  fold raw. rewrite Epush. cbn [fst]. fold c1.
  unfold circbuf_space_left in Hroom.
  destruct (Z.leb_spec 0 (Z.of_nat (length raw))); [|lia].
  destruct (Z.ltb_spec (Z.of_nat (length raw)) READBUF_SIZE); [|lia].
  destruct (Z.leb_spec (Z.of_nat (length raw)) 0); [lia|].
  cbn [andb]. rewrite Hk.
  destruct (Z.gtb_spec k 0); [|lia]. cbn [orb].
  destruct (Z.eqb_spec k 0); [lia|].
  rewrite E. done.
Qed.

Lemma framing_extracts_k_witness :
  exists sv c',
    serve_client 4 (Bytes nice_to_meet_you) (chat_with [4; 6]) scratch_x
      = Ok sv /\
    Z.of_nat (length (sv_messages sv)) = 3 /\
    Forall ends_with_sep (sv_messages sv) /\
    client_at (sv_chat sv) 4 = Some c' /\
    concat (sv_messages sv) ++ contents (read_cb c')
      = contents (read_cb client_4)
        ++ read_bytes (Bytes nice_to_meet_you)
             (circbuf_space_left (read_cb client_4) - 1) /\
    count_sep (contents (read_cb c')) = 0.
Proof.
  apply (framing_extracts_k (chat_with [4; 6]) 4 client_4
           nice_to_meet_you scratch_x 3).
  - reflexivity.
  - unfold circbuf_wf. vm_compute. repeat split; discriminate.
  - reflexivity.
  - reflexivity.
  - reflexivity.
  - vm_compute. discriminate.
  - reflexivity.
  - lia.
Defined.

(** The example of the source comment: ["nice"], ["to"] and ["meet"] are
    sent on, each with its separator, to the other client; ["you"] stays
    in the inbox. *)
Example nice_to_meet_you_served :
  match serve_client 4 (Bytes nice_to_meet_you) (chat_with [4; 6]) scratch_x with
  | Ok sv =>
      sv_messages sv
        = [str "nice" ++ [LF]; str "to" ++ [LF]; str "meet" ++ [LF]] /\
      sv_writes sv
        = [(6, str "user:4> nice" ++ [LF]); (6, str "user:4> to" ++ [LF]);
           (6, str "user:4> meet" ++ [LF])] /\
      (contents ∘ read_cb) <$> client_at (sv_chat sv) 4 = Some (str "you")
  | Fault => False
  end.
Proof. vm_compute. repeat split. Qed.

(** C10. The do-while loop drops what [circbuf_pop] returns, and a pop on
    an empty inbox leaves the destination byte as it was.  In a round run
    on an inbox that holds a separator every pop succeeds ([pops] is all
    ones), the loop is left by the iteration that stores the first
    separator, and the index at which the terminator is then written is
    inside the 128-byte scratch buffer.  On an inbox without separator the
    loop pops every byte and goes on with pops that fail: it then ends on
    the first separator left over in the scratch buffer beyond the popped
    bytes, and runs off the array when there is none. *)
Theorem pop_loop_needs_separator (cb : Circbuf) (readbuf : list char) :
  circbuf_wf cb ->
  size cb = READBUF_SIZE ->
  Z.of_nat (length readbuf) = READBUF_SIZE ->
  (forall d, contents cb = [] -> circbuf_pop cb d = (cb, d, 0)) /\
  (forall pre post,
     contents cb = pre ++ MSG_SEP :: post -> count_sep pre = 0 ->
     exists cb',
       pop_until_sep (length readbuf) cb readbuf 0 []
         = Ok (cb', pre ++ MSG_SEP :: drop (S (length pre)) readbuf,
               Z.of_nat (length pre) + 1, replicate (S (length pre)) 1) /\
       contents cb' = post /\
       Z.of_nat (length pre) + 1 < READBUF_SIZE) /\
  (count_sep (contents cb) = 0 ->
   let n := length (contents cb) in
   exists cb0,
     contents cb0 = [] /\
     (forall sp rest,
        drop n readbuf = sp ++ MSG_SEP :: rest -> count_sep sp = 0 ->
        pop_until_sep (length readbuf) cb readbuf 0 []
          = Ok (cb0, contents cb ++ drop n readbuf,
                Z.of_nat n + Z.of_nat (length sp) + 1,
                replicate n 1 ++ replicate (S (length sp)) 0)) /\
     (count_sep (drop n readbuf) = 0 ->
      pop_until_sep (length readbuf) cb readbuf 0 [] = Fault)).
Proof.
  intros Hwf Hsz Hrb.
  pose proof (contents_length _ Hwf) as Hlen.
  pose proof (circbuf_len_range _ (circbuf_wf_idx _ Hwf)) as Hrange.
  split; [intros d; by apply circbuf_pop_nil|]. split.
  - intros pre post Hc Hpre. rewrite Hc, length_app in Hlen. simpl in Hlen.
    destruct (pop_until_sep_prefix pre cb readbuf 0 []
                (S (length readbuf - length pre - 1)) (MSG_SEP :: post))
      as (cb1 & Hwf1 & Hs1 & Hc1 & E1); try done; try lia.
    replace (length pre + S (length readbuf - length pre - 1))%nat
      with (length readbuf) in E1 by lia.
    change (Z.to_nat 0) with 0%nat in E1.
    rewrite take_0, !app_nil_l, Nat.add_0_l, Z.add_0_l in E1.
    destruct (pop_until_sep_hit cb1 (pre ++ drop (length pre) readbuf)
                (Z.of_nat (length pre)) (replicate (length pre) 1)
                (length readbuf - length pre - 1) post)
      as (cb2 & Hwf2 & Hs2 & Hc2 & E2); try done; try lia.
    { rewrite length_app, length_drop. lia. }
    exists cb2. rewrite E1, E2. split; [|split; [done|lia] ].
    do 2 f_equal; [f_equal|].
    + rewrite Nat2Z.id.
      destruct (lookup_lt_is_Some_2 readbuf (length pre)) as [y Hy]; [lia|].
      rewrite (drop_S _ _ _ Hy).
      rewrite <- (Nat.add_0_r (length pre)) at 1. by rewrite insert_app_r.
    + by rewrite replicate_S_end.
  - intros Hsep n.
    destruct (pop_until_sep_prefix (contents cb) cb readbuf 0 []
                (length readbuf - n) [])
      as (cb0 & Hwf0 & Hs0 & Hc0 & E); try done; try lia.
    { by rewrite app_nil_r. }
    fold n in E. replace (n + (length readbuf - n))%nat
      with (length readbuf) in E by lia.
    change (Z.to_nat 0) with 0%nat in E.
    rewrite take_0, !app_nil_l, Nat.add_0_l, Z.add_0_l in E.
    assert (Hd : drop (Z.to_nat (Z.of_nat n)) (contents cb ++ drop n readbuf)
                 = drop n readbuf).
    { rewrite Nat2Z.id. by apply drop_app_length'. }
    exists cb0. split; [done|]. split.
    + intros sp rest Hdrop Hsp. rewrite E.
      assert (length readbuf - n = length sp + S (length rest))%nat as ->.
      { rewrite <- length_drop, Hdrop, length_app. simpl. lia. }
      rewrite (pop_until_sep_stale_hit sp cb0 _ _ _ (length rest) rest);
        try done; try lia.
      by rewrite Hd.
    + intros Hmiss. rewrite E.
      apply pop_until_sep_stale_miss; try done; try lia. by rewrite Hd.
Qed.

Lemma pop_loop_needs_separator_witness :
  exists cb',
    pop_until_sep (length scratch_x) inbox_hi_yo scratch_x 0 []
      = Ok (cb', str "hi" ++ MSG_SEP :: drop 3 scratch_x, 3, [1; 1; 1]) /\
    contents cb' = str "yo" /\
    3 < READBUF_SIZE.
Proof.
  destruct (pop_loop_needs_separator inbox_hi_yo scratch_x) as (_ & H & _).
  - unfold circbuf_wf. vm_compute. repeat split; discriminate.
  - reflexivity.
  - reflexivity.
  - apply (H (str "hi") (str "yo")); reflexivity.
Defined.

(** ** The forced flush *)

(** The read that brings the inbox to the threshold, and the loop of the
    round that follows, as far as the buffered bytes go.  A read delivers
    [raw], without separator, to a client whose inbox held no separator,
    and leaves the inbox at most one byte of room.  Then the inbox holds
    126 bytes, the bytes buffered before followed by [raw] (a read takes
    at most one byte less than the room there is, so of 127 bytes sent to
    an empty inbox 126 are read); one extraction round is run; and the
    first 126 iterations of its loop pop all the buffered bytes, in order,
    into the scratch buffer and leave the inbox empty, with two cells of
    the scratch buffer to go. *)
Lemma forced_flush_prefix (Chat : chatState) (j : Z) (c : client)
    (pending readbuf : list char) :
  client_at Chat j = Some c ->
  circbuf_wf (read_cb c) ->
  size (read_cb c) = READBUF_SIZE ->
  Z.of_nat (length readbuf) = READBUF_SIZE ->
  count_sep (contents (read_cb c)) = 0 ->
  let raw := read_bytes (Bytes pending) (circbuf_space_left (read_cb c) - 1) in
  raw <> [] ->
  count_sep raw = 0 ->
  Z.of_nat (length raw) <= circbuf_space_left (read_cb c) ->
  circbuf_space_left (read_cb c) - Z.of_nat (length raw) <= 1 ->
  exists cb1 cb0,
    let c1 := {| fd := fd c; nick := nick c; read_cb := cb1 |} in
    contents cb1 = contents (read_cb c) ++ raw /\
    length (contents cb1) = 126%nat /\
    circbuf_space_left cb1 = 1 /\
    serve_client j (Bytes pending) Chat readbuf
      = ('(Chat', rb, ms, ws) ←
           extract_rounds 1 j c1 (store_client j c1 Chat) readbuf;
         Ok (mkServed Chat' rb ms ws)) /\
    circbuf_wf cb0 /\
    contents cb0 = [] /\
    pop_until_sep (length readbuf) cb1 readbuf 0 []
      = pop_until_sep 2 cb0 (contents cb1 ++ drop 126 readbuf) 126
          (replicate 126 1).
Proof.
  intros Hat Hwf Hsz Hrb Hold raw Hraw Hsep Hroom Hthr.
  destruct (serve_client_push (read_cb c) raw Hwf Hroom)
    as (cb1 & Epush & Hwf1 & Hs1 & Hc1).
  pose proof (circbuf_len_range _ (circbuf_wf_idx _ Hwf)) as Hlen.
  assert (0 < Z.of_nat (length raw)) as Hpos.
  { destruct raw; [done|simpl; lia]. }
  assert (Z.of_nat (length raw) <= circbuf_space_left (read_cb c) - 1) as Hcount.
  { subst raw. unfold read_bytes in *.
    destruct (Z.ltb_spec (circbuf_space_left (read_cb c) - 1) 0); [lia|].
    rewrite length_take. lia. }
  assert (circbuf_space_left cb1 = 1) as Hsp1.
  { unfold circbuf_space_left in *.
    rewrite (circbuf_len_contents cb1), Hc1, length_app by done.
    rewrite (circbuf_len_contents (read_cb c)) in * by done. lia. }
  assert (length (contents cb1) = 126%nat) as Hn.
  { unfold circbuf_space_left in Hsp1.
    rewrite (circbuf_len_contents cb1) in Hsp1 by done.
    unfold READBUF_SIZE in *. lia. }
  destruct (pop_until_sep_prefix (contents cb1) cb1 readbuf 0 [] 2 [])
    as (cb0 & Hwf0 & Hs0 & Hc0 & E); try done; try lia.
  { by rewrite app_nil_r. }
  { rewrite Hc1, count_sep_app, Hold, Hsep. done. }
  { unfold READBUF_SIZE in *. lia. }
  rewrite Hn in E.
  replace (126 + 2)%nat with (length readbuf) in E
    by (unfold READBUF_SIZE in *; lia).
  change (Z.to_nat 0) with 0%nat in E.
  rewrite take_0, !app_nil_l, Nat.add_0_l in E.
  exists cb1, cb0. cbn zeta.
  split; [done|]. split; [done|]. split; [done|].
  split; [|split; [done|split; [done|exact E] ] ].
  unfold serve_client. rewrite Hat.
  change (read_result (Bytes pending) (circbuf_space_left (read_cb c) - 1))
    with (Z.of_nat (length raw)).
  fold raw. rewrite Epush. cbn [fst].
  unfold circbuf_space_left in Hroom.
  destruct (Z.leb_spec 0 (Z.of_nat (length raw))); [|lia].
  destruct (Z.ltb_spec (Z.of_nat (length raw)) READBUF_SIZE); [|lia].
  destruct (Z.leb_spec (Z.of_nat (length raw)) 0); [lia|].
  cbn [andb read_cb]. rewrite Hsep, Hsp1. done.
Qed.
(** What the forced flush comes to.  The loop of lines 294-296 does not
    look at what [circbuf_pop] returns: once the 126 buffered bytes are
    out, it goes on testing the cells of the scratch buffer that no pop
    wrote.  Unless cell 126 was left holding a separator, the index goes
    past the end of [readbuf], whatever the client sent and whatever
    else the scratch buffer holds; when it does hold one, the message is
    the buffered bytes and that old separator. *)
Theorem forced_flush_outcome (Chat : chatState) (j : Z) (c : client)
    (pending readbuf : list char) :
  client_at Chat j = Some c ->
  circbuf_wf (read_cb c) ->
  size (read_cb c) = READBUF_SIZE ->
  Z.of_nat (length readbuf) = READBUF_SIZE ->
  count_sep (contents (read_cb c)) = 0 ->
  let raw := read_bytes (Bytes pending) (circbuf_space_left (read_cb c) - 1) in
  raw <> [] ->
  count_sep raw = 0 ->
  Z.of_nat (length raw) <= circbuf_space_left (read_cb c) ->
  circbuf_space_left (read_cb c) - Z.of_nat (length raw) <= 1 ->
  (readbuf !! 126%nat <> Some MSG_SEP ->
   serve_client j (Bytes pending) Chat readbuf = Fault) /\
  (readbuf !! 126%nat = Some MSG_SEP ->
   exists sv,
     serve_client j (Bytes pending) Chat readbuf = Ok sv /\
     sv_messages sv = [contents (read_cb c) ++ raw ++ [MSG_SEP]]).
Proof.
  intros Hat Hwf Hsz Hrb Hold raw Hraw Hsep Hroom Hthr.
  destruct (forced_flush_prefix Chat j c pending readbuf
              Hat Hwf Hsz Hrb Hold Hraw Hsep Hroom Hthr)
    as (cb1 & cb0 & Hc1 & Hn & Hsp1 & Es & Hwf0 & Hc0 & Ep).
  cbv zeta in Es. rewrite Es. clear Es.
  simpl extract_rounds. unfold extract_round. cbn [read_cb].
  rewrite Ep. clear Ep. fold raw in Hc1.
  assert (length readbuf = 128%nat) as Hlen
    by (unfold READBUF_SIZE in Hrb; lia).
  destruct (lookup_lt_is_Some_2 readbuf 126) as [a Ha]; [lia|].
  destruct (lookup_lt_is_Some_2 readbuf 127) as [b Hb]; [lia|].
  assert (drop 126 readbuf = [a; b]) as Hd.
  { rewrite (drop_S _ _ _ Ha), (drop_S _ _ _ Hb), drop_ge by lia. done. }
  rewrite Hd.
  set (scratch := contents cb1 ++ [a; b]).
  assert (scratch !! 126%nat = Some a) as Hs126.
  { unfold scratch. rewrite lookup_app_r by lia. by rewrite Hn. }
  assert (scratch !! 127%nat = Some b) as Hs127.
  { unfold scratch. rewrite lookup_app_r by lia. by rewrite Hn. }
  assert (length scratch = 128%nat) as Hlens.
  { unfold scratch. rewrite length_app, Hn. done. }
  cbn [pop_until_sep]. change (Z.to_nat 126) with 126%nat.
  rewrite Hs126, (circbuf_pop_nil _ _ Hwf0 Hc0), (list_insert_id _ _ _ Hs126).
  split.
  - intros Hne. rewrite (proj2 (ceq_false a MSG_SEP)) by congruence.
    change (Z.to_nat (126 + 1)) with 127%nat.
    rewrite Hs127, (circbuf_pop_nil _ _ Hwf0 Hc0),
      (list_insert_id _ _ _ Hs127).
    destruct (ceq b MSG_SEP); cbn [mbind outcome_bind]; [|done].
    by rewrite Hlens.
  - intros Hs. assert (a = MSG_SEP) as -> by congruence.
    rewrite (proj2 (ceq_true MSG_SEP MSG_SEP)) by done.
    cbn [mbind outcome_bind]. rewrite Hlens.
    change (126 + 1 <? Z.of_nat 128) with true. cbv iota.
    change (Z.to_nat (126 + 1)) with 127%nat.
    destruct (process_message _ _ _ _) as [ [c3 rb3] ws3].
    cbn [mbind outcome_bind]. eexists. split; [done|]. cbn [sv_messages].
    f_equal. rewrite take_insert_ge by lia. unfold scratch.
    rewrite (cons_middle MSG_SEP), app_assoc, take_app_length'.
    + by rewrite Hc1, <- app_assoc.
    + rewrite length_app, Hn. done.
Qed.

Lemma forced_flush_outcome_witness :
  serve_client 4 (Bytes bytes_127) (chat_with [4; 6]) fresh_block = Fault.
Proof.
  refine (proj1 (forced_flush_outcome (chat_with [4; 6]) 4 client_4 bytes_127
                   fresh_block _ _ _ _ _ _ _ _ _) _).
  - reflexivity.
  - unfold circbuf_wf. vm_compute. repeat split; discriminate.
  - reflexivity.
  - reflexivity.
  - reflexivity.
  - vm_compute. discriminate.
  - reflexivity.
  - vm_compute. discriminate.
  - vm_compute. discriminate.
  - vm_compute. discriminate.
Defined.

(** C2.  The forced flush is to send the whole buffer once (comment at
    lines 288-289); it does not.  Client 4, its inbox empty, sends 127
    bytes that are no separator.  The read takes 126 of them, which
    leaves the inbox one byte of room, so the one forced round is run.
    Its loop pops the 126 bytes and then, its inbox empty and the scratch
    buffer holding no separator, goes on to the end of the array and past
    it: no message is taken out and nothing is written to any client. *)
Lemma forced_flush_127_fails :
  client_at (chat_with [4; 6]) 4 = Some client_4 /\
  contents (read_cb client_4) = [] /\
  count_sep bytes_127 = 0 /\
  length (read_bytes (Bytes bytes_127)
            (circbuf_space_left (read_cb client_4) - 1)) = 126%nat /\
  circbuf_space_left
    (circbuf_push_from_linear (read_cb client_4) bytes_127 126).1 = 1 /\
  serve_client 4 (Bytes bytes_127) (chat_with [4; 6]) scratch_x = Fault.
Proof. repeat split; vm_compute; reflexivity. Qed.

(** On the same inbox the sibling [circbuf_pop_to_linear], which stops
    when a pop fails, takes the 126 bytes out and no more. *)
Example forced_flush_sibling :
  let cb1 := (circbuf_push_from_linear (read_cb client_4) bytes_127 126).1 in
  let '(dest, cb0, n) := circbuf_pop_to_linear scratch_x cb1 READBUF_SIZE in
  n = 126 /\ take 126 dest = take 126 bytes_127 /\ contents cb0 = [].
Proof. vm_compute. repeat split. Qed.

(** With a separator left over in cell 126 of the scratch buffer the same
    read does yield a message: the 126 bytes read and that old
    separator. *)
Example forced_flush_stale_separator :
  match serve_client 4 (Bytes bytes_127) (chat_with [4; 6]) scratch_sep_126 with
  | Ok sv => sv_messages sv = [replicate 126 "a"%char ++ [MSG_SEP]]
  | Fault => False
  end.
Proof. vm_compute. reflexivity. Qed.

(* ===================================================================== *)
(** * Part VI. Commands *)
(* ===================================================================== *)

(** The second end-to-end scenario of the specification: one read brings
    ["/nick Zed"] and ["hi"]; the nickname becomes ["Zed"] and the line is
    sent on under it, to the other client only. *)
Example nick_then_line :
  match serve_client 4 (Bytes (str "/nick Zed" ++ [LF] ++ str "hi" ++ [LF]))
          (chat_with [4; 6]) scratch_x with
  | Ok sv =>
      nick <$> client_at (sv_chat sv) 4 = Some (str "Zed") /\
      sv_writes sv = [(6, str "Zed> hi" ++ [LF])]
  | Fault => False
  end.
Proof. vm_compute. split; reflexivity. Qed.

(** [strchr] finds the first [ch] of a string ... *)
Lemma strchr_from_found pre : forall i ch rest,
  Forall (fun x => x <> ch /\ x <> NUL) pre ->
  strchr_from (pre ++ ch :: rest) i ch = Some (i + length pre)%nat.
Proof.
  induction pre as [|x pre IH]; intros i ch rest Hpre;
    cbn [strchr_from app length].
  - rewrite (proj2 (ceq_true ch ch)) by done. f_equal. lia.
  - apply Forall_cons in Hpre as [ [Hx Hn] Hpre].
    rewrite (proj2 (ceq_false x ch)), (proj2 (ceq_false x NUL)) by done.
    rewrite IH by done. f_equal. lia.
Qed.

(** ... and nothing when the terminator comes first. *)
Lemma strchr_from_none pre : forall i ch rest,
  ch <> NUL ->
  Forall (fun x => x <> ch) pre ->
  strchr_from (pre ++ NUL :: rest) i ch = None.
Proof.
  induction pre as [|x pre IH]; intros i ch rest Hch Hpre;
    cbn [strchr_from app].
  - rewrite (proj2 (ceq_false NUL ch)) by done.
    by rewrite (proj2 (ceq_true NUL NUL)).
  - apply Forall_cons in Hpre as [Hx Hpre].
    rewrite (proj2 (ceq_false x ch)) by done.
    destruct (ceq x NUL); [done|]. by apply IH.
Qed.

Lemma cstr_app pre rest :
  Forall (fun x => x <> NUL) pre -> cstr (pre ++ NUL :: rest) = pre.
Proof.
  induction 1 as [|x pre Hx _ IH]; cbn [cstr app].
  - by rewrite (proj2 (ceq_true NUL NUL)).
  - rewrite (proj2 (ceq_false x NUL)) by done. by rewrite IH.
Qed.

(** [strcmp] gives 0 exactly on equal strings. *)
Lemma streq_spec (a : list char) : forall b, streq a b = true <-> a = b.
Proof.
  induction a as [|x a IH]; intros [|y b]; cbn [streq]; try done.
  rewrite andb_true_iff, ceq_true, IH. split; [by intros [-> ->]|].
  by intros [= -> ->].
Qed.

(** Where [strchr] finds something, it is behind every byte that is not
    the one looked for. *)
Lemma strchr_from_behind pre : forall i ch rest p,
  Forall (fun x => x <> ch) pre ->
  strchr_from (pre ++ rest) i ch = Some p -> (i + length pre <= p)%nat.
Proof.
  induction pre as [|x pre IH]; intros i ch rest p Hpre; cbn [app length].
  - revert i. induction rest as [|y rest IHr]; intros i; cbn [strchr_from];
      [done|].
    destruct (ceq y ch); [intros [= <-]; lia|].
    destruct (ceq y NUL); [done|]. intros H%IHr. lia.
  - apply Forall_cons in Hpre as [Hx Hpre]. cbn [strchr_from].
    rewrite (proj2 (ceq_false x ch)) by done.
    destruct (ceq x NUL); [done|]. intros H%IH; [lia|done].
Qed.

(** Cutting at [ch] leaves what comes before the first [ch] as it is. *)
Lemma cut_at_behind pre rest ch :
  Forall (fun x => x <> ch) pre ->
  exists rest', cut_at (pre ++ rest) ch = pre ++ rest'.
Proof.
  intros Hpre. unfold cut_at, strchr.
  destruct (strchr_from (pre ++ rest) 0 ch) as [p|] eqn:E; [|by exists rest].
  apply strchr_from_behind in E; [|done].
  exists (<[(p - length pre)%nat := NUL]> rest).
  by rewrite insert_app_r_alt by lia.
Qed.

(** The two cuts of lines 306-307 end the string where the line ends, at
    the first carriage return, line feed or terminator. *)
Lemma cut_line (line : list char) (h : char) (r : list char) :
  Forall (fun x => x <> NUL /\ x <> CR /\ x <> LF) line ->
  h = NUL \/ h = CR \/ h = LF ->
  exists r', cut_at (cut_at (line ++ h :: r) CR) LF = line ++ NUL :: r'.
Proof.
  intros Hline Hh.
  assert (Forall (fun x => x <> CR) line) as Hcr
    by (eapply Forall_impl; [exact Hline|]; simpl; tauto).
  assert (Forall (fun x => x <> LF) line) as Hlf
    by (eapply Forall_impl; [exact Hline|]; simpl; tauto).
  assert (forall ch, ch <> NUL -> Forall (fun x => x <> ch) line ->
            forall r0, cut_at (line ++ NUL :: r0) ch = line ++ NUL :: r0)
    as Hnone.
  { intros ch Hch Hl r0. unfold cut_at, strchr.
    by rewrite strchr_from_none. }
  assert (forall ch, Forall (fun x => x <> ch) line ->
            forall r0, cut_at (line ++ ch :: r0) ch = line ++ NUL :: r0)
    as Hfound.
  { intros ch Hl r0. unfold cut_at, strchr. rewrite strchr_from_found.
    - rewrite Nat.add_0_l, <- (Nat.add_0_r (length line)), insert_app_r. done.
    - apply Forall_forall. intros x Hx. split.
      + by apply (proj1 (Forall_forall _ _) Hl).
      + by apply (proj1 (Forall_forall _ _) Hline). }
  destruct Hh as [->|[->| ->] ].
  - exists r. rewrite !Hnone; done.
  - exists r. rewrite (Hfound CR Hcr), (Hnone LF); done.
  - destruct (cut_at_behind (line ++ [LF]) r CR) as [r' Er].
    { apply Forall_app. split; [done|]. by repeat constructor. }
    rewrite <- !app_assoc in Er. cbn [app] in Er.
    exists r'. by rewrite Er, (Hfound LF Hlf).
Qed.

(** C4.  The scratch buffer holds a line that starts with ["/"]: the
    command name [word], without space, then either a space and an
    argument [arg], or nothing; the line ends at a carriage return, a
    line feed or the terminator ([h]), whatever follows.  For every
    client and every such line: when the name is ["nick"] and there is an
    argument, the argument becomes the nickname as it is, whatever it is
    and whoever else bears it, and nothing is written (["/nick Bob"]
    makes the nickname ["Bob"]); when the name is anything else, as in
    ["/bogus arg"], and whenever there is no argument, as in ["/nick"],
    the one [write] is ["Unsupported command\n"] to the client's own
    descriptor, and the client, its nickname included, stays as it
    was. *)
Theorem nick_command (j : Z) (c : client) (Chat : chatState)
    (word arg : list char) (h : char) (r : list char) :
  Forall (fun x => x <> NUL /\ x <> CR /\ x <> LF /\ x <> SP) word ->
  Forall (fun x => x <> NUL /\ x <> CR /\ x <> LF) arg ->
  h = NUL \/ h = CR \/ h = LF ->
  let with_arg :=
    process_message j c Chat (SLASH :: word ++ SP :: arg ++ h :: r) in
  let no_arg := process_message j c Chat (SLASH :: word ++ h :: r) in
  (word = str "nick" ->
   with_arg.1.1 = {| fd := fd c; nick := arg; read_cb := read_cb c |} /\
   with_arg.2 = []) /\
  (word <> str "nick" ->
   with_arg.1.1 = c /\
   with_arg.2 = [(fd c, str "Unsupported command" ++ [LF])]) /\
  no_arg.1.1 = c /\
  no_arg.2 = [(fd c, str "Unsupported command" ++ [LF])].
Proof.
  intros Hword Harg Hh with_arg no_arg.
  assert (Forall (fun x => x <> SP /\ x <> NUL) (SLASH :: word)) as Hsp.
  { constructor; [done|]. eapply Forall_impl; [exact Hword|]. simpl. tauto. }
  assert (Forall (fun x => x <> NUL) (SLASH :: word)) as Hnul.
  { eapply Forall_impl; [exact Hsp|]. simpl. tauto. }
  assert (Forall (fun x => x <> NUL) arg) as Hanul.
  { eapply Forall_impl; [exact Harg|]. simpl. tauto. }
  assert (Forall (fun x => x <> NUL /\ x <> CR /\ x <> LF) (SLASH :: word))
    as Hline0.
  { constructor; [done|]. eapply Forall_impl; [exact Hword|]. simpl. tauto. }
  (* with an argument *)
  assert (exists r',
    with_arg =
      if streq (SLASH :: word) (str "/nick")
      then ({| fd := fd c; nick := arg; read_cb := read_cb c |},
            (SLASH :: word) ++ NUL :: arg ++ NUL :: r', [])
      else (c, (SLASH :: word) ++ NUL :: arg ++ NUL :: r',
            [(fd c, errmsg)])) as [r1 E1].
  { destruct (cut_line ((SLASH :: word) ++ SP :: arg) h r) as [r' Er]; [|done|].
    { apply Forall_app. split; [done|]. constructor; [done|exact Harg]. }
    exists r'. subst with_arg. unfold process_message.
    change (SLASH :: word ++ SP :: arg ++ h :: r)
      with ((SLASH :: word) ++ SP :: arg ++ h :: r).
    replace ((SLASH :: word) ++ SP :: arg ++ h :: r)
      with (((SLASH :: word) ++ SP :: arg) ++ h :: r)
      by (by rewrite <- app_assoc).
    cbv zeta. rewrite Er.
    replace ((((SLASH :: word) ++ SP :: arg) ++ h :: r) !! 0%nat)
      with (Some SLASH) by done.
    change (ceq (default NUL (Some SLASH)) SLASH) with true. cbv iota.
    rewrite <- app_assoc. cbn [app].
    change (SLASH :: word ++ SP :: arg ++ NUL :: r')
      with ((SLASH :: word) ++ SP :: (arg ++ NUL :: r')).
    assert (Eins : <[length (SLASH :: word) := NUL]>
                     ((SLASH :: word) ++ SP :: (arg ++ NUL :: r'))
                   = (SLASH :: word) ++ NUL :: (arg ++ NUL :: r')).
    { by rewrite insert_app_r_alt, Nat.sub_diag by lia. }
    assert (Edrop : drop (S (length (SLASH :: word)))
                      ((SLASH :: word) ++ NUL :: (arg ++ NUL :: r'))
                    = arg ++ NUL :: r').
    { rewrite (cons_middle NUL), app_assoc. apply drop_app_length'.
      rewrite length_app. cbn [length]. lia. }
    unfold strchr. rewrite strchr_from_found by done.
    rewrite Nat.add_0_l, !Eins, Edrop.
    rewrite (cstr_app _ _ Hnul), (cstr_app _ _ Hanul). done. }
  (* without *)
  assert (exists r', no_arg = (c, (SLASH :: word) ++ NUL :: r', [(fd c, errmsg)]))
    as [r2 E2].
  { destruct (cut_line (SLASH :: word) h r) as [r' Er]; [done|done|].
    exists r'. subst no_arg. unfold process_message.
    change (SLASH :: word ++ h :: r) with ((SLASH :: word) ++ h :: r).
    cbv zeta. rewrite Er.
    replace (((SLASH :: word) ++ h :: r) !! 0%nat) with (Some SLASH) by done.
    change (ceq (default NUL (Some SLASH)) SLASH) with true. cbv iota.
    unfold strchr. rewrite strchr_from_none; [done|done|].
    eapply Forall_impl; [exact Hsp|]. simpl. tauto. }
  rewrite E1, E2. clear E1 E2 with_arg no_arg.
  split; [|split; [|done] ].
  - intros ->. done.
  - intros Hne.
    destruct (streq (SLASH :: word) (str "/nick")) eqn:Es; [|done].
    apply streq_spec in Es. by injection Es.
Qed.

Lemma nick_command_witness :
  (process_message 4 client_4 (chat_with [4; 6])
     (str "/nick Bob" ++ [LF] ++ NUL :: drop 11 scratch_x)).1.1
  = {| fd := 4; nick := str "Bob"; read_cb := read_cb client_4 |}.
Proof.
  refine (proj1 (proj1 (nick_command 4 client_4 (chat_with [4; 6])
                          (str "nick") (str "Bob") LF
                          (NUL :: drop 11 scratch_x) _ _ _) eq_refl)).
  - repeat constructor; discriminate.
  - repeat constructor; discriminate.
  - right. right. reflexivity.
Defined.

(** The three messages the specification names, each ended by a line
    feed, by a carriage return and a line feed, or by the terminator. *)
Example nick_command_samples (j : Z) (c : client) (Chat : chatState)
    (eol tail : list char) :
  eol = [] \/ eol = [LF] \/ eol = [CR; LF] ->
  let run (text : string) :=
    process_message j c Chat (str text ++ eol ++ NUL :: tail) in
  ((run "/nick Bob"%string).1.1
     = {| fd := fd c; nick := str "Bob"; read_cb := read_cb c |} /\
   (run "/nick Bob"%string).2 = []) /\
  ((run "/nick"%string).1.1 = c /\
   (run "/nick"%string).2 = [(fd c, str "Unsupported command" ++ [LF])]) /\
  ((run "/bogus arg"%string).1.1 = c /\
   (run "/bogus arg"%string).2 = [(fd c, str "Unsupported command" ++ [LF])]).
Proof.
  intros [->|[->| ->] ] run; subst run; repeat split; reflexivity.
Qed.

(** X19. The argument of [/nick] is taken as it is: when it holds no null
    byte, carriage return or line feed, all of it up to the end of the
    line becomes the nickname, spaces included, with no check of its
    length or of its bytes; the descriptor and the inbox stay, and
    nothing is written. *)
Lemma nick_argument_verbatim (j : Z) (c : client) (Chat : chatState)
    (arg tail : list char) :
  Forall (fun x => x <> NUL /\ x <> CR /\ x <> LF) arg ->
  (process_message j c Chat
     (str "/nick " ++ arg ++ LF :: NUL :: tail)).1.1
    = {| fd := fd c; nick := arg; read_cb := read_cb c |} /\
  (process_message j c Chat
     (str "/nick " ++ arg ++ LF :: NUL :: tail)).2 = [].
Proof.
  intros Harg. unfold process_message. cbv zeta.
  assert (E0 : ceq (default NUL
                 ((str "/nick " ++ arg ++ LF :: NUL :: tail) !! 0%nat)) SLASH
               = true) by reflexivity.
  assert (E1 : cut_at (str "/nick " ++ arg ++ LF :: NUL :: tail) CR
               = str "/nick " ++ arg ++ LF :: NUL :: tail).
  { unfold cut_at, strchr.
    replace (str "/nick " ++ arg ++ LF :: NUL :: tail)
      with ((str "/nick " ++ arg ++ [LF]) ++ NUL :: tail)
      by (by rewrite <- !app_assoc).
    rewrite strchr_from_none; [done|done|].
    apply Forall_app. split; [repeat constructor; done|].
    apply Forall_app. split; [|repeat constructor; done].
    eapply Forall_impl; [exact Harg|]. simpl. tauto. }
  assert (E2 : cut_at (str "/nick " ++ arg ++ LF :: NUL :: tail) LF
               = str "/nick " ++ arg ++ NUL :: NUL :: tail).
  { unfold cut_at, strchr.
    replace (str "/nick " ++ arg ++ LF :: NUL :: tail)
      with ((str "/nick " ++ arg) ++ LF :: NUL :: tail)
      by (by rewrite <- !app_assoc).
    rewrite strchr_from_found.
    - rewrite Nat.add_0_l, <- (Nat.add_0_r (length _)), insert_app_r. done.
    - apply Forall_app. split; [repeat constructor; done|].
      eapply Forall_impl; [exact Harg|]. simpl. tauto. }
  assert (E3 : strchr (str "/nick " ++ arg ++ NUL :: NUL :: tail) SP
               = Some 5%nat) by reflexivity.
  assert (E4 : <[5%nat:=NUL]> (str "/nick " ++ arg ++ NUL :: NUL :: tail)
               = str "/nick" ++ NUL :: arg ++ NUL :: NUL :: tail)
    by reflexivity.
  assert (E5 : streq (cstr (str "/nick" ++ NUL :: arg ++ NUL :: NUL :: tail))
                 (str "/nick") = true) by reflexivity.
  assert (E6 : drop 6 (str "/nick" ++ NUL :: arg ++ NUL :: NUL :: tail)
               = arg ++ NUL :: NUL :: tail) by reflexivity.
  rewrite E0, E1, E2, E3, E4, E5, E6.
  rewrite cstr_app by (eapply Forall_impl; [exact Harg|]; simpl; tauto).
  split; reflexivity.
Qed.

(* ===================================================================== *)
(** * Part VII. The handler and the states it keeps *)
(* ===================================================================== *)

(** The handler changes the registry only by what [chat_reach] allows:
    clients changed in place, and a client freed when its read ends the
    connection.  So what is proved of the reachable states holds between
    any two reads. *)

Lemma client_eta c : c = {| fd := fd c; nick := nick c; read_cb := read_cb c |}.
Proof. by destruct c. Qed.

Lemma extract_round_reach j c0 c Chat readbuf c2 Chat2 rb2 m ws :
  chat_reach Chat -> client_at Chat j = Some c0 -> fd c = fd c0 ->
  extract_round j c Chat readbuf = Ok (c2, Chat2, rb2, m, ws) ->
  chat_reach Chat2 /\ client_at Chat2 j = Some c2 /\ fd c2 = fd c0.
Proof.
  intros Hr Hat Hfd. unfold extract_round.
  destruct (pop_until_sep _ _ _ _ _) as [ [ [ [cb' rb] idx] pops]|];
    cbn [mbind outcome_bind]; [|done].
  destruct (_ <? _); [|done].
  pose proof (process_message_keeps j
    {| fd := fd c; nick := nick c; read_cb := cb' |}
    (store_client j {| fd := fd c; nick := nick c; read_cb := cb' |} Chat)
    (<[Z.to_nat idx:=NUL]> rb)) as (Kfd & _ & _).
  destruct (process_message _ _ _ _) as [ [c3 rb3] ws3].
  simpl in Kfd. intros [= <- <- <- <- <-].
  assert (fd c3 = fd c0) as E by congruence.
  split; [|split; [by eapply client_at_store|done] ].
  rewrite (client_eta c3), E. by apply chat_update.
Qed.

Lemma extract_rounds_reach j k : forall c0 c Chat readbuf Chat' rb' ms ws,
  chat_reach Chat -> client_at Chat j = Some c0 -> fd c = fd c0 ->
  extract_rounds k j c Chat readbuf = Ok (Chat', rb', ms, ws) ->
  chat_reach Chat'.
Proof.
  induction k as [|k IH]; intros c0 c Chat readbuf Chat' rb' ms ws Hr Hat Hfd;
    cbn [extract_rounds].
  - intros [= <- <- <- <-]. done.
  - destruct (extract_round j c Chat readbuf)
      as [ [ [ [ [c2 Chat2] rb2] m] ws2]|] eqn:E1;
      cbn [mbind outcome_bind]; [|done].
    destruct (extract_round_reach _ _ _ _ _ _ _ _ _ _ Hr Hat Hfd E1)
      as (Hr2 & Hat2 & Hfd2).
    destruct (extract_rounds k j c2 Chat2 rb2)
      as [ [ [ [Chat3 rb3] ms3] ws3]|] eqn:E2;
      cbn [mbind outcome_bind]; [|done].
    intros [= <- <- <- <-]. by eapply (IH c2 c2).
Qed.

Lemma serve_client_reach_aux j inp Chat readbuf sv :
  chat_reach Chat ->
  serve_client j inp Chat readbuf = Ok sv ->
  chat_reach (sv_chat sv).
Proof.
  intros Hr. unfold serve_client.
  destruct (client_at Chat j) as [c|] eqn:Hat; [|by intros [= <-] ].
  set (cb := (circbuf_push_from_linear _ _ _).1).
  set (c1 := {| fd := fd c; nick := nick c; read_cb := cb |}).
  assert (chat_reach (store_client j c1 Chat)) as Hr1 by (by apply chat_update).
  assert (client_at (store_client j c1 Chat) j = Some c1) as Hat1
    by (by eapply client_at_store).
  destruct (_ && _); [|done].
  destruct (_ <=? 0).
  { intros [= <-]. simpl. by eapply chat_free. }
  destruct (_ || _); [|by intros [= <-] ].
  destruct (extract_rounds _ j c1 _ readbuf)
    as [ [ [ [Chat' rb'] ms] ws]|] eqn:E;
    cbn [mbind outcome_bind]; [|done].
  intros [= <-]. simpl.
  by eapply (extract_rounds_reach j _ c1 c1).
Qed.

(** X12. A read keeps the registry a registry: whatever is read, the state
    the handler leaves is again a state reached by creating, changing and
    freeing clients, so that all that holds of those states (the bounds of
    [maxclient], [numclients], one client per descriptor) holds after
    it. *)
Theorem serve_client_reach j inp Chat readbuf sv :
  chat_reach Chat ->
  serve_client j inp Chat readbuf = Ok sv ->
  chat_reach (sv_chat sv).
Proof. apply serve_client_reach_aux. Qed.

(** With the inbox empty the loop changes neither the inbox nor the
    scratch buffer, however it ends. *)
Lemma pop_until_sep_drained room : forall cb readbuf idx pops,
  contents cb = [] -> circbuf_wf cb ->
  pop_until_sep room cb readbuf idx pops = Fault \/
  exists idx' pops',
    pop_until_sep room cb readbuf idx pops = Ok (cb, readbuf, idx', pops') /\
    idx < idx'.
Proof.
  induction room as [|room IH]; intros cb readbuf idx pops Hc Hwf; simpl;
    [by left|].
  destruct (readbuf !! Z.to_nat idx) as [old|] eqn:Hl; [|by left].
  rewrite (circbuf_pop_nil _ _ Hwf Hc), list_insert_id by done.
  destruct (ceq old MSG_SEP).
  - right. exists (idx + 1), (pops ++ [0]). split; [done|lia].
  - destruct (IH cb readbuf (idx + 1) (pops ++ [0]) Hc Hwf)
      as [->|(idx' & pops' & -> & Hlt)]; [by left|].
    right. exists idx', pops'. split; [done|lia].
Qed.

(** A round on an inbox without separator, when it does end inside the
    scratch buffer: the inbox is left empty, and the message starts with
    all the bytes the inbox held. *)
Lemma extract_round_no_sep j c Chat readbuf c2 Chat2 rb2 m ws :
  circbuf_wf (read_cb c) ->
  size (read_cb c) = Z.of_nat (length readbuf) ->
  count_sep (contents (read_cb c)) = 0 ->
  extract_round j c Chat readbuf = Ok (c2, Chat2, rb2, m, ws) ->
  circbuf_wf (read_cb c2) /\ size (read_cb c2) = size (read_cb c) /\
  contents (read_cb c2) = [] /\ length rb2 = length readbuf /\
  Chat2 = store_client j c2 Chat /\
  contents (read_cb c) `prefix_of` m.
Proof.
  intros Hwf Hsz Hsep.
  pose proof (contents_length _ Hwf) as Hlen.
  pose proof (circbuf_len_range _ (circbuf_wf_idx _ Hwf)) as Hrange.
  set (n := length (contents (read_cb c))) in *.
  destruct (pop_until_sep_prefix (contents (read_cb c)) (read_cb c) readbuf 0 []
              (length readbuf - n) [])
    as (cb0 & Hwf0 & Hs0 & Hc0 & E); try done; try lia.
  { by rewrite app_nil_r. }
  fold n in E.
  replace (n + (length readbuf - n))%nat with (length readbuf) in E by lia.
  change (Z.to_nat 0) with 0%nat in E.
  rewrite take_0, !app_nil_l, Nat.add_0_l, Z.add_0_l in E.
  unfold extract_round. rewrite E. clear E.
  set (scratch := contents (read_cb c) ++ drop n readbuf).
  assert (length scratch = length readbuf) as Hscr.
  { unfold scratch. rewrite length_app, length_drop. fold n. lia. }
  destruct (pop_until_sep_drained (length readbuf - n) cb0 scratch
              (Z.of_nat n) (replicate n 1) Hc0 Hwf0)
    as [->|(idx' & pops' & -> & Hidx)]; cbn [mbind outcome_bind]; [done|].
  rewrite Hscr. destruct (Z.ltb_spec idx' (Z.of_nat (length readbuf))); [|done].
  pose proof (process_message_keeps j
    {| fd := fd c; nick := nick c; read_cb := cb0 |}
    (store_client j {| fd := fd c; nick := nick c; read_cb := cb0 |} Chat)
    (<[Z.to_nat idx':=NUL]> scratch)) as (_ & Kcb & Klen).
  destruct (process_message _ _ _ _) as [ [c3 rb3] ws3].
  simpl in Kcb, Klen. rewrite length_insert in Klen.
  intros [= <- <- <- <- <-]. rewrite Kcb.
  split; [done|]. split; [done|]. split; [done|]. split; [congruence|].
  split; [done|].
  rewrite take_insert_ge by lia. unfold scratch.
  rewrite take_app_ge by (fold n; lia). by apply prefix_app_r.
Qed.

(** Between two reads every inbox is as [inbox_ok] says: a read that the
    handler gets through leaves the scratch buffer at its size and the
    client, when it is still there, with such an inbox again. *)
Theorem serve_client_inbox j inp Chat readbuf c sv :
  chat_reach Chat ->
  client_at Chat j = Some c ->
  inbox_ok c ->
  Z.of_nat (length readbuf) = READBUF_SIZE ->
  serve_client j inp Chat readbuf = Ok sv ->
  length (sv_readbuf sv) = length readbuf /\
  (forall c', client_at (sv_chat sv) j = Some c' -> inbox_ok c').
Proof.
  intros Hr Hat (Hwf & Hsz & Hsep & Hsp) Hrb.
  pose proof (inv_fd _ (chat_reach_inv _ Hr) _ _ Hat) as Hfd.
  pose proof (circbuf_len_range _ (circbuf_wf_idx _ Hwf)) as Hlen.
  unfold serve_client. rewrite Hat.
  destruct inp as [pending|]; [|done].
  set (raw := read_bytes (Bytes pending) (circbuf_space_left (read_cb c) - 1)).
  change (read_result (Bytes pending) (circbuf_space_left (read_cb c) - 1))
    with (Z.of_nat (length raw)).
  assert (Z.of_nat (length raw) <= circbuf_space_left (read_cb c) - 1) as Hraw.
  { subst raw. unfold read_bytes.
    destruct (Z.ltb_spec (circbuf_space_left (read_cb c) - 1) 0); [lia|].
    rewrite length_take. lia. }
  destruct (serve_client_push (read_cb c) raw Hwf ltac:(lia))
    as (cb1 & -> & Hwf1 & Hs1 & Hc1). cbn [fst].
  set (c1 := {| fd := fd c; nick := nick c; read_cb := cb1 |}).
  assert (Hsp1 : circbuf_space_left cb1
                 = circbuf_space_left (read_cb c) - Z.of_nat (length raw)).
  { unfold circbuf_space_left.
    rewrite (circbuf_len_contents cb1), Hc1, length_app by done.
    rewrite (circbuf_len_contents (read_cb c)) by done. lia. }
  assert (Hat1 : client_at (store_client j c1 Chat) j = Some c1)
    by (by eapply client_at_store).
  assert (Z.of_nat (length raw) < READBUF_SIZE) as Hlt
    by (unfold circbuf_space_left in Hraw; lia).
  destruct (Z.leb_spec 0 (Z.of_nat (length raw))); [|lia].
  destruct (Z.ltb_spec (Z.of_nat (length raw)) READBUF_SIZE); [|lia].
  cbn [andb].
  destruct (Z.leb_spec (Z.of_nat (length raw)) 0).
  { (* end of stream: the client is freed *)
    intros [= <-]. simpl. split; [done|]. intros c'.
    unfold client_at, freeClient. simpl.
    destruct (Z.ltb_spec j 0); [done|].
    pose proof (client_at_range _ _ (mk_is_Some _ _ Hat)) as Hj.
    assert (forall o : option client,
      mjoin (<[Z.to_nat (fd c):=None]>
               (<[Z.to_nat j:=Some c1]> (clients Chat)) !! Z.to_nat j) = o ->
      o = None) as Hnone.
    { intros o <-. rewrite Hfd, list_lookup_insert_eq; [done|].
      rewrite length_insert. lia. }
    destruct (maxclient Chat =? fd c); simpl; intros Hc';
      by apply Hnone in Hc'. }
  cbn [read_cb]. fold c1.
  destruct (Z.gtb_spec (count_sep raw) 0) as [Hk|Hk]; cbn [orb].
  - (* separators read: as many rounds *)
    destruct (Z.eqb_spec (count_sep raw) 0); [lia|].
    destruct (extract_rounds_spec j (Z.to_nat (count_sep raw)) c1
                (store_client j c1 Chat) readbuf)
      as (Chat' & rb' & ms & ws & c' & -> & _ & _ & Hat' & Hcat & Hz & Hwf'
          & Hs' & _ & Hl'); try done.
    { simpl. lia. }
    { simpl. rewrite Hc1, count_sep_app, Hsep. lia. }
    cbn [mbind outcome_bind]. intros [= <-]. simpl. split; [done|].
    intros c'' Hc''. rewrite Hat' in Hc''. injection Hc'' as <-.
    split; [done|]. split; [simpl in Hs'; congruence|]. split; [done|].
    simpl in Hcat, Hs'. unfold circbuf_space_left in *.
    rewrite (circbuf_len_contents (read_cb c')) by done.
    rewrite (circbuf_len_contents cb1) in Hsp1 by done.
    rewrite <- Hcat, length_app in Hsp1. lia.
  - pose proof (count_sep_nonneg raw) as Hk0.
    assert (count_sep raw = 0) as Hraw0 by lia. rewrite Hraw0.
    assert (Hok1 : inbox_ok c1).
    { unfold inbox_ok. simpl. rewrite Hc1, count_sep_app, Hsep, Hraw0.
      split; [done|]. split; [congruence|]. split; [done|lia]. }
    destruct (Z.leb_spec (circbuf_space_left (read_cb c1)) 1).
    + (* forced flush: one round *)
      change (Z.to_nat (if 0 =? 0 then 1 else 0)) with 1%nat.
      cbn [extract_rounds].
      destruct (extract_round j c1 (store_client j c1 Chat) readbuf)
        as [ [ [ [ [c2 Chat2] rb2] m] ws2]|] eqn:E;
        cbn [mbind outcome_bind]; [|done].
      assert (size (read_cb c1) = Z.of_nat (length readbuf)) as Hs1'
        by (simpl; congruence).
      destruct (extract_round_no_sep j c1 _ _ _ _ _ _ _ (proj1 Hok1) Hs1'
                  (proj1 (proj2 (proj2 Hok1))) E)
        as (Hwf2 & Hs2 & Hc2 & Hl2 & -> & _).
      intros [= <-]. simpl. split; [done|].
      intros c' Hc'. rewrite store_client_twice in Hc'.
      rewrite (client_at_store _ _ _ c2 Hat) in Hc'. injection Hc' as <-.
      split; [done|]. split; [simpl in Hs2; congruence|].
      split; [by rewrite Hc2|].
      unfold circbuf_space_left.
      rewrite (circbuf_len_contents (read_cb c2)), Hc2 by done.
      simpl in Hs2. simpl. lia.
    + (* keep buffering *)
      intros [= <-]. simpl. split; [done|].
      intros c' Hc'. rewrite Hat1 in Hc'. by injection Hc' as <-.
Qed.

(* ===================================================================== *)
(** * Part VIII. More on the ring buffer *)
(* ===================================================================== *)

Lemma circbuf_space_left_nonneg cb :
  circbuf_wf cb -> 0 <= circbuf_space_left cb.
Proof.
  intros Hwf. pose proof (circbuf_len_range _ (circbuf_wf_idx _ Hwf)).
  unfold circbuf_space_left. lia.
Qed.

Lemma circbuf_space_left_contents cb :
  circbuf_wf cb ->
  circbuf_space_left cb = size cb - 1 - Z.of_nat (length (contents cb)).
Proof. intros. unfold circbuf_space_left. by rewrite contents_length. Qed.

(** A push on a buffer with no room left comes back as it went. *)
Lemma circbuf_push_no_room cb d :
  circbuf_wf cb -> circbuf_space_left cb = 0 -> circbuf_push cb d = (cb, 0).
Proof.
  intros Hwf Hsp. apply circbuf_push_full.
  apply (full_iff_len cb (circbuf_wf_idx _ Hwf)).
  unfold circbuf_space_left in Hsp. lia.
Qed.

(** The bulk push, whatever the room: it stores bytes until [n] are stored
    or the buffer is full. *)
Lemma push_from_linear_loop_some todo : forall cb src i,
  circbuf_wf cb -> 0 <= i ->
  (Z.to_nat i + todo <= length src)%nat ->
  i + circbuf_space_left cb <= size cb - 1 ->
  exists cb',
    push_from_linear_loop todo cb src i
      = (cb', i + Z.min (Z.of_nat todo) (circbuf_space_left cb)) /\
    circbuf_wf cb' /\ size cb' = size cb /\
    contents cb'
      = contents cb
        ++ take (Z.to_nat (Z.min (Z.of_nat todo) (circbuf_space_left cb)))
             (drop (Z.to_nat i) src).
Proof.
  induction todo as [|todo IH]; intros cb src i Hwf Hi Hsrc Hsz.
  - pose proof (circbuf_space_left_nonneg cb Hwf).
    exists cb. simpl. rewrite Z.min_l by lia.
    rewrite Z.add_0_r, take_0, app_nil_r. done.
  - pose proof (circbuf_space_left_nonneg cb Hwf) as Hsp.
    cbn [push_from_linear_loop].
    destruct (Z.eq_dec (circbuf_space_left cb) 0) as [E0|E0].
    + (* full: the guard or the push stops the loop *)
      exists cb. rewrite E0, Z.min_r by lia.
      rewrite Z.add_0_r, take_0, app_nil_r.
      destruct (i <? size cb - 1); [|done].
      rewrite (circbuf_push_no_room cb _ Hwf E0). done.
    + destruct (Z.ltb_spec i (size cb - 1)); [|lia].
      destruct (lookup_lt_is_Some_2 src (Z.to_nat i)) as [x Hx]; [lia|].
      rewrite Hx. change (default NUL (Some x)) with x.
      destruct (circbuf_push_snoc cb x Hwf) as (cb1 & -> & Hwf1 & Hc1 & Hs1).
      { unfold circbuf_space_left in *. lia. }
      cbn [Z.eqb].
      assert (circbuf_space_left cb1 = circbuf_space_left cb - 1) as Hsp1.
      { rewrite !circbuf_space_left_contents, Hc1, length_app, Hs1 by done.
        simpl. lia. }
      destruct (IH cb1 src (i + 1)) as (cb' & -> & Hwf' & Hs' & Hc');
        try done; try lia.
      exists cb'. rewrite Hsp1.
      replace (Z.min (Z.of_nat (S todo)) (circbuf_space_left cb))
        with (1 + Z.min (Z.of_nat todo) (circbuf_space_left cb - 1)) by lia.
      split; [f_equal; lia|]. split; [done|]. split; [congruence|].
      rewrite Hc', Hc1, <- app_assoc. f_equal.
      rewrite (drop_S _ x _ Hx), Hsp1.
      replace (Z.to_nat (1 + Z.min (Z.of_nat todo) (circbuf_space_left cb - 1)))
        with (S (Z.to_nat (Z.min (Z.of_nat todo) (circbuf_space_left cb - 1))))
        by lia.
      simpl. do 3 f_equal. lia.
Qed.

(** The bulk pop, whatever the buffer holds: it takes bytes out until [n]
    are out or the buffer is empty. *)
Lemma pop_to_linear_loop_some todo : forall dest cb i,
  circbuf_wf cb -> 0 <= i ->
  (Z.to_nat i + todo <= length dest)%nat ->
  exists cb',
    pop_to_linear_loop todo dest cb i =
      (take (Z.to_nat i) dest
         ++ take todo (contents cb)
         ++ drop (Z.to_nat i + min todo (length (contents cb))) dest,
       cb', i + Z.of_nat (min todo (length (contents cb)))) /\
    circbuf_wf cb' /\ size cb' = size cb /\
    contents cb' = drop todo (contents cb).
Proof.
  induction todo as [|todo IH]; intros dest cb i Hwf Hi Hdest.
  - exists cb. simpl. rewrite Z.add_0_r, Nat.add_0_r, take_drop. done.
  - cbn [pop_to_linear_loop].
    destruct (contents cb) as [|x l] eqn:Ec.
    + rewrite (circbuf_pop_nil cb _ Hwf Ec). cbn [Z.eqb].
      exists cb. rewrite Ec. simpl.
      rewrite Nat.add_0_r, Z.add_0_r, take_drop. done.
    + destruct (circbuf_pop_cons cb (default NUL (dest !! Z.to_nat i)) x l Hwf Ec)
        as (cb1 & -> & Hwf1 & Hc1 & Hs1).
      cbn [Z.eqb].
      destruct (IH (<[Z.to_nat i:=x]> dest) cb1 (i + 1))
        as (cb' & -> & Hwf' & Hs' & Hc'); try done; try lia.
      { rewrite length_insert. lia. }
      exists cb'. rewrite Hc1. cbn [length drop].
      split; [|split; [done|split; [congruence|by rewrite Hc', Hc1] ] ].
      f_equal; [|lia]. f_equal.
      replace (Z.to_nat (i + 1)) with (S (Z.to_nat i)) by lia.
      rewrite (take_S_r _ _ x) by (apply list_lookup_insert_eq; lia).
      rewrite take_insert_ge by lia. rewrite drop_insert_lt by lia.
      rewrite <- app_assoc. simpl.
      by replace (Z.to_nat i + S (min todo (length l)))%nat
        with (S (Z.to_nat i + min todo (length l))) by lia.
Qed.

(** X1. [circbuf_push] succeeds exactly when there is room: with room left
    it returns 1 and the byte becomes the newest of the bytes held, whose
    number grows by one; with none it returns 0 and changes nothing. *)
Theorem push_appends_when_room (cb : Circbuf) (d : char) :
  circbuf_wf cb ->
  (0 < circbuf_space_left cb ->
   exists cb',
     circbuf_push cb d = (cb', 1) /\ circbuf_wf cb' /\
     contents cb' = contents cb ++ [d] /\
     circbuf_len cb' = circbuf_len cb + 1 /\
     circbuf_space_left cb' = circbuf_space_left cb - 1) /\
  (circbuf_space_left cb <= 0 -> circbuf_push cb d = (cb, 0)).
Proof.
  intros Hwf. pose proof (circbuf_space_left_nonneg cb Hwf) as Hsp. split.
  - intros Hroom.
    destruct (circbuf_push_snoc cb d Hwf) as (cb' & E & Hwf' & Hc' & Hs').
    { unfold circbuf_space_left in Hroom. lia. }
    exists cb'. split; [done|]. split; [done|]. split; [done|].
    rewrite (circbuf_space_left_contents cb'), (circbuf_space_left_contents cb),
      (circbuf_len_contents cb'), (circbuf_len_contents cb), Hc', length_app, Hs'
      by done.
    simpl. lia.
  - intros Hfull. apply circbuf_push_no_room; [done|lia].
Qed.

Lemma push_appends_when_room_witness :
  exists cb',
    circbuf_push cb_holding_x "y"%char = (cb', 1) /\
    contents cb' = ["x"; "y"]%char.
Proof.
  destruct (proj1 (push_appends_when_room cb_holding_x "y"%char
                     ltac:(unfold circbuf_wf; vm_compute; repeat split; discriminate))
              ltac:(vm_compute; reflexivity))
    as (cb' & E & _ & Hc & _).
  exists cb'. split; [exact E|exact Hc].
Defined.

(** X2. [circbuf_pop] succeeds exactly when the buffer holds a byte: it
    then returns 1, stores the oldest byte at the destination and leaves
    the others, in their order; the length goes down by one. *)
Theorem pop_takes_oldest (cb : Circbuf) (d : char) :
  circbuf_wf cb ->
  (0 < circbuf_len cb ->
   exists cb' x,
     circbuf_pop cb d = (cb', x, 1) /\ circbuf_wf cb' /\
     contents cb = x :: contents cb' /\
     circbuf_len cb' = circbuf_len cb - 1) /\
  (circbuf_len cb <= 0 -> circbuf_pop cb d = (cb, d, 0)).
Proof.
  intros Hwf. pose proof (circbuf_len_range _ (circbuf_wf_idx _ Hwf)) as Hr.
  split.
  - intros Hlen. destruct (contents cb) as [|x l] eqn:Ec.
    { rewrite (circbuf_len_contents cb), Ec in Hlen by done. simpl in Hlen. lia. }
    destruct (circbuf_pop_cons cb d x l Hwf Ec) as (cb' & E & Hwf' & Hc' & Hs').
    exists cb', x. split; [done|]. split; [done|]. split; [by rewrite Hc'|].
    rewrite (circbuf_len_contents cb'), (circbuf_len_contents cb), Hc', Ec by done.
    simpl. lia.
  - intros Hlen. apply circbuf_pop_empty. symmetry.
    apply (circbuf_len_zero cb (circbuf_wf_idx _ Hwf)). lia.
Qed.

Lemma pop_takes_oldest_witness :
  exists cb' x,
    circbuf_pop inbox_hi_yo NUL = (cb', x, 1) /\
    contents inbox_hi_yo = x :: contents cb'.
Proof.
  destruct (proj1 (pop_takes_oldest inbox_hi_yo NUL
                     ltac:(unfold circbuf_wf; vm_compute; repeat split; discriminate))
              ltac:(vm_compute; reflexivity))
    as (cb' & x & E & _ & Hc & _).
  exists cb', x. split; [exact E|exact Hc].
Defined.

(** The bulk push in terms of the bytes held. *)
Lemma push_from_linear_stops_when_full_aux (cb : Circbuf) (src : list char)
    (n : Z) :
  circbuf_wf cb ->
  n <= Z.of_nat (length src) ->
  let r := circbuf_push_from_linear cb src n in
  r.2 = Z.max 0 (Z.min n (circbuf_space_left cb)) /\
  contents r.1 = contents cb ++ take (Z.to_nat r.2) src /\
  circbuf_wf r.1 /\ size r.1 = size cb.
Proof.
  intros Hwf Hn r. subst r. unfold circbuf_push_from_linear.
  pose proof (circbuf_space_left_nonneg cb Hwf) as Hsp.
  pose proof (circbuf_len_range _ (circbuf_wf_idx _ Hwf)) as Hlen.
  destruct (push_from_linear_loop_some (Z.to_nat n) cb src 0)
    as (cb' & -> & Hwf' & Hs' & Hc'); try done; try lia.
  { unfold circbuf_space_left. lia. }
  cbn [fst snd]. rewrite Hc', drop_0.
  replace (0 + Z.min (Z.of_nat (Z.to_nat n)) (circbuf_space_left cb))
    with (Z.max 0 (Z.min n (circbuf_space_left cb))) by lia.
  replace (Z.min (Z.of_nat (Z.to_nat n)) (circbuf_space_left cb))
    with (Z.max 0 (Z.min n (circbuf_space_left cb))) by lia.
  done.
Qed.

(** X3. [circbuf_push_from_linear] stores the first bytes of [src] until
    [n] are stored or the buffer is full, and returns how many it stored:
    the smaller of [n] and the room there was.  The bytes already held
    stay in front, untouched.  With [n <= 0] nothing is stored. *)
Theorem push_from_linear_stops_when_full (cb : Circbuf) (src : list char)
    (n : Z) :
  circbuf_wf cb ->
  n <= Z.of_nat (length src) ->
  let r := circbuf_push_from_linear cb src n in
  r.2 = Z.max 0 (Z.min n (circbuf_space_left cb)) /\
  contents r.1 = contents cb ++ take (Z.to_nat r.2) src /\
  circbuf_wf r.1 /\ size r.1 = size cb.
Proof. apply push_from_linear_stops_when_full_aux. Qed.

Lemma push_from_linear_stops_when_full_witness :
  (circbuf_push_from_linear cb_holding_x (str "abcd") 4).2 = 2 /\
  contents (circbuf_push_from_linear cb_holding_x (str "abcd") 4).1
    = str "xab".
Proof.
  destruct (push_from_linear_stops_when_full cb_holding_x (str "abcd") 4)
    as (H1 & H2 & _).
  - unfold circbuf_wf. vm_compute. repeat split; discriminate.
  - vm_compute. discriminate.
  - split; [exact H1|exact H2].
Defined.

(** X4. [circbuf_pop_to_linear] takes bytes out, oldest first, until [n]
    are out or the buffer is empty, and returns how many it took: the
    smaller of [n] and the length.  They are stored at the head of
    [dest]; the rest of [dest] and the bytes not taken are left as they
    were. *)
Theorem pop_to_linear_stops_when_empty (dest : list char) (cb : Circbuf)
    (n : Z) :
  circbuf_wf cb ->
  n <= Z.of_nat (length dest) ->
  let r := circbuf_pop_to_linear dest cb n in
  r.2 = Z.max 0 (Z.min n (circbuf_len cb)) /\
  r.1.1 = take (Z.to_nat r.2) (contents cb) ++ drop (Z.to_nat r.2) dest /\
  contents r.1.2 = drop (Z.to_nat r.2) (contents cb) /\
  circbuf_wf r.1.2.
Proof.
  intros Hwf Hn r. subst r. unfold circbuf_pop_to_linear.
  destruct (pop_to_linear_loop_some (Z.to_nat n) dest cb 0)
    as (cb' & -> & Hwf' & Hs' & Hc'); try done; try lia.
  cbn [fst snd]. rewrite (circbuf_len_contents cb) by done.
  change (Z.to_nat 0) with 0%nat. rewrite take_0, app_nil_l, Nat.add_0_l.
  set (len := length (contents cb)) in *.
  assert (Z.max 0 (Z.min n (Z.of_nat len))
          = 0 + Z.of_nat (min (Z.to_nat n) len)) as E by lia.
  rewrite <- E.
  assert (Z.to_nat (Z.max 0 (Z.min n (Z.of_nat len))) = min (Z.to_nat n) len)
    as -> by lia.
  split; [done|]. split; [|split; [|done] ].
  - f_equal. destruct (Nat.le_ge_cases (Z.to_nat n) len).
    + by rewrite Nat.min_l.
    + rewrite Nat.min_r by done. by rewrite !take_ge by (fold len; lia).
  - rewrite Hc'. destruct (Nat.le_ge_cases (Z.to_nat n) len).
    + by rewrite Nat.min_l.
    + rewrite Nat.min_r by done. by rewrite !drop_ge by (fold len; lia).
Qed.

Lemma pop_to_linear_stops_when_empty_witness :
  (circbuf_pop_to_linear (str "......") cb_holding_x 4).2 = 1 /\
  (circbuf_pop_to_linear (str "......") cb_holding_x 4).1.1 = str "x.....".
Proof.
  destruct (pop_to_linear_stops_when_empty (str "......") cb_holding_x 4)
    as (H1 & H2 & _).
  - unfold circbuf_wf. vm_compute. repeat split; discriminate.
  - vm_compute. discriminate.
  - split; [exact H1|exact H2].
Defined.

(** X5. [circbuf_empty] drops what the buffer holds and nothing else: the
    array and the size stay, the buffer holds no byte and has all its
    room.  After it, whatever the buffer held before, [n <= size - 1]
    bytes pushed and popped back come out as they went in. *)
Theorem empty_then_round_trip (cb : Circbuf) (src dest : list char) (n : Z) :
  circbuf_wf cb ->
  n = Z.of_nat (length src) ->
  n <= size cb - 1 ->
  n <= Z.of_nat (length dest) ->
  let cb0 := circbuf_empty cb in
  let pushed := circbuf_push_from_linear cb0 src n in
  let popped := circbuf_pop_to_linear dest pushed.1 n in
  (contents cb0 = [] /\ buf cb0 = buf cb /\ size cb0 = size cb /\
   circbuf_space_left cb0 = size cb - 1) /\
  pushed.2 = n /\ popped.2 = n /\
  take (Z.to_nat n) popped.1.1 = src /\
  contents popped.1.2 = [].
Proof.
  intros Hwf Hn Hsz Hdest cb0 pushed popped.
  assert (Hwf0 : circbuf_wf cb0).
  { destruct Hwf as (?&?&?&?). unfold circbuf_wf, cb0. simpl. tauto. }
  assert (Hc0 : contents cb0 = []).
  { apply contents_nil_iff; done. }
  assert (Hsp0 : circbuf_space_left cb0 = size cb - 1).
  { rewrite circbuf_space_left_contents, Hc0 by done. simpl. lia. }
  split; [done|]. subst pushed popped.
  destruct (circbuf_push_from_linear_all cb0 src n Hwf0 Hn)
    as (cb1 & -> & Hwf1 & Hs1 & Hc1); [lia|].
  cbn [fst snd]. rewrite Hc0, app_nil_l in Hc1.
  destruct (circbuf_pop_to_linear_all dest cb1 n Hwf1)
    as (cb2 & -> & _ & _ & Hc2); [lia|done|rewrite Hc1; lia|].
  cbn [fst snd]. rewrite Hc1, Hc2, Hc1.
  assert (Z.to_nat n = length src) as -> by lia.
  rewrite (take_ge src (length src)) by lia.
  rewrite take_app_length. repeat split; try done. by apply drop_ge.
Qed.

Lemma empty_then_round_trip_witness :
  take 3 (circbuf_pop_to_linear (str "....")
            (circbuf_push_from_linear (circbuf_empty cb_full4) (str "abc") 3).1
            3).1.1
  = str "abc".
Proof.
  refine (proj1 (proj2 (proj2 (proj2
    (empty_then_round_trip cb_full4 (str "abc") (str "....") 3 _ _ _ _))))).
  - unfold circbuf_wf. vm_compute. repeat split; discriminate.
  - reflexivity.
  - vm_compute. discriminate.
  - vm_compute. discriminate.
Defined.

(** X6. A buffer just allocated with size [N >= 1] holds nothing, whatever
    the block it was given holds; filled from [src] it takes [N - 1] bytes
    at most: of [n] bytes offered, the first [min n (N - 1)] are stored,
    and that is its length. *)
Theorem fresh_buffer_fills_to_capacity (N : Z) (mem src : list char) (n : Z) :
  0 < N ->
  Z.of_nat (length mem) = N ->
  0 <= n <= Z.of_nat (length src) ->
  let r := circbuf_push_from_linear (circbuf_alloc mem N) src n in
  contents (circbuf_alloc mem N) = [] /\
  r.2 = Z.min n (N - 1) /\
  circbuf_len r.1 = Z.min n (N - 1) /\
  contents r.1 = take (Z.to_nat (Z.min n (N - 1))) src.
Proof.
  intros HN Hmem Hn r.
  assert (Hwf : circbuf_wf (circbuf_alloc mem N)).
  { unfold circbuf_wf. simpl. lia. }
  assert (Hc : contents (circbuf_alloc mem N) = []).
  { by apply contents_nil_iff. }
  assert (Hsp : circbuf_space_left (circbuf_alloc mem N) = N - 1).
  { rewrite circbuf_space_left_contents, Hc by done. simpl. lia. }
  destruct (push_from_linear_stops_when_full_aux (circbuf_alloc mem N) src n Hwf)
    as (H1 & H2 & Hwf' & _); [lia|].
  fold r in H1, H2, Hwf'. rewrite Hsp in H1.
  replace (Z.max 0 (Z.min n (N - 1))) with (Z.min n (N - 1)) in H1 by lia.
  rewrite Hc, app_nil_l, H1 in H2.
  split; [done|]. split; [done|]. split; [|done].
  rewrite (circbuf_len_contents r.1), H2, length_take by done. lia.
Qed.

Lemma fresh_buffer_fills_to_capacity_witness :
  (circbuf_push_from_linear (circbuf_alloc (str "????") 4) (str "abcde") 5).2
    = 3 /\
  contents
    (circbuf_push_from_linear (circbuf_alloc (str "????") 4) (str "abcde") 5).1
    = str "abc".
Proof.
  destruct (fresh_buffer_fills_to_capacity 4 (str "????") (str "abcde") 5)
    as (_ & H1 & _ & H2).
  - lia.
  - reflexivity.
  - vm_compute. split; discriminate.
  - split; [exact H1|exact H2].
Defined.

(** The printing loop reads the array and the size only. *)
Lemma print_data_loop_ext todo : forall cb cb' r,
  buf cb' = buf cb -> size cb' = size cb ->
  print_data_loop todo cb' r = print_data_loop todo cb r.
Proof.
  induction todo as [|todo IH]; intros cb cb' r Hb Hs; simpl; [done|].
  rewrite Hb, Hs. f_equal. by apply IH.
Qed.

(** Started at the read index, for as many bytes as are held, the loop
    prints the bytes held, oldest first. *)
Lemma print_data_loop_contents l : forall cb,
  circbuf_wf cb -> contents cb = l ->
  print_data_loop (length l) cb (read_idx cb) = flat_map show_byte l.
Proof.
  induction l as [|x l IH]; intros cb Hwf Hc; [done|].
  assert (Hne : read_idx cb <> write_idx cb).
  { intros E. apply contents_nil_iff in E; [|done]. congruence. }
  destruct (circbuf_pop_ok cb NUL Hwf Hne) as [_ Hpop].
  pose proof (circbuf_pop_wf cb NUL Hwf) as Hwf'.
  pose proof (circbuf_pop_buf cb NUL) as Hb.
  pose proof (circbuf_pop_size cb NUL) as Hs.
  unfold circbuf_pop in *.
  destruct (Z.eqb_spec (read_idx cb) (write_idx cb)); [done|].
  simpl in Hpop, Hwf', Hb, Hs.
  rewrite Hc in Hpop. injection Hpop as Hx Hl.
  cbn [length print_data_loop flat_map]. rewrite <- Hx. f_equal.
  rewrite <- (IH _ Hwf' (eq_sym Hl)). simpl.
  by apply print_data_loop_ext.
Qed.

(** X7. [circbuf_print_data] prints the two indices, the length and the
    size, one a line, then on the line ["Data: "] the bytes held, oldest
    first and across the end of the array, each by [show_byte] (newline,
    carriage return and tab spelled out, a space after each), or
    ["(empty)"] when there is none. *)
Theorem print_data_shows_contents (cb : Circbuf) :
  circbuf_wf cb ->
  circbuf_print_data cb
  = str "write_idx: " ++ decimal (write_idx cb) ++ [LF]
    ++ str "read_idx: " ++ decimal (read_idx cb) ++ [LF]
    ++ str "length: " ++ decimal (Z.of_nat (length (contents cb))) ++ [LF]
    ++ str "size: " ++ decimal (size cb) ++ [LF]
    ++ str "Data: "
    ++ (match contents cb with
        | [] => str "(empty)"
        | _ => flat_map show_byte (contents cb)
        end)
    ++ [LF].
Proof.
  intros Hwf. unfold circbuf_print_data. cbv zeta.
  rewrite (circbuf_len_contents cb Hwf).
  do 17 f_equal.
  destruct (contents cb) as [|x l] eqn:Ec; [done|].
  destruct (Z.eqb_spec (Z.of_nat (length (x :: l))) 0) as [E|_];
    [simpl in E; lia|].
  rewrite Nat2Z.id. by apply print_data_loop_contents.
Qed.

Lemma print_data_shows_contents_witness :
  circbuf_print_data inbox_hi_yo
  = str "write_idx: 5" ++ [LF] ++ str "read_idx: 0" ++ [LF]
    ++ str "length: 5" ++ [LF] ++ str "size: 128" ++ [LF]
    ++ str "Data: h i \n y o " ++ [LF].
Proof.
  refine (print_data_shows_contents inbox_hi_yo _).
  unfold circbuf_wf. vm_compute. repeat split; discriminate.
Defined.

(* ===================================================================== *)
(** * Part IX. More on the registry *)
(* ===================================================================== *)

Lemma client_at_None_lookup Chat j :
  0 <= j < Z.of_nat (length (clients Chat)) ->
  client_at Chat j = None -> clients Chat !! Z.to_nat j = Some None.
Proof.
  intros Hj Hfree. unfold client_at in Hfree.
  destruct (Z.ltb_spec j 0); [lia|].
  destruct (lookup_lt_is_Some_2 (clients Chat) (Z.to_nat j)) as [o Ho]; [lia|].
  rewrite Ho in Hfree |- *. simpl in Hfree. by subst o.
Qed.

(** What [snprintf] prints holds no null byte. *)
Lemma string_of_uint_no_NUL (u : Decimal.uint) :
  Forall (fun x => x <> NUL) (str (NilEmpty.string_of_uint u)).
Proof.
  induction u as [|u IH|u IH|u IH|u IH|u IH|u IH|u IH|u IH|u IH|u IH];
    cbn [NilEmpty.string_of_uint str list_ascii_of_string];
    [constructor|..]; (constructor; [discriminate|exact IH]).
Qed.

Lemma decimal_no_NUL (z : Z) : Forall (fun x => x <> NUL) (decimal z).
Proof.
  unfold decimal, NilZero.string_of_int.
  assert (forall u : Decimal.uint,
            Forall (fun x => x <> NUL) (str (NilZero.string_of_uint u))) as Hu.
  { intros u. destruct u; try apply string_of_uint_no_NUL.
    repeat constructor. discriminate. }
  destruct (Z.to_int z) as [u|u]; [apply Hu|].
  cbn [str list_ascii_of_string]. constructor; [discriminate|apply Hu].
Qed.

Lemma cstr_app_no_NUL pre l :
  Forall (fun x => x <> NUL) pre -> cstr (pre ++ l) = pre ++ cstr l.
Proof.
  induction 1 as [|x pre Hx _ IH]; cbn [cstr app]; [done|].
  rewrite (proj2 (ceq_false x NUL)) by done. by rewrite IH.
Qed.

(** The nickname [createClient] leaves: what was printed, and then what
    the memory held behind it. *)
Lemma createClient_fields fd0 nickmem mem Chat c Chat' :
  createClient fd0 nickmem mem Chat = Ok (Some (c, Chat')) ->
  nick c = (str "user:" ++ decimal fd0)
             ++ cstr (drop (length (str "user:" ++ decimal fd0)) nickmem) /\
  read_cb c = circbuf_alloc mem READBUF_SIZE.
Proof.
  assert (E : cstr ((str "user:" ++ decimal fd0)
                      ++ drop (length (str "user:" ++ decimal fd0)) nickmem)
              = (str "user:" ++ decimal fd0)
                  ++ cstr (drop (length (str "user:" ++ decimal fd0)) nickmem)).
  { apply cstr_app_no_NUL, Forall_app. split; [|apply decimal_no_NUL].
    repeat constructor; discriminate. }
  unfold createClient. cbn [fd].
  destruct (_ && _); [|done]. destruct (client_at Chat fd0); [done|].
  intros [= <- _]. split; [exact E|done].
Qed.

(** X8. A new connection.  [createClient] does not check the descriptor
    it is given: with a descriptor outside the [clients] array, as the -1
    of a failed [accept], the slot it reads and writes is outside the
    array; with one inside whose slot is taken the [assert] fails.
    Otherwise the client is registered in the slot of its descriptor,
    with an inbox that holds nothing and has room for [READBUF_SIZE - 1]
    bytes, whatever the allocated block held.  No terminator is written
    behind the nickname: it reads as ["user:<fd>"] followed by what the
    memory holds from there up to the first null byte, so as
    ["user:<fd>"] when the byte there is null and as something longer when
    it is not.  The welcome text is written to the new client and to no
    one else; every other slot is as before; and the state is again a
    state of the registry. *)
Theorem accept_registers_and_greets (Chat : chatState) (fd0 : Z)
    (nickmem mem : list char) :
  chat_reach Chat ->
  Z.of_nat (length mem) = READBUF_SIZE ->
  let printed := str "user:" ++ decimal fd0 in
  (accept_client fd0 nickmem mem Chat = Fault <-> ~ 0 <= fd0 < MAX_CLIENTS) /\
  (accept_client fd0 nickmem mem Chat = Ok None <->
   0 <= fd0 < MAX_CLIENTS /\ is_Some (client_at Chat fd0)) /\
  (forall Chat' ws,
     accept_client fd0 nickmem mem Chat = Ok (Some (Chat', ws)) ->
     exists c,
       client_at Chat' fd0 = Some c /\
       fd c = fd0 /\
       nick c = printed ++ cstr (drop (length printed) nickmem) /\
       (nickmem !! length printed = Some NUL -> nick c = printed) /\
       (forall b, nickmem !! length printed = Some b -> b <> NUL ->
                  printed ++ [b] `prefix_of` nick c) /\
       contents (read_cb c) = [] /\
       circbuf_space_left (read_cb c) = READBUF_SIZE - 1 /\
       inbox_ok c /\
       ws = [(fd0, welcome_msg)] /\
       (forall j, j <> fd0 -> client_at Chat' j = client_at Chat j) /\
       numclients Chat' = numclients Chat + 1 /\
       maxclient Chat' = Z.max fd0 (maxclient Chat) /\
       chat_reach Chat').
Proof.
  intros Hr Hmem printed. pose proof (chat_reach_inv _ Hr) as Hinv.
  split; [|split].
  - unfold accept_client, createClient. cbn [fd].
    destruct (Z.leb_spec 0 fd0); destruct (Z.ltb_spec fd0 MAX_CLIENTS);
      cbn [andb]; try (split; [intros _; lia|done]).
    destruct (client_at Chat fd0); (split; [done|lia]).
  - unfold accept_client, createClient. cbn [fd].
    destruct (Z.leb_spec 0 fd0); destruct (Z.ltb_spec fd0 MAX_CLIENTS);
      cbn [andb]; try (split; [done|lia]).
    destruct (client_at Chat fd0) as [c|] eqn:Hc.
    + split; [intros _; split; [lia|eauto]|done].
    + split; [done|]. by intros [_ [? ?] ].
  - intros Chat' ws. unfold accept_client.
    destruct (createClient fd0 nickmem mem Chat) as [ [ [c Chat1]|]|] eqn:Hc;
      try done.
    intros [= <- <-].
    assert (chat_reach Chat1) as Hr1 by (by eapply chat_create).
    destruct (createClient_fields _ _ _ _ _ _ Hc) as [Hnick Hcb].
    fold printed in Hnick.
    apply createClient_Some in Hc as (Hrange & Hfree & Hfdc & Hcl & Hn & Hm & Hs).
    pose proof (client_at_insert Chat Chat1 fd0 (Some c) Hcl
                  ltac:(rewrite (inv_length _ Hinv); lia)) as Hat.
    assert (Hwf : circbuf_wf (read_cb c)).
    { rewrite Hcb. unfold circbuf_wf, READBUF_SIZE in *. simpl. lia. }
    assert (Hcont : contents (read_cb c) = []).
    { apply contents_nil_iff; [done|]. by rewrite Hcb. }
    assert (Hsp : circbuf_space_left (read_cb c) = READBUF_SIZE - 1).
    { rewrite circbuf_space_left_contents, Hcont, Hcb by done. simpl. lia. }
    exists c. rewrite Hat, Z.eqb_refl, Hfdc.
    split; [done|]. split; [done|]. split; [done|]. split.
    { intros Hb. rewrite Hnick, (drop_S _ _ _ Hb). cbn [cstr].
      rewrite (proj2 (ceq_true NUL NUL)) by done. by rewrite app_nil_r. }
    split.
    { intros b Hb Hne. rewrite Hnick, (drop_S _ _ _ Hb). cbn [cstr].
      rewrite (proj2 (ceq_false b NUL)) by done.
      apply prefix_app, prefix_cons, prefix_nil. }
    split; [done|]. split; [done|]. split.
    { split; [done|]. split; [by rewrite Hcb|]. split; [by rewrite Hcont|].
      rewrite Hsp. unfold READBUF_SIZE. lia. }
    split; [done|]. split.
    { intros j Hj. rewrite Hat. by destruct (Z.eqb_spec j fd0). }
    done.
Qed.

Lemma accept_registers_and_greets_witness :
  accept_client (-1) fresh_nick fresh_block (chat_with [4; 6]) = Fault <->
  ~ 0 <= -1 < MAX_CLIENTS.
Proof.
  refine (proj1 (accept_registers_and_greets (chat_with [4; 6]) (-1)
                   fresh_nick fresh_block (chat_with_reach [4; 6]) _)).
  reflexivity.
Defined.

(** A new client, greeted, its nickname as the memory it got makes it; a
    second connection on a descriptor in use stops at the [assert]; the -1
    of a failed [accept] and a descriptor behind the array are used as
    indices all the same. *)
Example accept_sample :
  (match accept_client 9 fresh_nick fresh_block (chat_with [4; 6]) with
   | Ok (Some (Chat', ws)) =>
       ws = [(9, welcome_msg)] /\ occupied_ids Chat' = [4; 6; 9] /\
       nick <$> client_at Chat' 9 = Some (str "user:9")
   | _ => False
   end) /\
  (match accept_client 9 (str "??????xy" ++ [NUL]) fresh_block
           (chat_with [4; 6]) with
   | Ok (Some (Chat', ws)) =>
       nick <$> client_at Chat' 9 = Some (str "user:9xy")
   | _ => False
   end) /\
  accept_client 6 fresh_nick fresh_block (chat_with [4; 6]) = Ok None /\
  accept_client (-1) fresh_nick fresh_block (chat_with [4; 6]) = Fault /\
  accept_client 1000 fresh_nick fresh_block (chat_with [4; 6]) = Fault.
Proof. vm_compute. repeat split. Qed.

Lemma filter_ext_in {A} (P Q : A -> Prop) `{!forall x, Decision (P x)}
    `{!forall x, Decision (Q x)} (l : list A) :
  (forall x, x ∈ l -> (P x <-> Q x)) -> filter P l = filter Q l.
Proof.
  induction l as [|x l IH]; intros Hext; [done|].
  rewrite !filter_cons.
  rewrite IH by (intros y Hy; apply Hext; by right).
  destruct (decide (P x)) as [HP|HP]; destruct (decide (Q x)) as [HQ|HQ];
    try done; exfalso; apply (Hext x ltac:(left)) in HP || apply HP;
    try done; by apply (Hext x ltac:(left)).
Qed.

Lemma count_occupied_app cl1 cl2 :
  count_occupied (cl1 ++ cl2) = count_occupied cl1 + count_occupied cl2.
Proof. induction cl1 as [| [?|] cl1 IH]; simpl; lia. Qed.

(** [count_occupied] counts the occupied indices. *)
Lemma count_occupied_indices cl :
  count_occupied cl
  = Z.of_nat (length (filter (fun j : Z => is_Some (mjoin (cl !! Z.to_nat j)))
                        (seqZ 0 (Z.of_nat (length cl))))).
Proof.
  induction cl as [|x cl IH] using rev_ind; [done|].
  rewrite count_occupied_app, length_app, Nat.add_1_r, seqZ_S, filter_app,
    length_app, Nat2Z.inj_add.
  f_equal.
  - rewrite IH. do 2 f_equal. apply filter_ext_in.
    intros j Hj%elem_of_seqZ. by rewrite lookup_app_l by lia.
  - assert ((cl ++ [x]) !! Z.to_nat (0 + Z.of_nat (length cl)) = Some x) as E.
    { rewrite Z.add_0_l, Nat2Z.id, lookup_app_r, Nat.sub_diag by lia. done. }
    destruct x as [c|].
    + rewrite filter_cons_True by (rewrite E; simpl; eauto). done.
    + rewrite filter_cons_False by (rewrite E; simpl; intros [? ?]; done). done.
Qed.

Lemma occupied_ids_count Chat :
  Z.of_nat (length (occupied_ids Chat)) = count_occupied (clients Chat).
Proof.
  rewrite count_occupied_indices. unfold occupied_ids. do 2 f_equal.
  apply filter_ext_in. intros j Hj%elem_of_seqZ. unfold client_at.
  destruct (Z.ltb_spec j 0); [lia|done].
Qed.

Lemma occupied_ids_NoDup Chat : NoDup (occupied_ids Chat).
Proof. apply NoDup_filter, NoDup_seqZ. Qed.

(** Reading every slot the same gives the same occupied ids. *)
Lemma occupied_ids_ext Chat Chat' (P : Z -> Prop) `{!forall j, Decision (P j)} :
  length (clients Chat') = length (clients Chat) ->
  (forall j, is_Some (client_at Chat' j) <-> P j /\ is_Some (client_at Chat j)) ->
  occupied_ids Chat' = filter P (occupied_ids Chat).
Proof.
  intros Hlen Hat. unfold occupied_ids.
  rewrite list_filter_filter, Hlen. by apply list_filter_iff.
Qed.

(** X9. [freeClient] on a registered client empties its slot and no
    other; [numclients] goes down by one; the occupied ids are the ones
    before without this one; and the state is again a state of the
    registry, so that [maxclient] is the greatest id left, or -1. *)
Theorem freeClient_unregisters (Chat : chatState) (j : Z) (c : client) :
  chat_reach Chat ->
  client_at Chat j = Some c ->
  client_at (freeClient c Chat) j = None /\
  (forall i, i <> j -> client_at (freeClient c Chat) i = client_at Chat i) /\
  numclients (freeClient c Chat) = numclients Chat - 1 /\
  occupied_ids (freeClient c Chat)
    = filter (fun i => i <> j) (occupied_ids Chat) /\
  (maxclient (freeClient c Chat) = -1 \/
   maxclient (freeClient c Chat) ∈ occupied_ids (freeClient c Chat)) /\
  (forall i, i ∈ occupied_ids (freeClient c Chat) ->
             i <= maxclient (freeClient c Chat)) /\
  chat_reach (freeClient c Chat).
Proof.
  intros Hr Hc. pose proof (chat_reach_inv _ Hr) as Hinv.
  destruct (freeClient_fields Chat j c Hinv Hc) as (Hcl & Hn & _).
  pose proof (client_at_range Chat j ltac:(eauto)) as Hj.
  pose proof (client_at_insert Chat (freeClient c Chat) j None Hcl Hj) as Hat.
  assert (chat_reach (freeClient c Chat)) as Hr' by (by eapply chat_free).
  pose proof (chat_reach_inv _ Hr') as Hinv'.
  split; [by rewrite Hat, Z.eqb_refl|].
  split. { intros i Hi. rewrite Hat. by destruct (Z.eqb_spec i j). }
  split; [done|]. split.
  { apply occupied_ids_ext; [by rewrite Hcl, length_insert|].
    intros i. rewrite Hat. destruct (Z.eqb_spec i j) as [->|].
    - split; [intros [? ?]; done|tauto].
    - tauto. }
  split.
  { destruct (inv_max _ Hinv') as [|Hm]; [by left|right].
    by apply elem_of_occupied_ids. }
  split; [|done].
  intros i Hi%elem_of_occupied_ids. by apply (inv_below _ Hinv').
Qed.

Lemma freeClient_unregisters_witness :
  occupied_ids (freeClient client_4 (chat_with [4; 6; 9]))
    = filter (fun i => i <> 4) (occupied_ids (chat_with [4; 6; 9])).
Proof.
  refine (proj1 (proj2 (proj2 (proj2
    (freeClient_unregisters (chat_with [4; 6; 9]) 4 client_4
       (chat_with_reach [4; 6; 9]) _))))).
  reflexivity.
Defined.

(** Freeing the client with the greatest descriptor brings [maxclient]
    down to the next one; freeing the last client brings it to -1. *)
Example freeClient_sample :
  match client_at (chat_with [4; 6; 9]) 9, client_at (chat_with [4]) 4 with
  | Some c9, Some c4 =>
      maxclient (freeClient c9 (chat_with [4; 6; 9])) = 6 /\
      occupied_ids (freeClient c9 (chat_with [4; 6; 9])) = [4; 6] /\
      maxclient (freeClient c4 (chat_with [4])) = -1 /\
      numclients (freeClient c4 (chat_with [4])) = 0
  | _, _ => False
  end.
Proof. vm_compute. repeat split. Qed.

Lemma length_filter_ne (l : list Z) (e : Z) :
  NoDup l ->
  Z.of_nat (length (filter (fun j => j <> e) l))
  = Z.of_nat (length l) - (if decide (e ∈ l) then 1 else 0).
Proof.
  induction 1 as [|x l Hx _ IH]; [done|].
  rewrite filter_cons. destruct (decide (x <> e)) as [Hne|Heq].
  - cbn [length]. rewrite !Nat2Z.inj_succ, IH.
    destruct (decide (e ∈ l)) as [Hin|Hin].
    + rewrite decide_True by (by right). lia.
    + rewrite decide_False; [lia|].
      intros [?|?]%elem_of_cons; [congruence|done].
  - assert (x = e) as -> by (destruct (decide (x = e)); [done|tauto]).
    rewrite decide_True by (by left).
    rewrite filter_all by (intros y Hy ->; done).
    cbn [length]. lia.
Qed.

(** X11. What a broadcast costs and whom it spares.  In every state of
    the registry [sendMsgToAllClientsBut] makes [numclients - 1] [write]
    calls when [excluded] is a registered client and [numclients]
    otherwise; each carries the text as given; none goes to [excluded],
    and none to a descriptor that is not a registered client. *)
Theorem broadcast_write_count (Chat : chatState) (excluded : Z)
    (s : list char) :
  chat_reach Chat ->
  Z.of_nat (length (sendMsgToAllClientsBut excluded s Chat))
    = numclients Chat
      - (if decide (is_Some (client_at Chat excluded)) then 1 else 0) /\
  (forall w, w ∈ sendMsgToAllClientsBut excluded s Chat ->
     w.2 = s /\ w.1 <> excluded /\ is_Some (client_at Chat w.1)).
Proof.
  intros Hr. pose proof (chat_reach_inv _ Hr) as Hinv.
  assert (E : sendMsgToAllClientsBut excluded s Chat
    = (fun j : Z => (j, s)) <$>
        filter (fun j => j <> excluded) (occupied_ids Chat)).
  { unfold sendMsgToAllClientsBut.
    rewrite (broadcast_over Chat excluded s _ (inv_fd _ Hinv)).
    by rewrite occupied_ids_upto. }
  rewrite E. split.
  - rewrite length_fmap, length_filter_ne by apply occupied_ids_NoDup.
    rewrite occupied_ids_count, <- (inv_count _ Hinv).
    destruct (decide (excluded ∈ occupied_ids Chat)) as [Hin|Hin];
      destruct (decide (is_Some (client_at Chat excluded))) as [Hocc|Hocc];
      try done; exfalso.
    + by apply elem_of_occupied_ids in Hin.
    + by apply elem_of_occupied_ids in Hocc.
  - intros w (j & -> & Hj)%list_elem_of_fmap.
    apply list_elem_of_filter in Hj as [Hne Hj].
    apply elem_of_occupied_ids in Hj. done.
Qed.

Lemma broadcast_write_count_witness :
  Z.of_nat (length (sendMsgToAllClientsBut 6 (str "hi") (chat_with [4; 6; 9])))
  = numclients (chat_with [4; 6; 9])
    - (if decide (is_Some (client_at (chat_with [4; 6; 9]) 6)) then 1 else 0).
Proof.
  exact (proj1 (broadcast_write_count (chat_with [4; 6; 9]) 6 (str "hi")
                  (chat_with_reach [4; 6; 9]))).
Defined.

(** X20. The set given to [select].  In every state of the registry
    [read_set] holds the listening socket and then exactly the registered
    clients, in ascending order; and [maxfd + 1], the first argument of
    [select], is above every descriptor of the set. *)
Theorem select_set_is_covered (Chat : chatState) :
  chat_reach Chat ->
  read_set Chat = serversock Chat :: occupied_ids Chat /\
  Forall (fun f => f < maxfd Chat + 1) (read_set Chat).
Proof.
  intros Hr. pose proof (chat_reach_inv _ Hr) as Hinv.
  assert (E : read_set Chat = serversock Chat :: occupied_ids Chat).
  { unfold read_set. f_equal. rewrite <- (occupied_ids_upto Chat Hinv).
    induction (seq 0 (Z.to_nat (maxclient Chat + 1))) as [|j l IH]; [done|].
    cbn [flat_map]. rewrite fmap_cons, filter_cons, IH.
    destruct (client_at Chat (Z.of_nat j)) as [c|].
    - rewrite decide_True by eauto. done.
    - rewrite decide_False by (intros [? ?]; done). done. }
  split; [done|]. rewrite E. unfold maxfd. constructor.
  - destruct (Z.ltb_spec (maxclient Chat) (serversock Chat)); lia.
  - apply Forall_forall. intros j Hj%elem_of_occupied_ids.
    apply (inv_below _ Hinv) in Hj.
    destruct (Z.ltb_spec (maxclient Chat) (serversock Chat)); lia.
Qed.

Lemma select_set_is_covered_witness :
  read_set (chat_with [9; 4; 6]) = [3; 4; 6; 9] /\
  Forall (fun f => f < 10) (read_set (chat_with [9; 4; 6])).
Proof.
  destruct (select_set_is_covered (chat_with [9; 4; 6])
              (chat_with_reach [9; 4; 6])) as [H1 H2].
  split; [exact H1|exact H2].
Defined.

(* ===================================================================== *)
(** * Part X. More on the handler *)
(* ===================================================================== *)

Lemma serve_client_reach_witness :
  exists sv,
    serve_client 4 (Bytes nice_to_meet_you) (chat_with [4; 6]) scratch_x = Ok sv /\
    chat_reach (sv_chat sv).
Proof.
  destruct (serve_client 4 (Bytes nice_to_meet_you) (chat_with [4; 6]) scratch_x)
    as [sv|] eqn:E; [|vm_compute in E; discriminate E].
  exists sv. split; [reflexivity|].
  exact (serve_client_reach 4 (Bytes nice_to_meet_you) (chat_with [4; 6])
           scratch_x sv (chat_with_reach [4; 6]) E).
Defined.

(** ** What a read leaves alone *)

Lemma client_at_store_ne Chat j c i :
  0 <= j -> i <> j ->
  client_at (store_client j c Chat) i = client_at Chat i.
Proof.
  intros Hj Hne. unfold client_at, store_client. cbn [clients].
  destruct (Z.ltb_spec i 0); [done|].
  rewrite list_lookup_insert_ne by lia. done.
Qed.

Lemma extract_round_store j c Chat readbuf c2 Chat2 rb2 m ws :
  extract_round j c Chat readbuf = Ok (c2, Chat2, rb2, m, ws) ->
  Chat2 = store_client j c2 Chat.
Proof.
  unfold extract_round.
  destruct (pop_until_sep _ _ _ _ _) as [ [ [ [cb' rb] idx] pops]|];
    cbn [mbind outcome_bind]; [|done].
  destruct (_ <? _); [|done].
  destruct (process_message _ _ _ _) as [ [c3 rb3] ws3].
  by intros [= <- <- <- <- <-].
Qed.

Lemma extract_rounds_store j k : forall c Chat readbuf Chat' rb' ms ws,
  extract_rounds k j c Chat readbuf = Ok (Chat', rb', ms, ws) ->
  Chat' = Chat \/ exists c', Chat' = store_client j c' Chat.
Proof.
  induction k as [|k IH]; intros c Chat readbuf Chat' rb' ms ws;
    cbn [extract_rounds].
  - intros [= <- <- <- <-]. by left.
  - destruct (extract_round j c Chat readbuf)
      as [ [ [ [ [c2 Chat2] rb2] m] ws2]|] eqn:E1;
      cbn [mbind outcome_bind]; [|done].
    apply extract_round_store in E1 as ->.
    destruct (extract_rounds k j c2 _ rb2)
      as [ [ [ [Chat3 rb3] ms3] ws3]|] eqn:E2;
      cbn [mbind outcome_bind]; [|done].
    intros [= <- <- <- <-]. right.
    destruct (IH _ _ _ _ _ _ _ E2) as [->|(c' & ->)]; [by exists c2|].
    exists c'. by rewrite store_client_twice.
Qed.

Lemma freeClient_clients c Chat :
  clients (freeClient c Chat) = <[Z.to_nat (fd c) := None]> (clients Chat) /\
  serversock (freeClient c Chat) = serversock Chat.
Proof. unfold freeClient. by destruct (_ =? _). Qed.

(** What the handler does for slot [j] stays in slot [j]. *)
Lemma serve_client_frame_aux (Chat : chatState) (j : Z) (inp : sock_input)
    (readbuf : list char) (sv : served) :
  chat_reach Chat ->
  serve_client j inp Chat readbuf = Ok sv ->
  (forall i, i <> j -> client_at (sv_chat sv) i = client_at Chat i) /\
  serversock (sv_chat sv) = serversock Chat.
Proof.
  intros Hr. unfold serve_client.
  destruct (client_at Chat j) as [c|] eqn:Hat; [|by intros [= <-] ].
  pose proof (inv_fd _ (chat_reach_inv _ Hr) _ _ Hat) as Hfd.
  pose proof (client_at_range Chat j ltac:(eauto)) as Hj.
  set (cb := (circbuf_push_from_linear _ _ _).1).
  set (c1 := {| fd := fd c; nick := nick c; read_cb := cb |}).
  destruct (_ && _); [|done].
  destruct (_ <=? 0).
  { intros [= <-]. cbn [sv_chat].
    destruct (freeClient_clients c1 (store_client j c1 Chat)) as [Hcl Hs].
    split; [|by rewrite Hs].
    intros i Hi. unfold client_at. rewrite Hcl. cbn [fd c1 clients store_client].
    destruct (Z.ltb_spec i 0); [done|].
    rewrite Hfd, !list_lookup_insert_ne by lia. done. }
  destruct (_ || _).
  2:{ intros [= <-]. cbn [sv_chat].
      split; [|done]. intros i Hi. apply client_at_store_ne; [lia|done]. }
  destruct (extract_rounds _ j c1 _ readbuf)
    as [ [ [ [Chat' rb'] ms] ws]|] eqn:E;
    cbn [mbind outcome_bind]; [|done].
  intros [= <-]. cbn [sv_chat].
  destruct (extract_rounds_store _ _ _ _ _ _ _ _ _ E) as [->|(c' & ->)].
  - split; [|done]. intros i Hi. apply client_at_store_ne; [lia|done].
  - rewrite store_client_twice. split; [|done].
    intros i Hi. apply client_at_store_ne; [lia|done].
Qed.

(** X14. A read on one client leaves the others alone: in every state of
    the registry, whatever the handler does for slot [j], every other
    slot holds afterwards the client it held before, with the same
    nickname and the same inbox, and the listening socket is the same. *)
Theorem serve_client_frame (Chat : chatState) (j : Z) (inp : sock_input)
    (readbuf : list char) (sv : served) :
  chat_reach Chat ->
  serve_client j inp Chat readbuf = Ok sv ->
  (forall i, i <> j -> client_at (sv_chat sv) i = client_at Chat i) /\
  serversock (sv_chat sv) = serversock Chat.
Proof. apply serve_client_frame_aux. Qed.

Lemma serve_client_frame_witness :
  exists sv,
    serve_client 4 (Bytes nice_to_meet_you) (chat_with [4; 6]) scratch_x = Ok sv /\
    client_at (sv_chat sv) 6 = client_at (chat_with [4; 6]) 6.
Proof.
  destruct (serve_client 4 (Bytes nice_to_meet_you) (chat_with [4; 6]) scratch_x)
    as [sv|] eqn:E; [|vm_compute in E; discriminate E].
  exists sv. split; [reflexivity|].
  refine (proj1 (serve_client_frame (chat_with [4; 6]) 4 (Bytes nice_to_meet_you)
                   scratch_x sv (chat_with_reach [4; 6]) E) 6 _).
  lia.
Defined.

(** ** The inbox between two reads *)

Lemma ends_with_sep_length m : ends_with_sep m -> (1 <= length m)%nat.
Proof. intros (body & -> & _). rewrite length_app. simpl. lia. Qed.

Lemma concat_length_ge (ms : list (list char)) :
  Forall ends_with_sep ms -> (length ms <= length (concat ms))%nat.
Proof.
  induction 1 as [|m ms Hm _ IH]; [done|].
  apply ends_with_sep_length in Hm. simpl. rewrite length_app. lia.
Qed.

(** X13. Between two reads every inbox has room: after a read that the
    handler gets through, the client, when still registered, has an inbox
    allocated with [READBUF_SIZE], without separator, and with room for at
    least two bytes.  So the next [read] on it is asked for at least one
    byte, and a count of zero bytes read means the end of the stream. *)
Theorem serve_client_keeps_room (Chat : chatState) (j : Z) (inp : sock_input)
    (readbuf : list char) (c : client) (sv : served) :
  chat_reach Chat ->
  client_at Chat j = Some c ->
  inbox_ok c ->
  Z.of_nat (length readbuf) = READBUF_SIZE ->
  serve_client j inp Chat readbuf = Ok sv ->
  forall c', client_at (sv_chat sv) j = Some c' ->
    inbox_ok c' /\ 2 <= circbuf_space_left (read_cb c') /\
    1 <= circbuf_space_left (read_cb c') - 1.
Proof.
  intros Hr Hat Hok Hrb Hsv c' Hc'.
  destruct (serve_client_inbox j inp Chat readbuf c sv Hr Hat Hok Hrb Hsv)
    as [_ Hok']. specialize (Hok' c' Hc').
  split; [done|]. enough (2 <= circbuf_space_left (read_cb c')) by lia.
  destruct Hok as (Hwf & Hsz & Hsep & Hsp).
  pose proof (inv_fd _ (chat_reach_inv _ Hr) _ _ Hat) as Hfd.
  pose proof (circbuf_len_range _ (circbuf_wf_idx _ Hwf)) as Hlen.
  revert Hsv. unfold serve_client. rewrite Hat.
  destruct inp as [pending|]; [|done].
  set (raw := read_bytes (Bytes pending) (circbuf_space_left (read_cb c) - 1)).
  change (read_result (Bytes pending) (circbuf_space_left (read_cb c) - 1))
    with (Z.of_nat (length raw)).
  assert (Z.of_nat (length raw) <= circbuf_space_left (read_cb c) - 1) as Hraw.
  { subst raw. unfold read_bytes.
    destruct (Z.ltb_spec (circbuf_space_left (read_cb c) - 1) 0); [lia|].
    rewrite length_take. lia. }
  destruct (serve_client_push (read_cb c) raw Hwf ltac:(lia))
    as (cb1 & -> & Hwf1 & Hs1 & Hc1). cbn [fst].
  set (c1 := {| fd := fd c; nick := nick c; read_cb := cb1 |}).
  assert (Hsp1 : circbuf_space_left cb1
                 = circbuf_space_left (read_cb c) - Z.of_nat (length raw)).
  { rewrite !circbuf_space_left_contents, Hc1, length_app, Hs1 by done. lia. }
  assert (Hat1 : client_at (store_client j c1 Chat) j = Some c1)
    by (by eapply client_at_store).
  destruct (_ && _); [|done].
  destruct (Z.leb_spec (Z.of_nat (length raw)) 0).
  { (* the client is freed: no client in the slot *)
    intros [= <-]. exfalso. revert Hc'. cbn [sv_chat].
    unfold client_at.
    destruct (freeClient_clients c1 (store_client j c1 Chat)) as [-> _].
    cbn [fd c1 clients store_client].
    destruct (Z.ltb_spec j 0); [done|].
    pose proof (client_at_range _ _ (mk_is_Some _ _ Hat)) as Hj.
    rewrite Hfd, list_lookup_insert_eq; [done|].
    rewrite length_insert. lia. }
  cbn [read_cb]. fold c1.
  destruct (Z.gtb_spec (count_sep raw) 0) as [Hk|Hk]; cbn [orb].
  - destruct (Z.eqb_spec (count_sep raw) 0); [lia|].
    destruct (extract_rounds_spec j (Z.to_nat (count_sep raw)) c1
                (store_client j c1 Chat) readbuf)
      as (Chat' & rb' & ms & ws & c2 & -> & Hms & Hall & Hat' & Hcat & _ & Hwf'
          & Hs' & _); try done.
    { simpl. lia. }
    { simpl. rewrite Hc1, count_sep_app, Hsep. lia. }
    cbn [mbind outcome_bind]. intros [= <-]. cbn [sv_chat] in Hc'.
    rewrite Hat' in Hc'. injection Hc' as <-.
    pose proof (concat_length_ge ms Hall) as Hge.
    simpl in Hcat, Hs'.
    rewrite (circbuf_space_left_contents (read_cb c2)) by done.
    rewrite (circbuf_space_left_contents cb1) in Hsp1 by done.
    rewrite <- Hcat, length_app in Hsp1. lia.
  - pose proof (count_sep_nonneg raw) as Hk0.
    assert (count_sep raw = 0) as Hraw0 by lia. rewrite Hraw0.
    assert (Hsep1 : count_sep (contents (read_cb c1)) = 0).
    { simpl. rewrite Hc1, count_sep_app, Hsep, Hraw0. done. }
    destruct (Z.leb_spec (circbuf_space_left (read_cb c1)) 1).
    + change (Z.to_nat (if 0 =? 0 then 1 else 0)) with 1%nat.
      cbn [extract_rounds].
      destruct (extract_round j c1 (store_client j c1 Chat) readbuf)
        as [ [ [ [ [c2 Chat2] rb2] m] ws2]|] eqn:E;
        cbn [mbind outcome_bind]; [|done].
      assert (size (read_cb c1) = Z.of_nat (length readbuf)) as Hs1'
        by (simpl; congruence).
      destruct (extract_round_no_sep j c1 _ _ _ _ _ _ _ Hwf1 Hs1' Hsep1 E)
        as (Hwf2 & Hs2 & Hc2 & _ & -> & _).
      intros [= <-]. cbn [sv_chat] in Hc'.
      rewrite store_client_twice, (client_at_store _ _ _ c2 Hat) in Hc'.
      injection Hc' as <-.
      rewrite (circbuf_space_left_contents (read_cb c2)), Hc2 by done.
      simpl in Hs2. unfold READBUF_SIZE in *. simpl. lia.
    + intros [= <-]. cbn [sv_chat] in Hc'. rewrite Hat1 in Hc'.
      injection Hc' as <-. simpl in *. lia.
Qed.

Lemma serve_client_keeps_room_witness :
  exists sv c',
    serve_client 4 (Bytes nice_to_meet_you) (chat_with [4; 6]) scratch_x = Ok sv /\
    client_at (sv_chat sv) 4 = Some c' /\
    2 <= circbuf_space_left (read_cb c').
Proof.
  eexists _, _.
  split; [vm_compute; reflexivity|]. split; [vm_compute; reflexivity|].
  refine (proj1 (proj2 (serve_client_keeps_room (chat_with [4; 6]) 4
    (Bytes nice_to_meet_you) scratch_x client_4 _
    (chat_with_reach [4; 6]) _ _ _ _ _ _))).
  - reflexivity.
  - unfold inbox_ok, circbuf_wf. vm_compute. repeat split; discriminate.
  - reflexivity.
  - vm_compute. reflexivity.
  - vm_compute. reflexivity.
Defined.

(** ** Reads that take no message out *)

(** X15. A read that brings bytes without separator, and leaves the inbox
    room for more than one byte, takes no message out and writes to no
    one: the bytes are appended to the inbox, behind what it held, and
    the scratch buffer is not touched. *)
Theorem partial_line_is_buffered (Chat : chatState) (j : Z) (c : client)
    (pending readbuf : list char) :
  client_at Chat j = Some c ->
  circbuf_wf (read_cb c) ->
  size (read_cb c) = READBUF_SIZE ->
  let raw := read_bytes (Bytes pending) (circbuf_space_left (read_cb c) - 1) in
  raw <> [] ->
  count_sep raw = 0 ->
  1 < circbuf_space_left (read_cb c) - Z.of_nat (length raw) ->
  exists cb1,
    serve_client j (Bytes pending) Chat readbuf
      = Ok {| sv_chat :=
                store_client j
                  {| fd := fd c; nick := nick c; read_cb := cb1 |} Chat;
              sv_readbuf := readbuf; sv_messages := []; sv_writes := [] |} /\
    contents cb1 = contents (read_cb c) ++ raw /\
    circbuf_wf cb1 /\ size cb1 = READBUF_SIZE.
Proof.
  intros Hat Hwf Hsz raw Hraw Hsep Hroom.
  pose proof (circbuf_len_range _ (circbuf_wf_idx _ Hwf)) as Hlen.
  assert (0 < Z.of_nat (length raw)) as Hpos.
  { destruct raw; [done|simpl; lia]. }
  destruct (serve_client_push (read_cb c) raw Hwf ltac:(lia))
    as (cb1 & Epush & Hwf1 & Hs1 & Hc1).
  exists cb1. split; [|split; [done|split; [done|congruence] ] ].
  unfold serve_client. rewrite Hat.
  change (read_result (Bytes pending) (circbuf_space_left (read_cb c) - 1))
    with (Z.of_nat (length raw)).
  fold raw. rewrite Epush. cbn [fst read_cb].
  assert (circbuf_space_left cb1
          = circbuf_space_left (read_cb c) - Z.of_nat (length raw)) as Hsp1.
  { rewrite !circbuf_space_left_contents, Hc1, length_app, Hs1 by done. lia. }
  assert (Z.of_nat (length raw) < READBUF_SIZE) as Hlt
    by (unfold circbuf_space_left in Hroom; lia).
  destruct (Z.leb_spec 0 (Z.of_nat (length raw))); [|lia].
  destruct (Z.ltb_spec (Z.of_nat (length raw)) READBUF_SIZE); [|lia].
  destruct (Z.leb_spec (Z.of_nat (length raw)) 0); [lia|].
  cbn [andb]. rewrite Hsep.
  destruct (Z.leb_spec (circbuf_space_left cb1) 1); [lia|]. done.
Qed.

Lemma partial_line_is_buffered_witness :
  exists cb1,
    serve_client 4 (Bytes (str "hel")) (chat_with [4; 6]) scratch_x
      = Ok {| sv_chat :=
                store_client 4
                  {| fd := 4; nick := str "user:4"; read_cb := cb1 |}
                  (chat_with [4; 6]);
              sv_readbuf := scratch_x; sv_messages := []; sv_writes := [] |} /\
    contents cb1 = str "hel".
Proof.
  destruct (partial_line_is_buffered (chat_with [4; 6]) 4 client_4 (str "hel")
              scratch_x) as (cb1 & H1 & H2 & _).
  - reflexivity.
  - unfold circbuf_wf. vm_compute. repeat split; discriminate.
  - reflexivity.
  - vm_compute. discriminate.
  - reflexivity.
  - vm_compute. reflexivity.
  - exists cb1. split; [exact H1|exact H2].
Defined.

(** X16. The end of a connection.  On a client whose inbox has room for
    two bytes, a read before which nothing is pending frees the client:
    its slot is empty afterwards, [numclients] is one less, no message is
    taken out, nothing is written, and what its inbox held is gone with
    it.  A read that finds bytes pending never frees the client. *)
Theorem end_of_stream_frees (Chat : chatState) (j : Z) (c : client)
    (pending readbuf : list char) :
  chat_reach Chat ->
  client_at Chat j = Some c ->
  circbuf_wf (read_cb c) ->
  size (read_cb c) = READBUF_SIZE ->
  2 <= circbuf_space_left (read_cb c) ->
  (pending = [] ->
   exists sv,
     serve_client j (Bytes pending) Chat readbuf = Ok sv /\
     client_at (sv_chat sv) j = None /\
     numclients (sv_chat sv) = numclients Chat - 1 /\
     sv_messages sv = [] /\ sv_writes sv = [] /\ sv_readbuf sv = readbuf) /\
  (pending <> [] ->
   forall sv, serve_client j (Bytes pending) Chat readbuf = Ok sv ->
              is_Some (client_at (sv_chat sv) j)).
Proof.
  intros Hr Hat Hwf Hsz Hsp.
  pose proof (inv_fd _ (chat_reach_inv _ Hr) _ _ Hat) as Hfd.
  pose proof (client_at_range _ _ (mk_is_Some _ _ Hat)) as Hj.
  pose proof (circbuf_len_range _ (circbuf_wf_idx _ Hwf)) as Hlen.
  set (raw := read_bytes (Bytes pending) (circbuf_space_left (read_cb c) - 1)).
  assert (Hraw : raw = take (Z.to_nat (circbuf_space_left (read_cb c) - 1)) pending).
  { unfold raw, read_bytes.
    by destruct (Z.ltb_spec (circbuf_space_left (read_cb c) - 1) 0); [lia|]. }
  assert (Z.of_nat (length raw) <= circbuf_space_left (read_cb c) - 1) as Hle.
  { rewrite Hraw, length_take. lia. }
  assert (Z.of_nat (length raw) < READBUF_SIZE) as Hlt
    by (unfold circbuf_space_left in Hle; lia).
  split.
  - intros ->. assert (raw = []) as Hnil by (by rewrite Hraw, take_nil).
    eexists. split.
    + unfold serve_client. rewrite Hat. fold raw.
      change (read_result (Bytes []) (circbuf_space_left (read_cb c) - 1))
        with (Z.of_nat (length raw)).
      rewrite Hnil. reflexivity.
    + cbn [sv_chat sv_messages sv_writes sv_readbuf].
      set (c1 := {| fd := fd c; nick := nick c; read_cb := _ |}).
      split.
      { unfold client_at.
        destruct (freeClient_clients c1 (store_client j c1 Chat)) as [-> _].
        cbn [fd c1 clients store_client].
        destruct (Z.ltb_spec j 0); [done|].
        rewrite Hfd, list_lookup_insert_eq; [done|].
        rewrite length_insert. lia. }
      split; [|done].
      unfold freeClient. by destruct (_ =? _).
  - intros Hpend sv. unfold serve_client. rewrite Hat. fold raw.
    change (read_result (Bytes pending) (circbuf_space_left (read_cb c) - 1))
      with (Z.of_nat (length raw)).
    assert (0 < Z.of_nat (length raw)) as Hpos.
    { rewrite Hraw, length_take. destruct pending; [done|]. simpl. lia. }
    set (cb := (circbuf_push_from_linear _ _ _).1).
    set (c1 := {| fd := fd c; nick := nick c; read_cb := cb |}).
    destruct (Z.leb_spec 0 (Z.of_nat (length raw))); [|lia].
    destruct (Z.ltb_spec (Z.of_nat (length raw)) READBUF_SIZE); [|lia].
    destruct (Z.leb_spec (Z.of_nat (length raw)) 0); [lia|].
    cbn [andb].
    assert (is_Some (client_at (store_client j c1 Chat) j)) as Hsome
      by (rewrite (client_at_store _ _ _ c1 Hat); eauto).
    destruct (_ || _); [|by intros [= <-] ].
    destruct (extract_rounds _ j c1 _ readbuf)
      as [ [ [ [Chat' rb'] ms] ws]|] eqn:E;
      cbn [mbind outcome_bind]; [|done].
    intros [= <-]. cbn [sv_chat].
    destruct (extract_rounds_store _ _ _ _ _ _ _ _ _ E) as [->|(c' & ->)];
      [done|].
    rewrite store_client_twice, (client_at_store _ _ _ c' Hat). eauto.
Qed.

Lemma end_of_stream_frees_witness :
  exists sv,
    serve_client 6 (Bytes []) (chat_with [4; 6]) scratch_x = Ok sv /\
    client_at (sv_chat sv) 6 = None /\
    numclients (sv_chat sv) = numclients (chat_with [4; 6]) - 1.
Proof.
  destruct (client_at (chat_with [4; 6]) 6) as [c6|] eqn:E6;
    [|vm_compute in E6; discriminate E6].
  assert (c6 = {| fd := 6; nick := str "user:6";
                  read_cb := circbuf_alloc fresh_block READBUF_SIZE |}) as Ec
    by (vm_compute in E6; injection E6 as <-; reflexivity).
  destruct (proj1 (end_of_stream_frees (chat_with [4; 6]) 6 c6 [] scratch_x
                     (chat_with_reach [4; 6]) E6
                     ltac:(rewrite Ec; unfold circbuf_wf; vm_compute;
                           repeat split; discriminate)
                     ltac:(rewrite Ec; reflexivity)
                     ltac:(rewrite Ec; vm_compute; discriminate))
              eq_refl) as (sv & H1 & H2 & H3 & _).
  exists sv. split; [exact H1|]. split; [exact H2|exact H3].
Defined.

(** ** Lines and commands *)

Lemma occupied_ids_store Chat j c0 c :
  client_at Chat j = Some c0 ->
  occupied_ids (store_client j c Chat) = occupied_ids Chat.
Proof.
  intros Hat. pose proof (client_at_range _ _ (mk_is_Some _ _ Hat)) as Hj.
  unfold occupied_ids. cbn [store_client clients]. rewrite length_insert.
  apply list_filter_iff. intros i.
  rewrite (client_at_insert Chat (store_client j c Chat) j (Some c) eq_refl Hj).
  destruct (Z.eqb_spec i j) as [->|]; [|done]. rewrite Hat. split; eauto.
Qed.

(** The broadcast in a state of the registry, by the occupied ids. *)
Lemma broadcast_by_ids Chat excluded s :
  chat_inv Chat ->
  sendMsgToAllClientsBut excluded s Chat
  = (fun i : Z => (i, s)) <$>
      filter (fun i => i <> excluded) (occupied_ids Chat).
Proof.
  intros Hinv. unfold sendMsgToAllClientsBut.
  rewrite (broadcast_over Chat excluded s _ (inv_fd _ Hinv)).
  by rewrite occupied_ids_upto.
Qed.

(** A round on an inbox that holds a separator, up to what is done with
    the message: the scratch buffer handed on holds the message, its
    terminator, and behind them what it held before. *)
Lemma extract_round_sep_eq j c Chat readbuf pre post :
  circbuf_wf (read_cb c) ->
  size (read_cb c) = Z.of_nat (length readbuf) ->
  contents (read_cb c) = pre ++ MSG_SEP :: post ->
  count_sep pre = 0 ->
  exists cb2,
    circbuf_wf cb2 /\ size cb2 = size (read_cb c) /\ contents cb2 = post /\
    extract_round j c Chat readbuf
    = (let c1 := {| fd := fd c; nick := nick c; read_cb := cb2 |} in
       let '(c2, rb2, ws) :=
         process_message j c1 (store_client j c1 Chat)
           ((pre ++ [MSG_SEP]) ++ NUL :: drop (S (S (length pre))) readbuf) in
       Ok (c2, store_client j c2 Chat, rb2, pre ++ [MSG_SEP], ws)).
Proof.
  intros Hwf Hsz Hc Hsep.
  pose proof (contents_length _ Hwf) as Hlen.
  pose proof (circbuf_len_range _ (circbuf_wf_idx _ Hwf)) as Hrange.
  rewrite Hc, length_app in Hlen. simpl in Hlen.
  unfold extract_round.
  destruct (pop_until_sep_prefix pre (read_cb c) readbuf 0 []
              (S (length readbuf - length pre - 1)) (MSG_SEP :: post))
    as (cb1 & Hwf1 & Hs1 & Hc1 & E1); try done; try lia.
  replace (length pre + S (length readbuf - length pre - 1))%nat
    with (length readbuf) in E1 by lia.
  change (Z.to_nat 0) with 0%nat in E1.
  rewrite take_0, !app_nil_l, Nat.add_0_l, Z.add_0_l in E1.
  destruct (pop_until_sep_hit cb1 (pre ++ drop (length pre) readbuf)
              (Z.of_nat (length pre)) (replicate (length pre) 1)
              (length readbuf - length pre - 1) post)
    as (cb2 & Hwf2 & Hs2 & Hc2 & E2); try done; try lia.
  { rewrite length_app, length_drop. lia. }
  exists cb2. split; [done|]. split; [congruence|]. split; [done|].
  rewrite E1, E2. clear E1 E2.
  cbn [mbind outcome_bind]. rewrite Nat2Z.id.
  destruct (lookup_lt_is_Some_2 readbuf (length pre)) as [y Hy]; [lia|].
  destruct (lookup_lt_is_Some_2 readbuf (S (length pre))) as [z Hz]; [lia|].
  rewrite (drop_S _ _ _ Hy), (drop_S _ _ _ Hz).
  replace (<[length pre:=MSG_SEP]>
             (pre ++ y :: z :: drop (S (S (length pre))) readbuf))
    with ((pre ++ [MSG_SEP]) ++ z :: drop (S (S (length pre))) readbuf).
  2:{ rewrite insert_app_r_alt, Nat.sub_diag by lia.
      by rewrite <- app_assoc. }
  assert (length ((pre ++ [MSG_SEP]) ++ z :: drop (S (S (length pre))) readbuf)
          = length readbuf) as Hscr.
  { rewrite !length_app. cbn [length]. rewrite length_drop. lia. }
  rewrite Hscr.
  destruct (Z.ltb_spec (Z.of_nat (length pre) + 1) (Z.of_nat (length readbuf)));
    [|lia].
  replace (Z.to_nat (Z.of_nat (length pre) + 1))
    with (length (pre ++ [MSG_SEP]) + 0)%nat
    by (rewrite length_app; simpl; lia).
  rewrite insert_app_r. cbn [list_insert insert].
  rewrite take_app_length'; [done|lia].
Qed.

(** X17. A line is relayed.  A read brings the end of a line and its
    separator to a client whose inbox holds the beginning of it.  When
    the line holds no null byte and does not start with ["/"], the
    handler takes it out as one message and writes ["<nick>> <line>"],
    cut to 255 bytes, once to every other registered client, in
    ascending order of the ids, and not to the sender; the sender keeps
    its nickname and its inbox is left empty. *)
Theorem line_is_relayed (Chat : chatState) (j : Z) (c : client)
    (line readbuf : list char) :
  chat_reach Chat ->
  client_at Chat j = Some c ->
  inbox_ok c ->
  Z.of_nat (length readbuf) = READBUF_SIZE ->
  count_sep line = 0 ->
  Z.of_nat (length line) + 1 <= circbuf_space_left (read_cb c) - 1 ->
  let text := contents (read_cb c) ++ line ++ [MSG_SEP] in
  NUL ∉ text ->
  head text <> Some SLASH ->
  exists sv c',
    serve_client j (Bytes (line ++ [MSG_SEP])) Chat readbuf = Ok sv /\
    sv_messages sv = [text] /\
    sv_writes sv
      = (fun i : Z => (i, take 255 (nick c ++ str "> " ++ text))) <$>
          filter (fun i => i <> j) (occupied_ids Chat) /\
    client_at (sv_chat sv) j = Some c' /\
    nick c' = nick c /\ contents (read_cb c') = [].
Proof.
  intros Hr Hat (Hwf & Hsz & Hsep & Hsp) Hrb Hline Hfit text Hnul Hhead.
  pose proof (circbuf_len_range _ (circbuf_wf_idx _ Hwf)) as Hlen.
  set (raw := read_bytes (Bytes (line ++ [MSG_SEP]))
                (circbuf_space_left (read_cb c) - 1)).
  assert (Hraw : raw = line ++ [MSG_SEP]).
  { unfold raw, read_bytes.
    destruct (Z.ltb_spec (circbuf_space_left (read_cb c) - 1) 0); [done|].
    apply take_ge. rewrite length_app. simpl. lia. }
  assert (Hrawlen : Z.of_nat (length raw) = Z.of_nat (length line) + 1).
  { rewrite Hraw, length_app. simpl. lia. }
  destruct (serve_client_push (read_cb c) raw Hwf ltac:(lia))
    as (cb1 & Epush & Hwf1 & Hs1 & Hc1).
  set (c1 := {| fd := fd c; nick := nick c; read_cb := cb1 |}).
  assert (Hc1' : contents (read_cb c1)
                 = (contents (read_cb c) ++ line) ++ MSG_SEP :: []).
  { simpl. rewrite Hc1, Hraw, app_assoc. done. }
  assert (Hat1 : client_at (store_client j c1 Chat) j = Some c1)
    by (by eapply client_at_store).
  destruct (extract_round_sep_eq j c1 (store_client j c1 Chat) readbuf
              (contents (read_cb c) ++ line) [] Hwf1)
    as (cb2 & Hwf2 & Hs2 & Hc2 & E); [simpl; congruence|done| |].
  { rewrite count_sep_app, Hsep, Hline. done. }
  (* the message is no command *)
  set (scratch := ((contents (read_cb c) ++ line) ++ [MSG_SEP])
                  ++ NUL :: drop (S (S (length (contents (read_cb c) ++ line))))
                              readbuf) in E.
  assert (Etext : (contents (read_cb c) ++ line) ++ [MSG_SEP] = text)
    by (unfold text; by rewrite <- app_assoc).
  assert (Hcstr : cstr scratch = text).
  { unfold scratch. rewrite Etext. apply cstr_app.
    apply Forall_forall. intros x Hx ->. done. }
  assert (Hcmd : ceq (default NUL (scratch !! 0%nat)) SLASH = false).
  { apply ceq_false. unfold scratch. rewrite Etext.
    destruct text as [|x text'] eqn:Et.
    - unfold text in Et. destruct (contents (read_cb c)), line; done.
    - simpl. intros ->. done. }
  unfold process_message in E. rewrite Hcmd, Hcstr in E.
  cbv beta iota zeta in E. rewrite store_client_twice in E.
  rewrite (broadcast_by_ids (store_client j _ Chat)) in E.
  2:{ rewrite (client_eta c) in Hat.
      exact (store_client_inv Chat j _ (nick c) cb2 (chat_reach_inv _ Hr) Hat). }
  rewrite (occupied_ids_store Chat j c _ Hat) in E.
  eexists _, _. split; [|split; [|split; [|split; [|split] ] ] ].
  - unfold serve_client. rewrite Hat. fold raw.
    change (read_result (Bytes (line ++ [MSG_SEP]))
              (circbuf_space_left (read_cb c) - 1))
      with (Z.of_nat (length raw)).
    rewrite Epush. cbn [fst read_cb]. fold c1.
    assert (Z.of_nat (length raw) < READBUF_SIZE) as Hlt
      by (unfold circbuf_space_left in Hfit; lia).
    destruct (Z.leb_spec 0 (Z.of_nat (length raw))); [|lia].
    destruct (Z.ltb_spec (Z.of_nat (length raw)) READBUF_SIZE); [|lia].
    destruct (Z.leb_spec (Z.of_nat (length raw)) 0); [lia|].
    cbn [andb].
    assert (count_sep raw = 1) as ->.
    { rewrite Hraw, count_sep_app, Hline, count_sep_cons. done. }
    cbn [Z.gtb Z.compare orb Z.eqb].
    change (Z.to_nat 1) with 1%nat. cbn [extract_rounds].
    rewrite E. cbn [mbind outcome_bind]. reflexivity.
  - cbn [sv_messages]. by rewrite Etext.
  - cbn [sv_writes]. by rewrite app_nil_r.
  - cbn [sv_chat]. by eapply client_at_store.
  - done.
  - done.
Qed.

Lemma line_is_relayed_witness :
  exists sv c',
    serve_client 4 (Bytes (str "hello" ++ [MSG_SEP])) (chat_with [4; 6; 9])
      scratch_x = Ok sv /\
    sv_messages sv = [str "hello" ++ [MSG_SEP]] /\
    sv_writes sv
      = [(6, str "user:4> hello" ++ [MSG_SEP]);
         (9, str "user:4> hello" ++ [MSG_SEP])] /\
    client_at (sv_chat sv) 4 = Some c' /\
    nick c' = str "user:4" /\ contents (read_cb c') = [].
Proof.
  refine (line_is_relayed (chat_with [4; 6; 9]) 4 client_4 (str "hello")
            scratch_x (chat_with_reach [4; 6; 9]) _ _ _ _ _ _ _).
  - reflexivity.
  - unfold inbox_ok, circbuf_wf. vm_compute. repeat split; discriminate.
  - reflexivity.
  - reflexivity.
  - vm_compute. discriminate.
  - vm_compute. intros H. repeat (apply elem_of_cons in H as [H|H]; [discriminate H|]).
    by apply elem_of_nil in H.
  - vm_compute. discriminate.
Defined.

(** X18. A command is never relayed.  Whatever the message, when it
    starts with ["/"] the handler writes to no other client: either the
    nickname is replaced and nothing is written, or nothing of the client
    changes and the one [write] is the notice ["Unsupported command"], to
    the client itself.  The second is what happens whenever the message
    has no space before its end. *)
Theorem command_is_not_relayed (j : Z) (c : client) (Chat : chatState)
    (readbuf : list char) :
  readbuf !! 0%nat = Some SLASH ->
  let r := process_message j c Chat readbuf in
  ((fd r.1.1 = fd c /\ read_cb r.1.1 = read_cb c /\ r.2 = []) \/
   (r.1.1 = c /\ r.2 = [(fd c, str "Unsupported command" ++ [LF])])) /\
  (strchr (cut_at (cut_at readbuf CR) LF) SP = None ->
   r.1.1 = c /\ r.2 = [(fd c, str "Unsupported command" ++ [LF])]).
Proof.
  intros Hhead r. subst r. unfold process_message. rewrite Hhead.
  change (ceq (default NUL (Some SLASH)) SLASH) with true. cbv iota zeta.
  destruct (strchr (cut_at (cut_at readbuf CR) LF) SP) as [p|].
  - split; [|done]. destruct (streq _ _); [left|right]; done.
  - split; [right|]; done.
Qed.

Lemma command_is_not_relayed_witness :
  (process_message 4 client_4 (chat_with [4; 6])
     (str "/quit" ++ [LF; NUL] ++ drop 7 scratch_x)).2
  = [(4, str "Unsupported command" ++ [LF])].
Proof.
  refine (proj2 (proj2 (command_is_not_relayed 4 client_4 (chat_with [4; 6])
                          (str "/quit" ++ [LF; NUL] ++ drop 7 scratch_x) _) _)).
  - reflexivity.
  - reflexivity.
Defined.

Lemma nick_argument_verbatim_witness :
  (process_message 4 client_4 (chat_with [4; 6])
     (str "/nick " ++ str "Mr X" ++ LF :: NUL :: drop 12 scratch_x)).1.1
  = {| fd := 4; nick := str "Mr X"; read_cb := read_cb client_4 |}.
Proof.
  refine (proj1 (nick_argument_verbatim 4 client_4 (chat_with [4; 6])
                   (str "Mr X") (drop 12 scratch_x) _)).
  repeat constructor; discriminate.
Defined.

(* ===================================================================== *)
(** * Part XI. The loop over the clients *)
(* ===================================================================== *)

(** ** What one run of the handler does to the registry *)

Lemma is_Some_store Chat j c0 c i :
  client_at Chat j = Some c0 ->
  is_Some (client_at (store_client j c Chat) i) <-> is_Some (client_at Chat i).
Proof.
  intros Hat. pose proof (client_at_range _ _ (mk_is_Some _ _ Hat)) as Hj.
  destruct (Z.eq_dec i j) as [->|Hne].
  - rewrite (client_at_store _ _ _ c Hat), Hat. split; eauto.
  - rewrite client_at_store_ne by lia. done.
Qed.

(** The handler never raises [maxclient] nor [numclients]. *)
Lemma serve_client_shrinks j inp Chat readbuf sv :
  chat_reach Chat ->
  serve_client j inp Chat readbuf = Ok sv ->
  maxclient (sv_chat sv) <= maxclient Chat /\
  numclients (sv_chat sv) <= numclients Chat.
Proof.
  intros Hr. unfold serve_client.
  destruct (client_at Chat j) as [c|] eqn:Hat;
    [|intros [= <-]; cbn [sv_chat]; lia].
  set (cb := (circbuf_push_from_linear _ _ _).1).
  set (c1 := {| fd := fd c; nick := nick c; read_cb := cb |}).
  assert (chat_reach (store_client j c1 Chat)) as Hr1 by (by apply chat_update).
  assert (client_at (store_client j c1 Chat) j = Some c1) as Hat1
    by (by eapply client_at_store).
  pose proof (client_at_range _ _ (mk_is_Some _ _ Hat)) as Hj.
  destruct (_ && _); [|done].
  destruct (_ <=? 0).
  { intros [= <-]. cbn [sv_chat].
    destruct (freeClient_fields _ j c1 (chat_reach_inv _ Hr1) Hat1)
      as (_ & Hn & _ & Hother & Hscan).
    pose proof (inv_below _ (chat_reach_inv _ Hr) j (mk_is_Some _ _ Hat)) as Hb.
    cbn [store_client numclients maxclient] in Hn, Hother, Hscan.
    split; [|lia].
    destruct (Z.eq_dec j (maxclient Chat)) as [E|E].
    - rewrite (Hscan E).
      destruct (free_scan_spec (Z.to_nat j)
                  (<[Z.to_nat j:=None]> (clients (store_client j c1 Chat)))
                  (j - 1)) as (Hscan_le & _); lia.
    - rewrite (Hother E). lia. }
  destruct (_ || _); [|intros [= <-]; cbn [sv_chat store_client maxclient numclients]; lia].
  destruct (extract_rounds _ j c1 _ readbuf)
    as [ [ [ [Chat' rb'] ms] ws]|] eqn:E;
    cbn [mbind outcome_bind]; [|done].
  intros [= <-]. cbn [sv_chat].
  destruct (extract_rounds_store _ _ _ _ _ _ _ _ _ E) as [->|(c' & ->)];
    cbn [store_client maxclient numclients]; lia.
Qed.

(** ** Whom the handler writes to *)

Lemma process_message_writes j c Chat readbuf w :
  chat_inv Chat -> is_Some (client_at Chat (fd c)) ->
  w ∈ (process_message j c Chat readbuf).2 -> is_Some (client_at Chat w.1).
Proof.
  intros Hinv Hc. unfold process_message.
  destruct (ceq _ SLASH).
  - destruct (strchr _ SP) as [p|]; [destruct (streq _ _)|]; cbn [snd];
      rewrite ?elem_of_nil, ?list_elem_of_singleton; try done; by intros ->.
  - cbn [snd]. rewrite (broadcast_by_ids _ _ _ Hinv), list_elem_of_fmap.
    intros (i & -> & Hi). apply list_elem_of_filter in Hi as [_ Hi].
    by apply elem_of_occupied_ids.
Qed.

Lemma extract_round_writes j c0 c Chat readbuf c2 Chat2 rb2 m ws :
  chat_reach Chat -> client_at Chat j = Some c0 -> fd c = fd c0 ->
  extract_round j c Chat readbuf = Ok (c2, Chat2, rb2, m, ws) ->
  forall w, w ∈ ws -> is_Some (client_at Chat w.1).
Proof.
  intros Hr Hat Hfd. unfold extract_round.
  destruct (pop_until_sep _ _ _ _ _) as [ [ [ [cb' rb] idx] pops]|];
    cbn [mbind outcome_bind]; [|done].
  destruct (_ <? _); [|done].
  set (c1 := {| fd := fd c; nick := nick c; read_cb := cb' |}).
  assert (chat_reach (store_client j c1 Chat)) as Hr1.
  { unfold c1. rewrite Hfd. by apply chat_update. }
  assert (is_Some (client_at (store_client j c1 Chat) (fd c1))) as Hsome.
  { cbn [fd c1]. rewrite Hfd, (inv_fd _ (chat_reach_inv _ Hr) _ _ Hat).
    rewrite (client_at_store _ _ _ c1 Hat). eauto. }
  pose proof (fun w => process_message_writes j c1 (store_client j c1 Chat)
    (<[Z.to_nat idx:=NUL]> rb) w (chat_reach_inv _ Hr1) Hsome) as Hw.
  destruct (process_message _ _ _ _) as [ [c3 rb3] ws3].
  intros [= <- <- <- <- <-] w Hin.
  apply (is_Some_store Chat j c0 c1 _ Hat), Hw, Hin.
Qed.

Lemma extract_rounds_writes j k : forall c0 c Chat readbuf Chat' rb' ms ws,
  chat_reach Chat -> client_at Chat j = Some c0 -> fd c = fd c0 ->
  extract_rounds k j c Chat readbuf = Ok (Chat', rb', ms, ws) ->
  forall w, w ∈ ws -> is_Some (client_at Chat w.1).
Proof.
  induction k as [|k IH]; intros c0 c Chat readbuf Chat' rb' ms ws Hr Hat Hfd;
    cbn [extract_rounds].
  - intros [= <- <- <- <-] w Hin. by apply elem_of_nil in Hin.
  - destruct (extract_round j c Chat readbuf)
      as [ [ [ [ [c2 Chat2] rb2] m] ws2]|] eqn:E1;
      cbn [mbind outcome_bind]; [|done].
    destruct (extract_round_reach _ _ _ _ _ _ _ _ _ _ Hr Hat Hfd E1)
      as (Hr2 & Hat2 & Hfd2).
    pose proof (extract_round_writes _ _ _ _ _ _ _ _ _ _ Hr Hat Hfd E1) as Hw1.
    pose proof (extract_round_store _ _ _ _ _ _ _ _ _ E1) as HC2.
    destruct (extract_rounds k j c2 Chat2 rb2)
      as [ [ [ [Chat3 rb3] ms3] ws3]|] eqn:E2;
      cbn [mbind outcome_bind]; [|done].
    intros [= <- <- <- <-] w Hin. apply elem_of_app in Hin as [Hin|Hin].
    + by apply Hw1.
    + pose proof (IH c2 c2 Chat2 rb2 _ _ _ _ Hr2 Hat2 eq_refl E2 w Hin) as Hs.
      rewrite HC2 in Hs. by apply (is_Some_store Chat j c0 c2 _ Hat).
Qed.

Lemma serve_client_writes j inp Chat readbuf sv :
  chat_reach Chat ->
  serve_client j inp Chat readbuf = Ok sv ->
  forall w, w ∈ sv_writes sv -> is_Some (client_at Chat w.1).
Proof.
  intros Hr. unfold serve_client.
  destruct (client_at Chat j) as [c|] eqn:Hat;
    [|intros [= <-] w Hin; by apply elem_of_nil in Hin].
  set (cb := (circbuf_push_from_linear _ _ _).1).
  set (c1 := {| fd := fd c; nick := nick c; read_cb := cb |}).
  assert (chat_reach (store_client j c1 Chat)) as Hr1 by (by apply chat_update).
  assert (client_at (store_client j c1 Chat) j = Some c1) as Hat1
    by (by eapply client_at_store).
  destruct (_ && _); [|done].
  destruct (_ <=? 0); [intros [= <-] w Hin; by apply elem_of_nil in Hin|].
  destruct (_ || _); [|intros [= <-] w Hin; by apply elem_of_nil in Hin].
  destruct (extract_rounds _ j c1 _ readbuf)
    as [ [ [ [Chat' rb'] ms] ws]|] eqn:E;
    cbn [mbind outcome_bind]; [|done].
  intros [= <-] w Hin. cbn [sv_writes] in Hin.
  apply (is_Some_store Chat j c c1 _ Hat).
  by eapply (extract_rounds_writes j _ c1 c1).
Qed.

(** ** The loop *)


Lemma serve_pass_frame ready todo : forall j Chat readbuf Chat' rb' ws,
  chat_reach Chat ->
  serve_pass todo ready j Chat readbuf = Ok (Chat', rb', ws) ->
  chat_reach Chat' /\
  serversock Chat' = serversock Chat /\
  maxclient Chat' <= maxclient Chat /\
  numclients Chat' <= numclients Chat /\
  (forall i, i < j \/ ready i = None ->
     client_at Chat' i = client_at Chat i) /\
  (forall i, is_Some (client_at Chat' i) -> is_Some (client_at Chat i)) /\
  (forall w, w ∈ ws -> is_Some (client_at Chat w.1)).
Proof.
  induction todo as [|todo IH]; intros j Chat readbuf Chat' rb' ws Hr;
    cbn [serve_pass].
  { intros [= <- <- <-]. do 6 (split; [done|]).
    intros w Hin. by apply elem_of_nil in Hin. }
  destruct (j <=? maxclient Chat).
  2:{ intros [= <- <- <-]. do 6 (split; [done|]).
      intros w Hin. by apply elem_of_nil in Hin. }
  assert (Hskip :
    serve_pass todo ready (j + 1) Chat readbuf = Ok (Chat', rb', ws) ->
    chat_reach Chat' /\
    serversock Chat' = serversock Chat /\
    maxclient Chat' <= maxclient Chat /\
    numclients Chat' <= numclients Chat /\
    (forall i, i < j \/ ready i = None ->
       client_at Chat' i = client_at Chat i) /\
    (forall i, is_Some (client_at Chat' i) -> is_Some (client_at Chat i)) /\
    (forall w, w ∈ ws -> is_Some (client_at Chat w.1))).
  { intros E.
    destruct (IH _ _ _ _ _ _ Hr E) as (H1 & H4 & H5 & H6 & H7 & H8 & H9).
    do 4 (split; [done|]). split; [|done]. intros i Hi. apply H7.
    destruct Hi as [Hi|Hi]; [left; lia|by right]. }
  destruct (client_at Chat j) as [c|] eqn:Hat; [|exact Hskip].
  destruct (ready j) as [inp|] eqn:Hready; [|exact Hskip]. clear Hskip.
  destruct (serve_client j inp Chat readbuf) as [sv|] eqn:Esv;
    cbn [mbind outcome_bind]; [|done].
  pose proof (serve_client_reach_aux _ _ _ _ _ Hr Esv) as Hr1.
  destruct (serve_client_frame_aux _ _ _ _ _ Hr Esv) as [Hfr1 Hsock1].
  destruct (serve_client_shrinks _ _ _ _ _ Hr Esv) as [Hmax1 Hnum1].
  pose proof (serve_client_writes _ _ _ _ _ Hr Esv) as Hw1.
  assert (forall i, is_Some (client_at (sv_chat sv) i) ->
                    is_Some (client_at Chat i)) as Hsub.
  { intros i Hi. destruct (Z.eq_dec i j) as [->|Hne]; [eauto|].
    by rewrite <- Hfr1. }
  destruct (serve_pass todo ready (j + 1) (sv_chat sv) (sv_readbuf sv))
    as [ [ [Chat2 rb2] ws2]|] eqn:E2; cbn [mbind outcome_bind]; [|done].
  intros [= <- <- <-].
  destruct (IH _ _ _ _ _ _ Hr1 E2) as (H1 & H4 & H5 & H6 & H7 & H8 & H9).
  split; [done|]. split; [congruence|].
  split; [lia|]. split; [lia|]. split; [|split].
  - intros i Hi.
    assert (i <> j) as Hne by (destruct Hi as [Hi|Hi]; [lia|congruence]).
    rewrite H7 by (destruct Hi as [Hi|Hi]; [left; lia|by right]).
    by apply Hfr1.
  - intros i Hi. by apply Hsub, H8.
  - intros w Hin. apply elem_of_app in Hin as [Hin|Hin]; [by apply Hw1|].
    by apply Hsub, H9.
Qed.

Lemma serve_pass_inboxes ready todo : forall j Chat readbuf Chat' rb' ws,
  chat_reach Chat -> inboxes_ok Chat ->
  Z.of_nat (length readbuf) = READBUF_SIZE ->
  serve_pass todo ready j Chat readbuf = Ok (Chat', rb', ws) ->
  inboxes_ok Chat' /\ length rb' = length readbuf.
Proof.
  induction todo as [|todo IH]; intros j Chat readbuf Chat' rb' ws Hr Hok Hrb;
    cbn [serve_pass].
  { by intros [= <- <- <-]. }
  destruct (j <=? maxclient Chat); [|by intros [= <- <- <-] ].
  destruct (client_at Chat j) as [c|] eqn:Hat; [|by apply IH].
  destruct (ready j) as [inp|] eqn:Hready; [|by apply IH].
  destruct (serve_client j inp Chat readbuf) as [sv|] eqn:Esv;
    cbn [mbind outcome_bind]; [|done].
  pose proof (serve_client_reach_aux _ _ _ _ _ Hr Esv) as Hr1.
  destruct (serve_client_inbox _ _ _ _ _ _ Hr Hat (Hok _ _ Hat) Hrb Esv)
    as [Hlen1 Hok1].
  destruct (serve_client_frame_aux _ _ _ _ _ Hr Esv) as [Hfr1 _].
  assert (inboxes_ok (sv_chat sv)) as Hoks.
  { intros i c' Hi. destruct (Z.eq_dec i j) as [->|Hne]; [by apply Hok1|].
    rewrite Hfr1 in Hi by done. by eapply Hok. }
  assert (Z.of_nat (length (sv_readbuf sv)) = READBUF_SIZE) as Hrb1
    by (by rewrite Hlen1).
  destruct (serve_pass todo ready (j + 1) (sv_chat sv) (sv_readbuf sv))
    as [ [ [Chat2 rb2] ws2]|] eqn:E2; cbn [mbind outcome_bind]; [|done].
  intros [= <- <- <-].
  destruct (IH _ _ _ _ _ _ Hr1 Hoks Hrb1 E2) as [H2 H3].
  split; [done|congruence].
Qed.

(** The states of the samples have inboxes as [inbox_ok] says. *)
Lemma createClient_inboxes_ok fd0 nickmem mem Chat c Chat' :
  chat_inv Chat -> Z.of_nat (length mem) = READBUF_SIZE ->
  inboxes_ok Chat ->
  createClient fd0 nickmem mem Chat = Ok (Some (c, Chat')) ->
  inboxes_ok Chat'.
Proof.
  intros Hinv Hmem Hok Hc.
  destruct (createClient_fields _ _ _ _ _ _ Hc) as [_ Hcb].
  apply createClient_Some in Hc as (Hrange & Hfree & Hfdc & Hcl & Hn & Hm & Hs).
  pose proof (client_at_insert Chat Chat' fd0 (Some c) Hcl
                ltac:(rewrite (inv_length _ Hinv); lia)) as Hat.
  assert (Hwf : circbuf_wf (read_cb c)).
  { rewrite Hcb. unfold circbuf_wf, READBUF_SIZE in *. simpl. lia. }
  assert (Hcont : contents (read_cb c) = []).
  { apply contents_nil_iff; [done|]. by rewrite Hcb. }
  intros i c'. rewrite Hat. destruct (Z.eqb_spec i fd0) as [->|Hne]; [|apply Hok].
  intros [= <-]. split; [done|]. split; [by rewrite Hcb|].
  split; [by rewrite Hcont|].
  rewrite circbuf_space_left_contents, Hcont, Hcb by done.
  unfold READBUF_SIZE. simpl. lia.
Qed.

Lemma chat_with_inboxes_ok fds : inboxes_ok (chat_with fds).
Proof.
  unfold chat_with.
  assert (forall Chat, chat_reach Chat -> inboxes_ok Chat ->
            inboxes_ok (foldl connect Chat fds)) as Hgen.
  { induction fds as [|fd0 fds IH]; intros Chat Hr Hok; simpl; [done|].
    unfold connect.
    destruct (createClient fd0 fresh_nick fresh_block Chat)
      as [ [ [c Chat']|]|] eqn:E; try (by apply IH).
    apply IH; [by eapply chat_create|].
    apply (createClient_inboxes_ok fd0 fresh_nick fresh_block Chat c Chat');
      [by apply chat_reach_inv|reflexivity|done|done]. }
  apply Hgen; [apply chat_init|].
  intros i c Hc.
  pose proof (inv_below _ (initChat_inv 3) i (mk_is_Some _ _ Hc)) as Hb.
  pose proof (client_at_range _ _ (mk_is_Some _ _ Hc)) as Hi.
  cbn [initChat maxclient] in Hb. lia.
Qed.

(** X21. The loop over the clients hands on what it was given.  Entered
    in a state of the registry where every client's inbox is allocated
    with [READBUF_SIZE], holds no separator and has room for a byte, and
    with a scratch buffer of [READBUF_SIZE] bytes, the loop, when it gets
    through without leaving the arrays, ends in such a state again,
    whichever clients were readable and whatever they sent; the listening
    socket is the same.  So the next turn of [while(1)] starts as this
    one did. *)
Theorem serve_clients_invariant (ready : Z -> option sock_input)
    (Chat : chatState) (readbuf : list char)
    (Chat' : chatState) (rb' : list char) (ws : list write_call) :
  chat_reach Chat ->
  inboxes_ok Chat ->
  Z.of_nat (length readbuf) = READBUF_SIZE ->
  serve_clients ready Chat readbuf = Ok (Chat', rb', ws) ->
  chat_reach Chat' /\ inboxes_ok Chat' /\
  Z.of_nat (length rb') = READBUF_SIZE /\
  serversock Chat' = serversock Chat.
Proof.
  intros Hr Hok Hrb E. unfold serve_clients in E.
  destruct (serve_pass_frame _ _ _ _ _ _ _ _ Hr E) as (H1 & H2 & _).
  destruct (serve_pass_inboxes _ _ _ _ _ _ _ _ Hr Hok Hrb E) as [H3 H4].
  split; [done|]. split; [done|]. split; [congruence|done].
Qed.

Lemma serve_clients_invariant_witness :
  exists Chat' rb' ws,
    serve_clients ready_4_6 (chat_with [4; 6; 9]) scratch_x
    = Ok (Chat', rb', ws) /\
    chat_reach Chat' /\ inboxes_ok Chat'.
Proof.
  eexists _, _, _. split; [vm_compute; reflexivity|].
  refine (let H := serve_clients_invariant ready_4_6 (chat_with [4; 6; 9])
                     scratch_x _ _ _ (chat_with_reach _)
                     (chat_with_inboxes_ok _) _ _ in
          conj (proj1 H) (proj1 (proj2 H))).
  - reflexivity.
  - vm_compute. reflexivity.
Defined.

(** X22. The loop touches the readable clients only.  In every state of
    the registry, when the loop gets through: a client whose descriptor
    was not readable is afterwards as it was, nickname and inbox; no
    client is registered that was not before, and neither [maxclient]
    nor [numclients] has grown; and every [write] of the loop is to the
    descriptor of a client that was registered when the loop began. *)
Theorem serve_clients_touch_ready_only (ready : Z -> option sock_input)
    (Chat : chatState) (readbuf : list char)
    (Chat' : chatState) (rb' : list char) (ws : list write_call) :
  chat_reach Chat ->
  serve_clients ready Chat readbuf = Ok (Chat', rb', ws) ->
  (forall i, ready i = None -> client_at Chat' i = client_at Chat i) /\
  (forall i, is_Some (client_at Chat' i) -> is_Some (client_at Chat i)) /\
  maxclient Chat' <= maxclient Chat /\
  numclients Chat' <= numclients Chat /\
  (forall w, w ∈ ws -> is_Some (client_at Chat w.1)).
Proof.
  intros Hr E. unfold serve_clients in E.
  destruct (serve_pass_frame _ _ _ _ _ _ _ _ Hr E)
    as (_ & _ & H5 & H6 & H7 & H8 & H9).
  split; [|done]. intros i Hi. apply H7. by right.
Qed.

Lemma serve_clients_touch_ready_only_witness :
  exists Chat' rb' ws,
    serve_clients ready_4_6 (chat_with [4; 6; 9]) scratch_x
    = Ok (Chat', rb', ws) /\
    client_at Chat' 9 = client_at (chat_with [4; 6; 9]) 9 /\
    numclients Chat' <= numclients (chat_with [4; 6; 9]).
Proof.
  eexists _, _, _. split; [vm_compute; reflexivity|].
  refine (let H := serve_clients_touch_ready_only ready_4_6
                     (chat_with [4; 6; 9]) scratch_x _ _ _
                     (chat_with_reach _) _ in
          conj (proj1 H 9 eq_refl) (proj1 (proj2 (proj2 (proj2 H))))).
  vm_compute. reflexivity.
Defined.

(** What the loop of the sample does: the three lines of descriptor 4 go
    to 6 and 9, in order; then 6, at the end of its stream, is freed, and
    two clients are left. *)
Example serve_clients_sample :
  exists Chat' rb',
    serve_clients ready_4_6 (chat_with [4; 6; 9]) scratch_x
    = Ok (Chat', rb',
          [(6, str "user:4> nice" ++ [LF]); (9, str "user:4> nice" ++ [LF]);
           (6, str "user:4> to" ++ [LF]); (9, str "user:4> to" ++ [LF]);
           (6, str "user:4> meet" ++ [LF]); (9, str "user:4> meet" ++ [LF])]) /\
    occupied_ids Chat' = [4; 9] /\ numclients Chat' = 2 /\ maxclient Chat' = 9.
Proof. eexists _, _. split; vm_compute; [reflexivity|done]. Qed.

(** X23. The loop ends with its guard.  The handler changes
    [Chat->maxclient], the bound of the loop, but only lowers it: in a
    state of the registry, the loop entered at slot [j] is over after
    [maxclient + 1 - j] iterations, however many more are allowed. *)
Theorem serve_pass_ends (ready : Z -> option sock_input) (todo : nat) :
  forall (extra : nat) (j : Z) (Chat : chatState) (readbuf : list char),
  chat_reach Chat ->
  maxclient Chat + 1 - j <= Z.of_nat todo ->
  serve_pass (todo + extra) ready j Chat readbuf
  = serve_pass todo ready j Chat readbuf.
Proof.
  induction todo as [|todo IH]; intros extra j Chat readbuf Hr Hle.
  - cbn [Nat.add]. destruct extra as [|extra]; [done|]. cbn [serve_pass].
    destruct (Z.leb_spec j (maxclient Chat)); [lia|done].
  - cbn [Nat.add serve_pass].
    destruct (Z.leb_spec j (maxclient Chat)); [|done].
    destruct (client_at Chat j) as [c|]; [|apply IH; [done|lia] ].
    destruct (ready j) as [inp|]; [|apply IH; [done|lia] ].
    destruct (serve_client j inp Chat readbuf) as [sv|] eqn:Esv;
      cbn [mbind outcome_bind]; [|done].
    pose proof (serve_client_reach_aux _ _ _ _ _ Hr Esv) as Hr1.
    destruct (serve_client_shrinks _ _ _ _ _ Hr Esv) as [Hmax1 _].
    rewrite IH by (done || lia). done.
Qed.

Lemma serve_pass_ends_witness :
  serve_pass (7 + 5) ready_4_6 0 (chat_with [4; 6]) scratch_x
  = serve_clients ready_4_6 (chat_with [4; 6]) scratch_x.
Proof.
  refine (serve_pass_ends ready_4_6 7 5 0 (chat_with [4; 6]) scratch_x
            (chat_with_reach _) _).
  vm_compute. discriminate.
Defined.
